(** * Sweet Bonanza: lobby round engine and solo play

    A shallow embedding of [src/services/sweetBonanzaService.js] (the shared
    lobby: phase-timed round session, betting, decision policy, grid
    generator, payout settlement) and of
    [src/controllers/sweetBonanza.controller.js] (solo play: weighted reel
    generator, loss multiplier, ledger writes), followed by the properties
    the specification states about them.

    Conventions of the model.
    - A JavaScript number is an exact rational ([Q]), and [NaN] a value of
      its own ([num]), because the code guards against it with
      [Number(x) || 0].  IEEE-754 rounding is modelled where the lobby
      branches on it: the two totals [calculateResult] compares are
      accumulated in binary64 ([Double], over [SpecFloat]).
    - [Math.random()] is an oracle: a function from the position of the call
      to a rational in the half-open unit interval (type [draw]).
    - Loops whose exit depends on the oracle take a [fuel] bound; [None] is
      "the loop has not returned within the bound".
    - MongoDB collections are finite maps and lists, and database calls are
      assumed to succeed.  A tick runs as one step ([calculateResult]);
      the requests served while [calculateResult] awaits the database are
      modelled apart ([calculateResultAwaiting]).
    - Left out: the start-once guard of [startLoop], logging, the routes
      and the statistics query. *)

From Stdlib Require Import QArith Qround Qabs Qpower Lqa ZArith Lia List String.
From Stdlib Require Import SpecFloat.
From stdpp Require Import gmap strings list pretty sorting.
Import ListNotations.

Local Open Scope string_scope.
Local Open Scope list_scope.

(** ** JavaScript numbers *)

Module Js.

(** A number as the code sees it: [NaN], or a finite value. *)
Inductive num : Type :=
| NaN
| Fin (q : Q).

(** [Number(x) || 0] for a value that is already a number: [NaN] (falsy)
    becomes [0]; a finite value is kept ([0 || 0] is [0]). *)
Definition orZero (n : num) : Q :=
  match n with
  | NaN => 0
  | Fin q => q
  end.

Definition Qltb (x y : Q) : bool := negb (Qle_bool y x).
Definition Qmax (x y : Q) : Q := if Qle_bool x y then y else x.
Definition Qmin (x y : Q) : Q := if Qle_bool x y then x else y.

(** [Math.floor] as a rational. *)
Definition floorQ (x : Q) : Q := inject_Z (Qfloor x).

(** Truthiness of a string-or-null value: [null] and [''] are falsy. *)
Definition truthy (v : option string) : bool :=
  match v with
  | None => false
  | Some s => negb (String.eqb s EmptyString)
  end.

End Js.

Import Js.

(** ** Binary64 numbers *)

Module Double.

(** A binary64 number, in the specification of IEEE-754 arithmetic of the
    Standard Library ([SpecFloat]). *)
Abbreviation double := spec_float (only parsing).

(** Binary64: 53 bits of mantissa, infinities at exponent 1024. *)
Definition prec : Z := 53.
Definition emax : Z := 1024.

Definition zero : double := S754_zero false.

(** [x + y], rounded to nearest, ties to even. *)
Definition add (x y : double) : double := SFadd prec emax x y.

(** [x >= y]: false when either side is [NaN]. *)
Definition geb (x y : double) : bool := SFleb y x.

Definition isNaN (x : double) : bool :=
  match x with
  | S754_nan => true
  | _ => false
  end.

(** The double nearest to the rational [q]: [q] itself when [q] is the
    value of a double. *)
Definition ofQ (q : Q) : double :=
  match Qnum q with
  | Z0 => zero
  | Zpos n => SFdiv prec emax (S754_finite false n 0) (S754_finite false (Qden q) 0)
  | Zneg n => SFdiv prec emax (S754_finite true n 0) (S754_finite false (Qden q) 0)
  end.

(** The value of a finite double. *)
Definition value (x : double) : option Q :=
  match x with
  | S754_zero _ => Some 0%Q
  | S754_finite s m e =>
      Some (inject_Z (if s then Zneg m else Zpos m) * 2 ^ e)%Q
  | _ => None
  end.

(** [x] is the finite double of value [q], in the one form the operations
    produce. *)
Definition exact (x : double) (q : Q) : Prop :=
  valid_binary prec emax x = true
  /\ exists v, value x = Some v /\ (v == q)%Q.

End Double.

(** ** The random oracle *)

Module Rand.

(** The range of [Math.random()]: [0 <= q < 1]. *)
Definition in_unit (q : Q) : bool := Qle_bool 0 q && Qltb q 1.

(** One value of [Math.random()]. *)
Record draw : Type := mkDraw {
  draw_val : Q;
  draw_ok : in_unit draw_val = true
}.

(** A computation that calls [Math.random()]: it reads the oracle from a
    cursor on, and returns its value with the cursor after its last call, or
    [None] when a loop ran out of fuel. *)
Definition Gen (A : Type) : Type := (nat -> draw) -> nat -> option (A * nat).

#[export] Instance Gen_ret : MRet Gen :=
  fun A a _ i => Some (a, i).

#[export] Instance Gen_bind : MBind Gen :=
  fun A B f m rnd i =>
    match m rnd i with
    | Some (a, j) => f a rnd j
    | None => None
    end.

(** [Math.random()] *)
Definition random : Gen Q :=
  fun rnd i => Some (draw_val (rnd i), S i).

(** The loop bound is exhausted. *)
Definition outOfFuel {A : Type} : Gen A := fun _ _ => None.

(** [Math.floor(Math.random() * n)] *)
Definition randomIndex (n : Z) : Gen nat :=
  u ← random; mret (Z.to_nat (Qfloor (u * inject_Z n))).

(** [Array(n).fill(null).map(() => g)]: [n] runs of [g], in order. *)
Fixpoint fill {A : Type} (n : nat) (g : Gen A) : Gen (list A) :=
  match n with
  | O => mret []
  | S n' => x ← g; xs ← fill n' g; mret (x :: xs)
  end.

(** A [for ... of] loop that threads a state through calls of the oracle. *)
Fixpoint forEach {A S : Type} (body : S -> A -> Gen S) (l : list A) (s : S)
  : Gen S :=
  match l with
  | [] => mret s
  | x :: l' => s' ← body s x; forEach body l' s'
  end.

(** The value of a computation started at the first draw. *)
Definition run {A : Type} (g : Gen A) (rnd : nat -> draw) : option A :=
  fst <$> g rnd O.

End Rand.

Import Rand.

(** ** The ledger: [User], [Transaction] and [BalanceHistory] collections *)

Module Ledger.

(** The fields of a [User] document the game code reads or writes. *)
Record User : Type := mkUser {
  balance : Q;
  status : string;
  totalWinnings : Q;
  currency : option string
}.

Definition set_balance (b : Q) (u : User) : User :=
  mkUser b (status u) (totalWinnings u) (currency u).

Definition set_totalWinnings (t : Q) (u : User) : User :=
  mkUser (balance u) (status u) t (currency u).

(** The [metadata] of a transaction: the lobby's or the solo play's. *)
Inductive TxMeta : Type :=
| LobbyMeta (roundId : Z) (betAmount : Q) (side : string)
| SoloMeta (betAmount actualLoss winAmount netChange percentageChange
            balanceBefore balanceAfter : Q) (lossMultiplier : option Q).

(** A [Transaction] document. *)
Record Transaction : Type := mkTransaction {
  tx_user : string;
  tx_type : string;
  tx_amount : Q;
  tx_status : string;
  tx_description : string;
  tx_meta : TxMeta
}.

(** A [BalanceHistory] document ([referenceId] is the position of the
    transaction it refers to; the formatted [description] is left out). *)
Record BalanceHistory : Type := mkBalanceHistory {
  bh_user : string;
  bh_changeType : string;
  bh_previousBalance : Q;
  bh_newBalance : Q;
  bh_change : Q;
  bh_percentageChange : Q;
  bh_referenceType : string;
  bh_referenceId : nat;
  bh_outcome : string;
  bh_amount : Q
}.

(** The database: users by id, and the two append-only collections. *)
Record Db : Type := mkDb {
  users : gmap string User;
  transactions : list Transaction;
  history : list BalanceHistory
}.

End Ledger.

Import Ledger.
(** ** The lobby service: [sweetBonanzaService.js] *)

Module Lobby.

(** [ROUND_TIMES] *)
Definition ROUND_TIMES_BETTING : Z := 10.
Definition ROUND_TIMES_SPINNING : Z := 15.
Definition ROUND_TIMES_RESULT : Z := 10.

(** [session.phase]: the code only ever assigns these three literals. *)
Inductive Phase : Type := BETTING | SPINNING | RESULT.

Definition Phase_eqb (p q : Phase) : bool :=
  match p, q with
  | BETTING, BETTING | SPINNING, SPINNING | RESULT, RESULT => true
  | _, _ => false
  end.

(** An entry of [session.bets]: [{ userId, betAmount, side }].  [userId] and
    [side] are whatever the caller passed (strings here; [''] is the falsy
    id), [betAmount] is [Number(betAmount)]. *)
Record Bet : Type := mkBet {
  userId : string;
  betAmount : num;
  side : string
}.

(** The grid of a lobby round: [reels[c][r]], 6 columns of 5 cells. *)
Abbreviation Grid := (list (list string)) (only parsing).

(** The object [generateSlotOutcome] returns.  [topWinners], which
    [calculateResult] attaches for display, is not part of the model. *)
Record Outcome : Type := mkOutcome {
  reels : Grid;
  outcome : string;
  winAmount : Z
}.

(** [this.session].  [roundId] is ['SB-' + Date.now()], kept as the
    timestamp; [roundCycle] is absent ([undefined]) until the first
    [startNewRound]. *)
Record Session : Type := mkSession {
  roundId : Z;
  phase : Phase;
  timeLeft : Z;
  roundCount : Z;
  roundCycle : option Z;
  bets : list Bet;
  adminDecision : option string;
  result : option Outcome;
  lastRoundId : option Z
}.

Definition set_phase (p : Phase) (s : Session) : Session :=
  mkSession (roundId s) p (timeLeft s) (roundCount s) (roundCycle s)
            (bets s) (adminDecision s) (result s) (lastRoundId s).

Definition set_timeLeft (t : Z) (s : Session) : Session :=
  mkSession (roundId s) (phase s) t (roundCount s) (roundCycle s)
            (bets s) (adminDecision s) (result s) (lastRoundId s).

Definition set_bets (bs : list Bet) (s : Session) : Session :=
  mkSession (roundId s) (phase s) (timeLeft s) (roundCount s) (roundCycle s)
            bs (adminDecision s) (result s) (lastRoundId s).

Definition set_adminDecision (d : option string) (s : Session) : Session :=
  mkSession (roundId s) (phase s) (timeLeft s) (roundCount s) (roundCycle s)
            (bets s) d (result s) (lastRoundId s).

Definition set_result (r : option Outcome) (s : Session) : Session :=
  mkSession (roundId s) (phase s) (timeLeft s) (roundCount s) (roundCycle s)
            (bets s) (adminDecision s) r (lastRoundId s).

(** The session the constructor builds, at time [now]. *)
Definition initialSession (now : Z) : Session :=
  mkSession now BETTING ROUND_TIMES_BETTING 0 None [] None None None.

(** *** Bet placement and admin override *)

(** The object [addBet] returns. *)
Record BetReply : Type := mkBetReply {
  success : bool;
  message : option string
}.

(** [addBet(userId, betAmount, side)] *)
Definition addBet (uid : string) (amount : num) (sd : string) (s : Session)
  : BetReply * Session :=
  if negb (Phase_eqb (phase s) BETTING) then
    (mkBetReply false (Some "Betting is closed"), s)
  else if (timeLeft s <? 1)%Z then
    (mkBetReply false (Some "Betting time expired"), s)
  else
    (mkBetReply true None, set_bets (bets s ++ [mkBet uid amount sd]) s).

(** [setAdminDecision(decision)] *)
Definition setAdminDecision (decision : option string) (s : Session) : Session :=
  if negb (Phase_eqb (phase s) SPINNING) then s
  else set_adminDecision decision s.

(** *** Aggregated stakes *)

(** [bets.filter(b => b.side === sd)
         .reduce((sum, b) => sum + (Number(b.betAmount) || 0), 0)] on exact
    values, as the snapshot of [getState] reports it. *)
Definition sideTotal (sd : string) (bs : list Bet) : Q :=
  fold_left (fun sum b => (sum + orZero (betAmount b))%Q)
            (filter (fun b => String.eqb (side b) sd = true) bs) 0%Q.

Definition winBetsTotal (bs : list Bet) : Q := sideTotal "win" bs.
Definition lossBetsTotal (bs : list Bet) : Q := sideTotal "loss" bs.

(** *** The snapshot: [getState] *)

Record BetsTotals : Type := mkBetsTotals {
  totals_win : Q;
  totals_loss : Q
}.

Record Snapshot : Type := mkSnapshot {
  snap_phase : Phase;
  snap_timeLeft : Z;
  snap_roundId : Z;
  snap_roundCycle : Z;
  snap_adminDecision : option string;
  snap_result : option Outcome;
  betsCount : Z;
  viewersCount : Z;
  totalPlayers : Z;
  betsTotals : BetsTotals
}.

(** [b.userId ? b.userId.toString() : 'guest'] *)
Definition betterName (b : Bet) : string :=
  if String.eqb (userId b) EmptyString then "guest" else userId b.

(** [getState(userId)]: the snapshot and the updated [activePlayers] set.
    The caller id is [None] when it is absent. *)
Definition getState (caller : option string) (s : Session)
    (activePlayers : gset string) : Snapshot * gset string :=
  let activePlayers' :=
    if truthy caller && negb (bool_decide (caller = Some "anonymous"))
    then match caller with
         | Some u => {[u]} ∪ activePlayers
         | None => activePlayers
         end
    else activePlayers in
  let uniqueBetters : gset string := list_to_set (map betterName (bets s)) in
  (mkSnapshot
     (phase s)
     (Z.max 0 (timeLeft s))
     (roundId s)
     (match roundCycle s with
      | Some c => if (c =? 0)%Z then 1%Z else c
      | None => 1%Z
      end)
     (adminDecision s)
     (result s)
     (Z.of_nat (length (bets s)))
     (Z.max 0 (Z.of_nat (size activePlayers') - Z.of_nat (size uniqueBetters)))
     (Z.max (Z.of_nat (size activePlayers')) (Z.of_nat (length (bets s))))
     (mkBetsTotals (winBetsTotal (bets s)) (lossBetsTotal (bets s))),
   activePlayers').

(** *** The decision policy (first half of [calculateResult]) *)

(** [Number(b.betAmount) || 0] as the double it is: a stake [Fin q] is the
    double nearest to [q] ([q] itself when [q] is the value of a double),
    [NaN] and zero give [0]. *)
Definition stake64 (b : Bet) : Double.double :=
  match betAmount b with
  | NaN => Double.zero
  | Fin q => Double.ofQ q
  end.

(** The totals of [calculateResult] in the arithmetic of the code: the
    [reduce] adds the stakes of a side in the order of the bets, each sum
    rounded to a double. *)
Definition sideTotal64 (sd : string) (bs : list Bet) : Double.double :=
  fold_left (fun sum b => Double.add sum (stake64 b))
            (filter (fun b => String.eqb (side b) sd = true) bs) Double.zero.

Definition winBetsTotal64 (bs : list Bet) : Double.double := sideTotal64 "win" bs.
Definition lossBetsTotal64 (bs : list Bet) : Double.double := sideTotal64 "loss" bs.

(** [winBetsTotal >= lossBetsTotal ? 'win' : 'loss'] *)
Definition majoritySide (bs : list Bet) : string :=
  if Double.geb (winBetsTotal64 bs) (lossBetsTotal64 bs) then "win" else "loss".

(** [majoritySide === 'win' ? 'loss' : 'win'] *)
Definition minoritySide (bs : list Bet) : string :=
  if String.eqb (majoritySide bs) "win" then "loss" else "win".

(** The branch taken under [if (!decision)]: the five-round algorithm. *)
Definition algorithmDecision (bs : list Bet) (cycle : option Z) : string :=
  if bool_decide (cycle = Some 1%Z) then minoritySide bs
  else if bool_decide (cycle = Some 5%Z) then majoritySide bs
  else minoritySide bs.

(** The value of [decision] when [generateSlotOutcome] is called:
    [adminDecision] when it is truthy, the algorithm's choice otherwise. *)
Definition decideRound (bs : list Bet) (admin : option string)
    (cycle : option Z) : string :=
  match admin with
  | Some d => if truthy admin then d else algorithmDecision bs cycle
  | None => algorithmDecision bs cycle
  end.

(** *** The grid generator: [generateSlotOutcome] *)

Definition SYMBOLS : list string :=
  ["oval"; "grapes"; "watermelon"; "apple"; "plum"; "banana"; "heart"].

(** [SYMBOLS[i]]; the index comes from [randomIndex 7] and is in range. *)
Definition symbolAt (i : nat) : string := default "undefined" (SYMBOLS !! i).

(** [SYMBOLS[Math.floor(Math.random() * SYMBOLS.length)]] *)
Definition randomSymbol : Gen string :=
  i ← randomIndex (Z.of_nat (length SYMBOLS)); mret (symbolAt i).

(** The initial grid: 6 columns of 5 random symbols, drawn column by column. *)
Definition randomReels : Gen Grid := fill 6 (fill 5 randomSymbol).

(** [reels[c][r]] *)
Definition cell (g : Grid) (c r : nat) : option string :=
  col ← g !! c; col !! r.

(** [reels[c][r] = x] *)
Definition setCell (g : Grid) (c r : nat) (x : string) : Grid :=
  alter (fun col => <[r:=x]> col) c g.

(** The [while (count < 12)] loop of the win branch. *)
Fixpoint forceWin (fuel : nat) (winSym : string) (g : Grid) (count : nat)
  : Gen Grid :=
  if (count <? 12)%nat then
    match fuel with
    | O => outOfFuel
    | S fuel' =>
        c ← randomIndex 6;
        r ← randomIndex 5;
        if bool_decide (cell g c r ≠ Some winSym)
        then forceWin fuel' winSym (setCell g c r winSym) (S count)
        else forceWin fuel' winSym g count
    end
  else mret g.

(** The [do ... while (nextSym === sym)] loop of the loss branch. *)
Fixpoint pickOther (fuel : nat) (sym : string) : Gen string :=
  match fuel with
  | O => outOfFuel
  | S fuel' =>
      nextSym ← randomSymbol;
      if String.eqb nextSym sym then pickOther fuel' sym else mret nextSym
  end.

(** The cells in the order the two nested [for] loops visit them. *)
Definition positions : list (nat * nat) :=
  flat_map (fun c => map (fun r => (c, r)) (seq 0 5)) (seq 0 6).

(** The body of the inner [for] loop, for the symbol [sym]. *)
Definition capStep (fuel : nat) (sym : string) (st : Grid * nat)
    (p : nat * nat) : Gen (Grid * nat) :=
  let '(g, count) := st in
  let '(c, r) := p in
  if bool_decide (cell g c r = Some sym) then
    if (8 <=? S count)%nat then
      nextSym ← pickOther fuel sym;
      mret (setCell g c r nextSym, S count)
    else mret (g, S count)
  else mret (g, count).

(** One round of the outer [for (const sym of SYMBOLS_SAFE)] loop. *)
Definition capSymbol (fuel : nat) (g : Grid) (sym : string) : Gen Grid :=
  st ← forEach (capStep fuel sym) positions (g, O); mret (fst st).

(** The loss branch. *)
Definition capAll (fuel : nat) (g : Grid) : Gen Grid :=
  forEach (capSymbol fuel) SYMBOLS g.

(** [generateSlotOutcome(decision)] *)
Definition generateSlotOutcome (fuel : nat) (decision : string) : Gen Outcome :=
  g ← randomReels;
  g' ← (if String.eqb decision "win"
        then winSym ← randomSymbol; forceWin fuel winSym g O
        else capAll fuel g);
  mret (mkOutcome g' decision (if String.eqb decision "win" then 1 else 0)%Z).

(** *** Settlement: [processPayouts] *)

(** The body of the loop over [session.bets]. *)
Definition settleBet (rid : Z) (slotOutcome : string) (db : Db) (bet : Bet) : Db :=
  if String.eqb (userId bet) "anonymous" then db
  else
    match users db !! userId bet with
    | None => db
    | Some user =>
        let userWon := String.eqb (side bet) slotOutcome in
        let amount := orZero (betAmount bet) in
        if userWon then
          let payout := (amount * 2)%Q in
          mkDb (<[userId bet := set_balance (balance user + payout)%Q user]> (users db))
               (transactions db ++
                  [mkTransaction (userId bet) "game_win" payout "completed"
                     ("Sweet Bonanza Lobby Win (" ++ side bet ++ ")")%string
                     (LobbyMeta rid amount (side bet))])
               (history db)
        else
          mkDb (users db)
               (transactions db ++
                  [mkTransaction (userId bet) "game_loss" amount "completed"
                     ("Sweet Bonanza Lobby Loss (" ++ side bet ++ ")")%string
                     (LobbyMeta rid amount (side bet))])
               (history db)
    end.

(** [processPayouts(slotOutcome, gameResult)] *)
Definition processPayouts (s : Session) (slotOutcome : string) (db : Db) : Db :=
  fold_left (settleBet (roundId s) slotOutcome) (bets s) db.

(** *** The round loop *)

(** [calculateResult()]: decide, generate the grid, publish it, settle. *)
Definition calculateResult (fuel : nat) (rnd : nat -> draw) (s : Session) (db : Db)
  : option (Session * Db) :=
  let decision := decideRound (bets s) (adminDecision s) (roundCycle s) in
  gameResult ← run (generateSlotOutcome fuel decision) rnd;
  let s' := set_result (Some gameResult) s in
  Some (s', processPayouts s' decision db).

(** [startNewRound()], at time [now]. *)
Definition startNewRound (now : Z) (s : Session) : Session :=
  let roundCount' := (roundCount s + 1)%Z in
  mkSession now BETTING ROUND_TIMES_BETTING roundCount'
            (Some (Z.rem (roundCount' - 1) 5 + 1)%Z)
            [] None None (lastRoundId s).

(** What a tick reads from outside the session: the clock ([Date.now()] and
    [new Date().getSeconds()]), the oracle, and the loop bound. *)
Record TickEnv : Type := mkTickEnv {
  env_now : Z;
  env_seconds : Z;
  env_rnd : nat -> draw;
  env_fuel : nat
}.

(** [nextPhase()] *)
Definition nextPhase (env : TickEnv) (s : Session) (db : Db)
  : option (Session * Db) :=
  match phase s with
  | BETTING => Some (set_timeLeft ROUND_TIMES_SPINNING (set_phase SPINNING s), db)
  | SPINNING =>
      '(s', db') ← calculateResult (env_fuel env) (env_rnd env) s db;
      Some (set_timeLeft ROUND_TIMES_RESULT (set_phase RESULT s'), db')
  | RESULT => Some (startNewRound (env_now env) s, db)
  end.

(** The service object: the session and the set of active players. *)
Record Service : Type := mkService {
  session : Session;
  activePlayers : gset string
}.

(** The [try] block of [tick], when it completes. *)
Definition tickTry (env : TickEnv) (sv : Service) (db : Db)
  : option (Service * Db) :=
  let s1 := set_timeLeft (timeLeft (session sv) - 1)%Z (session sv) in
  '(s2, db') ← (if (timeLeft s1 <=? 0)%Z then nextPhase env s1 db
                else Some (s1, db));
  Some (mkService s2 (if (env_seconds env =? 0)%Z then ∅ else activePlayers sv),
        db').

(** The [catch] block of [tick], run on the session as the exception left
    it. *)
Definition tickCatch (s : Session) : Session :=
  set_timeLeft 10 (set_phase BETTING s).

(** [n] ticks that complete, with the environment of each. *)
Fixpoint ticks (envs : list TickEnv) (sv : Service) (db : Db)
  : option (Service * Db) :=
  match envs with
  | [] => Some (sv, db)
  | env :: envs' => '(sv', db') ← tickTry env sv db; ticks envs' sv' db'
  end.

(** *** Requests served while [calculateResult] awaits *)

(** A call of the service that writes the session.  Request handlers run
    between the ticks and, when a tick awaits the database, between its
    steps. *)
Inductive Request : Type :=
| AddBet (uid : string) (amount : num) (sd : string)
| SetAdminDecision (decision : option string).

Definition serve (r : Request) (s : Session) : Session :=
  match r with
  | AddBet uid amount sd => snd (addBet uid amount sd s)
  | SetAdminDecision decision => setAdminDecision decision s
  end.

Definition serveAll (rs : list Request) (s : Session) : Session :=
  fold_left (fun s r => serve r s) rs s.

(** The local variables of [calculateResult] when it first awaits:
    [decision] and [gameResult]. *)
Record Pending : Type := mkPending {
  pend_decision : string;
  pend_gameResult : Outcome
}.

(** [calculateResult] up to its first [await]: the session is read, the
    decision taken and the grid generated. *)
Definition calculateResultStart (fuel : nat) (rnd : nat -> draw) (s : Session)
  : option Pending :=
  let decision := decideRound (bets s) (adminDecision s) (roundCycle s) in
  gameResult ← run (generateSlotOutcome fuel decision) rnd;
  Some (mkPending decision gameResult).

(** [calculateResult] with the requests served while it awaits: [during1]
    while it awaits [generateWinnersList], [during2] while it awaits
    [processPayouts].  The call runs in SPINNING only, where a request
    cannot change what the settlement reads ([bets] and [roundId]), so the
    requests of [during2] are placed in front of the settlement. *)
Definition calculateResultAwaiting (fuel : nat) (rnd : nat -> draw)
    (during1 during2 : list Request) (s : Session) (db : Db)
  : option (Session * Db) :=
  p ← calculateResultStart fuel rnd s;
  let s1 := serveAll during1 s in
  let s2 := set_result (Some (pend_gameResult p)) s1 in
  let s3 := serveAll during2 s2 in
  Some (s3, processPayouts s3 (pend_decision p) db).

(** [nextPhase()] with the requests served while [calculateResult]
    awaits. *)
Definition nextPhaseAwaiting (env : TickEnv) (during1 during2 : list Request)
    (s : Session) (db : Db) : option (Session * Db) :=
  match phase s with
  | BETTING => Some (set_timeLeft ROUND_TIMES_SPINNING (set_phase SPINNING s), db)
  | SPINNING =>
      '(s', db') ← calculateResultAwaiting (env_fuel env) (env_rnd env)
                     during1 during2 s db;
      Some (set_timeLeft ROUND_TIMES_RESULT (set_phase RESULT s'), db')
  | RESULT => Some (startNewRound (env_now env) s, db)
  end.

End Lobby.

(** ** Solo play: [sweetBonanza.controller.js] *)

Module Solo.

(** The nine reel symbols (emoji in the source), in the key order of
    [SYMBOL_WEIGHTS]: grapes, orange, lemon, watermelon, banana, apple,
    strawberry, star, diamond. *)
Inductive Symbol : Type :=
| Grapes | Orange | Lemon | Watermelon | Banana
| Apple | Strawberry | Star | Diamond.

#[export] Instance Symbol_eq_dec : EqDecision Symbol.
Proof. solve_decision. Defined.

(** [Object.entries(SYMBOL_WEIGHTS)] *)
Definition SYMBOL_WEIGHTS : list (Symbol * Q) :=
  [ (Grapes, 40); (Orange, 30); (Lemon, 20); (Watermelon, 15); (Banana, 10);
    (Apple, 5); (Strawberry, 3); (Star, 3 # 2); (Diamond, 1 # 2) ]%Q.

(** [SYMBOL_MULTIPLIERS[symbol] || 1]; every symbol has a non-zero entry. *)
Definition SYMBOL_MULTIPLIERS (s : Symbol) : Q :=
  match s with
  | Diamond => 20
  | Star => 10
  | Strawberry => 5
  | Apple => 3
  | Banana => 2
  | Watermelon => 3 # 2
  | Lemon => 6 # 5
  | Orange => 11 # 10
  | Grapes => 1
  end%Q.

(** [Object.values(SYMBOL_WEIGHTS).reduce((sum, weight) => sum + weight, 0)] *)
Definition totalWeight : Q :=
  fold_left (fun sum e => (sum + snd e)%Q) SYMBOL_WEIGHTS 0%Q.

(** The [for] loop of [getWeightedSymbol], with its fallback. *)
Fixpoint pickWeighted (entries : list (Symbol * Q)) (random : Q) : Symbol :=
  match entries with
  | [] => Grapes
  | (symbol, weight) :: rest =>
      let random' := (random - weight)%Q in
      if Qle_bool random' 0 then symbol else pickWeighted rest random'
  end.

(** [getWeightedSymbol()] *)
Definition getWeightedSymbol : Gen Symbol :=
  u ← random; mret (pickWeighted SYMBOL_WEIGHTS (u * totalWeight)%Q).

(** A grid position [{ reel, position }]. *)
Definition Position : Type := (nat * nat)%type.

(** The solo grid: 6 reels of 3 symbols. *)
Definition Reels : Type := list (list Symbol).

(** A value of the [symbolCounts] object; its key is
    [`${position}-${symbol}`]. *)
Record CountEntry : Type := mkCountEntry {
  ce_symbol : Symbol;
  ce_position : nat;
  ce_count : nat;
  ce_positions : list Position
}.

(** One pass of the inner [forEach]: create the entry of the key if it is
    missing (at the end: objects keep insertion order), then count the cell
    and record where it is. *)
Fixpoint countCell (symbol : Symbol) (symbolIndex reelIndex : nat)
    (symbolCounts : list CountEntry) : list CountEntry :=
  match symbolCounts with
  | [] => [mkCountEntry symbol symbolIndex 1 [(reelIndex, symbolIndex)]]
  | e :: rest =>
      if bool_decide (ce_symbol e = symbol) && (ce_position e =? symbolIndex)%nat
      then mkCountEntry (ce_symbol e) (ce_position e) (S (ce_count e))
             (ce_positions e ++ [(reelIndex, symbolIndex)]) :: rest
      else e :: countCell symbol symbolIndex reelIndex rest
  end.

(** The cells in the order [reels.forEach(reel => reel.forEach(...))] visits
    them, each with its reel and its position in the reel. *)
Definition cellsOf (reels : Reels) : list (nat * nat * Symbol) :=
  concat (imap (fun reelIndex reel =>
                  imap (fun symbolIndex symbol => (reelIndex, symbolIndex, symbol))
                       reel) reels).

(** [Object.values(symbolCounts)] *)
Definition countSymbols (reels : Reels) : list CountEntry :=
  fold_left (fun acc c =>
               match c with
               | (reelIndex, symbolIndex, symbol) =>
                   countCell symbol symbolIndex reelIndex acc
               end) (cellsOf reels) [].

(** The running [totalWin] and [winningPositions]. *)
Definition WinState : Type := (Q * list Position)%type.

(** The body of [Object.values(symbolCounts).forEach]. *)
Definition lineStep (betAmount : Q) (st : WinState) (e : CountEntry)
  : Gen WinState :=
  let '(totalWin, winningPositions) := st in
  let baseMultiplier := SYMBOL_MULTIPLIERS (ce_symbol e) in
  if (5 <=? ce_count e)%nat then
    let multiplier :=
      (baseMultiplier * (inject_Z (Z.of_nat (ce_count e)) - 4) * (7 # 10))%Q in
    mret ((totalWin + betAmount * multiplier)%Q,
          (winningPositions ++ ce_positions e))
  else if (4 <=? ce_count e)%nat then
    let multiplier := (baseMultiplier * (6 # 10))%Q in
    mret ((totalWin + betAmount * multiplier)%Q,
          (winningPositions ++ ce_positions e))
  else if (ce_count e =? 3)%nat then
    u ← random;
    if Qltb u (3 # 10) then
      let multiplier := (baseMultiplier * (4 # 10))%Q in
      mret ((totalWin + betAmount * multiplier)%Q,
            (winningPositions ++ ce_positions e))
    else mret st
  else mret st.

(** [s === star || s === diamond] *)
Definition isScatter (s : Symbol) : bool :=
  match s with
  | Star | Diamond => true
  | _ => false
  end.

(** [reels.flat().filter(isScatter).length] *)
Definition scatterCount (reels : Reels) : nat :=
  length (filter (fun s => isScatter s = true) (concat reels)).

(** The positions the scatter branches push. *)
Definition scatterPositions (reels : Reels) : list Position :=
  map (fun c => match c with (reelIndex, symbolIndex, _) => (reelIndex, symbolIndex) end)
      (filter (fun c => isScatter (snd c) = true) (cellsOf reels)).

(** The scatter [if / else if] chain. *)
Definition scatterStep (betAmount : Q) (reels : Reels) (st : WinState)
  : Gen WinState :=
  let '(totalWin, winningPositions) := st in
  let n := scatterCount reels in
  if (5 <=? n)%nat then
    let scatterMultiplier :=
      (if (n =? 5)%nat then 3 # 2 else if (6 <=? n)%nat then 5 # 2 else 0)%Q in
    mret ((totalWin + betAmount * scatterMultiplier)%Q,
          (winningPositions ++ scatterPositions reels))
  else if (4 <=? n)%nat then
    mret ((totalWin + betAmount * 1)%Q,
          (winningPositions ++ scatterPositions reels))
  else if (n =? 3)%nat then
    u ← random;
    if Qltb u (2 # 10) then
      mret ((totalWin + betAmount * (6 # 10))%Q,
            (winningPositions ++ scatterPositions reels))
    else mret st
  else mret st.

(** The object [generateReelResult] returns. *)
Record ReelResult : Type := mkReelResult {
  reels : Reels;
  winAmount : Q;
  winningPositions : list Position
}.

(** [generateReelResult] from the point where the grid is drawn. *)
Definition evaluateReels (betAmount : Q) (rs : Reels) : Gen ReelResult :=
  st ← forEach (lineStep betAmount) (countSymbols rs) (0%Q, []);
  st' ← scatterStep betAmount rs st;
  mret (mkReelResult rs (floorQ (fst st' * 100) / 100)%Q (snd st')).

(** [generateReelResult(betAmount)] *)
Definition generateReelResult (betAmount : Q) : Gen ReelResult :=
  rs ← fill 6 (fill 3 getWeightedSymbol);
  evaluateReels betAmount rs.

(** *** [playGame] *)

(** [req.body.betAmount]: missing (or another falsy non-number), a value
    [parseFloat] cannot read, or a number. *)
Inductive BodyValue : Type :=
| Absent
| Unparsable
| Numeric (q : Q).

(** [new AppError(message, statusCode)] *)
Record AppError : Type := mkAppError {
  err_message : string;
  err_status : Z
}.

Definition MAX_BET : Q := 1000000.

(** The checks on [betAmount] that precede the database session (the
    currency sign of the last two messages is left out). *)
Definition validateBet (betAmount : BodyValue) : AppError + Q :=
  match betAmount with
  | Absent => inl (mkAppError "Bet amount is required" 400)
  | Unparsable => inl (mkAppError "Invalid bet amount format" 400)
  | Numeric bet =>
      if Qeq_bool bet 0 then inl (mkAppError "Bet amount is required" 400)
      else if Qle_bool bet 0 then
        inl (mkAppError "Bet amount must be greater than 0" 400)
      else if Qltb bet 1 then inl (mkAppError "Minimum bet amount is 1" 400)
      else if Qltb MAX_BET bet then
        inl (mkAppError "Maximum bet amount is 1,000,000" 400)
      else inr bet
  end.

(** The four bands of the loss multiplier: the first draw selects the band,
    the second the point in it. *)
Definition drawLossMultiplier : Gen Q :=
  random ← random;
  if Qltb random (25 # 100) then
    u ← Rand.random; mret (1 + u * (15 # 100))%Q
  else if Qltb random (6 # 10) then
    u ← Rand.random; mret ((115 # 100) + u * (20 # 100))%Q
  else if Qltb random (85 # 100) then
    u ← Rand.random; mret ((135 # 100) + u * (25 # 100))%Q
  else
    u ← Rand.random; mret ((16 # 10) + u * (20 # 100))%Q.

(** The value of [actualLoss] when the balance is debited. *)
Definition computeLoss (bet userBalance actualWin : Q) : Gen Q :=
  actualLoss ←
    (if Qeq_bool actualWin 0 then
       lossMultiplier ← drawLossMultiplier;
       let actualLoss := (bet * lossMultiplier)%Q in
       let actualLoss :=
         if Qltb userBalance actualLoss then userBalance else actualLoss in
       mret (Qmax 0 actualLoss)
     else mret bet);
  mret (Qmax 0 (Qmin actualLoss userBalance)).

(** The [data] of a successful response. *)
Record Response : Type := mkResponse {
  res_reels : Reels;
  res_betAmount : Q;
  res_actualLoss : Q;
  res_winAmount : Q;
  res_netChange : Q;
  res_newBalance : Q;
  res_percentageChange : Q;
  res_lossMultiplier : option Q;
  res_winningPositions : list Position;
  res_userBalance : Q;
  res_initialBalance : Q
}.

(** How a request ends: an [AppError] (the database transaction is aborted
    and nothing is written), or the response with the committed database. *)
Inductive PlayResult : Type :=
| Rejected (e : AppError)
| Played (r : Response) (db : Db).

(** [playGame]: the request of user [userId] with body [betAmount]. *)
Definition playGame (betAmount : BodyValue) (userId : string) (db : Db)
  : Gen PlayResult :=
  match validateBet betAmount with
  | inl e => mret (Rejected e)
  | inr bet =>
      match users db !! userId with
      | None => mret (Rejected (mkAppError "User not found" 404))
      | Some user =>
          if negb (String.eqb (status user) "active")
             && negb (String.eqb (status user) "pending")
          then mret (Rejected (mkAppError
                             ("Account is " ++ status user ++
                              ". Please contact support if you believe this is an error.")%string
                             403))
          else
            let userBalance := balance user in
            if Qltb userBalance bet
            then mret (Rejected (mkAppError "Insufficient balance" 400))
            else
              let initialBalance := balance user in
              gameResult ← generateReelResult bet;
              let actualWin := Qmax 0 (winAmount gameResult) in
              actualLoss ← computeLoss bet userBalance actualWin;
              let newBalanceAfterLoss := (userBalance - actualLoss)%Q in
              let user1 := set_balance (Qmax 0 newBalanceAfterLoss) user in
              let netChange := (actualWin - actualLoss)%Q in
              let newBalance := (balance user1 + actualWin)%Q in
              let percentageChange :=
                if Qltb 0 initialBalance
                then (netChange / initialBalance * 100)%Q else 0%Q in
              let user2 :=
                if Qltb 0 actualWin
                then set_totalWinnings (totalWinnings user1 + actualWin)%Q
                       (set_balance newBalance user1)
                else user1 in
              let finalBalance := balance user2 in
              if Qltb finalBalance 0
              then mret (Rejected (mkAppError "Invalid balance calculation" 500))
              else
                let won := Qltb 0 actualWin in
                let lossMultiplier :=
                  if Qeq_bool actualWin 0 then Some (actualLoss / bet)%Q
                  else None in
                let transaction :=
                  mkTransaction userId
                    (if won then "game_win" else "game_loss")
                    (Qabs netChange) "completed"
                    (if won then "Sweet Bonanza - Win" else "Sweet Bonanza - Loss")
                    (SoloMeta bet actualLoss actualWin netChange percentageChange
                       initialBalance finalBalance lossMultiplier) in
                let balanceHistory :=
                  mkBalanceHistory userId
                    (if won then "win" else "loss")
                    initialBalance finalBalance netChange percentageChange
                    "game" (length (transactions db))
                    (if won then "win" else "loss") (Qabs netChange) in
                mret (Played
                        (mkResponse (reels gameResult) bet actualLoss actualWin
                           netChange finalBalance percentageChange lossMultiplier
                           (winningPositions gameResult) finalBalance
                           initialBalance)
                        (mkDb (<[userId := user2]> (users db))
                              (transactions db ++ [transaction])
                              (history db ++ [balanceHistory])))
      end
  end.

End Solo.

Import Lobby.

(** ** The leaderboard of a lobby round: [generateWinnersList] *)

Module Winners.

(** An entry of the list: [{ id, amount, isReal }]. *)
Record Winner : Type := mkWinner {
  w_id : string;
  w_amount : num;
  w_isReal : bool
}.

(** [x * 2] on a number that may be [NaN]. *)
Definition double (n : num) : num :=
  match n with
  | NaN => NaN
  | Fin q => Fin (q * 2)
  end.

(** [s.slice(-4)]: the last four characters, or all of a shorter string. *)
Definition lastFour (s : string) : string :=
  String.substring (String.length s - 4) 4 s.

(** The masked id of a user: [`P-***${user._id.toString().slice(-4)}`]. *)
Definition maskedId (uid : string) : string := ("P-***" ++ lastFour uid)%string.

(** The first loop: one entry for each bet on the decided side whose user
    the database finds, in the order of the bets. *)
Definition realWinners (bs : list Bet) (slotOutcome : string) (db : Db)
  : list Winner :=
  flat_map
    (fun bet =>
       if String.eqb (side bet) slotOutcome then
         match users db !! userId bet with
         | Some _ => [mkWinner (maskedId (userId bet)) (double (betAmount bet)) true]
         | None => []
         end
       else [])
    bs.

(** The body of the [while] loop: a made-up id from 1000 to 9999 and a
    made-up amount from 100 to 4999, drawn in this order. *)
Definition fakeWinner : Gen Winner :=
  u ← random;
  let randomId := ("P-***" ++ pretty (Qfloor (1000 + u * 9000)))%string in
  v ← random;
  let randomAmount := (Qfloor (v * 4900) + 100)%Z in
  mret (mkWinner randomId (Fin (inject_Z randomAmount)) false).

(** The [while (winners.length < targetCount)] loop: it pushes one entry a
    pass, so it runs [targetCount - winners.length] times. *)
Definition padWinners (winners : list Winner) : Gen (list Winner) :=
  let targetCount := Nat.max 10 (length winners + 3) in
  fakes ← fill (targetCount - length winners) fakeWinner;
  mret (winners ++ fakes).

(** [b.amount - a.amount] *)
Definition minus (x y : num) : num :=
  match x, y with
  | Fin p, Fin q => Fin (p - q)
  | _, _ => NaN
  end.

(** The comparator passed to [sort]. *)
Definition compareWinners (a b : Winner) : num :=
  if negb (Bool.eqb (w_isReal a) (w_isReal b))
  then (if w_isReal a then Fin (-1) else Fin 1)
  else minus (w_amount b) (w_amount a).

(** [sort] moves [a] behind [b] when the comparator is positive; a zero or
    [NaN] result leaves the two in their order. *)
Definition comesAfter (a b : Winner) : bool :=
  match compareWinners a b with
  | Fin q => Qltb 0 q
  | NaN => false
  end.

(** [Array.prototype.sort] with this comparator: the sort is stable, so on
    a consistent comparator its result is the one of a stable insertion
    sort.  (When an amount is [NaN] the comparator is not consistent and
    the source's order is implementation-defined; the model still sorts by
    insertion.) *)
Fixpoint insertWinner (x : Winner) (l : list Winner) : list Winner :=
  match l with
  | [] => [x]
  | y :: l' => if comesAfter x y then y :: insertWinner x l' else x :: y :: l'
  end.

Definition sortWinners (l : list Winner) : list Winner :=
  foldr insertWinner [] l.

(** [generateWinnersList(slotOutcome, gameResult)] on the bets of the
    session. *)
Definition generateWinnersList (bs : list Bet) (slotOutcome : string) (db : Db)
  : Gen (list Winner) :=
  winners ← padWinners (realWinners bs slotOutcome db);
  mret (take 10 (sortWinners winners)).

End Winners.

(** ** The decision policy in the specification's words *)

Module SpecWords.

(** The majority side: the side with the greater summed stake; a tie makes
    it [win]. *)
Definition majority (winTotal lossTotal : Q) : string :=
  if Qltb lossTotal winTotal then "win"
  else if Qltb winTotal lossTotal then "loss"
  else "win".

(** The minority side is the other side. *)
Definition other (sd : string) : string :=
  if String.eqb sd "win" then "loss" else "win".

(** Cycle position 1 and positions 2 to 4: the minority side; position 5:
    the majority side. *)
Definition decision (winTotal lossTotal : Q) (position : Z) : string :=
  if (position =? 1)%Z then other (majority winTotal lossTotal)
  else if (2 <=? position)%Z && (position <=? 4)%Z
       then other (majority winTotal lossTotal)
  else majority winTotal lossTotal.

(** The summed stake of a side: the sum of the stakes of the bets on that
    side. *)
Fixpoint summedStake (sd : string) (bs : list Bet) : Q :=
  match bs with
  | [] => 0
  | b :: bs' =>
      ((if String.eqb (side b) sd then orZero (betAmount b) else 0)
       + summedStake sd bs')%Q
  end.

(** The stake of a side as the amended claim words it: bet after bet, in
    order, each sum rounded to a double; [total] is the sum so far. *)
Fixpoint accumulated (sd : string) (total : Double.double) (bs : list Bet)
  : Double.double :=
  match bs with
  | [] => total
  | b :: bs' =>
      accumulated sd
        (if String.eqb (side b) sd
         then SFadd Double.prec Double.emax total
                (match betAmount b with
                 | NaN => S754_zero false
                 | Fin q => Double.ofQ q
                 end)
         else total) bs'
  end.

(** The majority side by accumulated totals: the side with the greater
    total; a tie makes it [win]; a total that is no number makes it
    [loss]. *)
Definition majorityOfTotals (winTotal lossTotal : Double.double) : string :=
  if Double.isNaN winTotal || Double.isNaN lossTotal then "loss"
  else if SFltb lossTotal winTotal then "win"
  else if SFltb winTotal lossTotal then "loss"
  else "win".

(** The policy of [decision] on accumulated totals. *)
Definition decisionOfTotals (winTotal lossTotal : Double.double)
    (position : Z) : string :=
  if (position =? 1)%Z then other (majorityOfTotals winTotal lossTotal)
  else if (2 <=? position)%Z && (position <=? 4)%Z
       then other (majorityOfTotals winTotal lossTotal)
  else majorityOfTotals winTotal lossTotal.

End SpecWords.

(** ** Concrete oracles, sessions and databases used in the examples *)

Module Fixtures.

(** The draw of value [q]; [0] when [q] is outside the unit interval. *)
Definition toDraw (q : Q) : draw :=
  match in_unit q as b return in_unit q = b -> draw with
  | true => fun H => mkDraw q H
  | false => fun _ => mkDraw 0 eq_refl
  end eq_refl.

(** [Math.random()] returns [0] every time. *)
Definition zeros : nat -> draw := fun _ => toDraw 0.

(** The draws [0/7, 1/7, ..., 6/7] in turn: as symbol indices they cycle
    through [SYMBOLS]. *)
Definition cycling : nat -> draw :=
  fun n => toDraw (inject_Z (Z.of_nat (n mod 7)) / 7).

(** Thirty draws of [1/5] (symbol index 1), then [0] for ever. *)
Definition grapesThenZeros : nat -> draw :=
  fun n => if (n <? 30)%nat then toDraw (1 # 5) else toDraw 0.

(** The doubles [0.1], [0.2] and [0.3], by their exact values. *)
Definition tenth : Q := 3602879701896397 # 36028797018963968.
Definition fifth : Q := 3602879701896397 # 18014398509481984.
Definition threeTenths : Q := 5404319552844595 # 18014398509481984.

(** Six bets: 0.3, 0.2 and 0.1 on [win], then 0.1, 0.2 and 0.3 on [loss]. *)
Definition sameStakes : list Bet :=
  [ mkBet "A" (Fin threeTenths) "win"; mkBet "B" (Fin fifth) "win";
    mkBet "C" (Fin tenth) "win";
    mkBet "D" (Fin tenth) "loss"; mkBet "E" (Fin fifth) "loss";
    mkBet "F" (Fin threeTenths) "loss" ].

(** Ten bets of 0.1 on [win] and one bet of 1 on [loss]. *)
Definition tenTenths : list Bet :=
  repeat (mkBet "A" (Fin tenth) "win") 10 ++ [mkBet "B" (Fin 1) "loss"].

(** A user with a balance of 100. *)
Definition alice : User := mkUser 100 "active" 0 (Some "TRY").

Definition db0 : Db := mkDb {[ "alice" := alice ]} [] [].

(** A session in SPINNING with one bet of 10 on [win]. *)
Definition spinning1 : Session :=
  mkSession 1700000000000 SPINNING 7 0 None
            [mkBet "alice" (Fin 10) "win"] None None None.

(** A session in BETTING with five seconds left and no bet. *)
Definition betting0 : Session :=
  mkSession 1700000000000 BETTING 5 0 None [] None None None.

(** The environment of a tick: second [sec] of the minute, oracle [rnd]. *)
Definition envAt (sec : Z) (rnd : nat -> draw) : TickEnv :=
  mkTickEnv (1700000000000 + 1000 * sec) sec rnd 8.

(** A solo grid with exactly four scatter symbols (two stars, two
    diamonds), one per reel. *)
Definition fourScatters : Solo.Reels :=
  [ [Solo.Star; Solo.Grapes; Solo.Orange];
    [Solo.Star; Solo.Orange; Solo.Lemon];
    [Solo.Diamond; Solo.Lemon; Solo.Grapes];
    [Solo.Diamond; Solo.Grapes; Solo.Orange];
    [Solo.Grapes; Solo.Orange; Solo.Lemon];
    [Solo.Orange; Solo.Lemon; Solo.Grapes] ].

(** The same grid with the second diamond replaced: three scatters. *)
Definition threeScatters : Solo.Reels :=
  [ [Solo.Star; Solo.Grapes; Solo.Orange];
    [Solo.Star; Solo.Orange; Solo.Lemon];
    [Solo.Diamond; Solo.Lemon; Solo.Grapes];
    [Solo.Banana; Solo.Grapes; Solo.Orange];
    [Solo.Grapes; Solo.Orange; Solo.Lemon];
    [Solo.Orange; Solo.Lemon; Solo.Grapes] ].

(** Eighteen draws that build a solo grid with no paying combination (no
    symbol three times at one position, no scatter), then draws of [1/2]. *)
Definition noCombo : nat -> draw :=
  fun n =>
    if (n <? 18)%nat
    then toDraw (nth (n mod 5) [1 # 10; 4 # 10; 6 # 10; 8 # 10; 9 # 10]%Q 0%Q)
    else toDraw (1 # 2).

(** The lobby grid whose 30 cells hold [sym]. *)
Definition uniformGrid (sym : string) : Grid := repeat (repeat sym 5) 6.

(** The cycling draws for the grid and the winning symbol (31 draws), then
    column and row draws that sweep the grid cell by cell. *)
Definition sweeping : nat -> draw :=
  fun n =>
    if (n <? 31)%nat then cycling n
    else
      let k := ((n - 31) / 2)%nat in
      if Nat.even (n - 31)
      then toDraw (inject_Z (Z.of_nat (2 * (k mod 6) + 1)) / 12)
      else toDraw (inject_Z (Z.of_nat (2 * ((k / 6) mod 5) + 1)) / 10).

(** Eighteen draws that put [grapes] three times at position 0 and nothing
    else that pays, then draws of [1/10]. *)
Definition threeGrapes : nat -> draw :=
  fun n =>
    toDraw (nth n [1 # 10; 4 # 10; 6 # 10;
                   1 # 10; 6 # 10; 8 # 10;
                   1 # 10; 8 # 10; 9 # 10;
                   4 # 10; 9 # 10; 1 # 10;
                   6 # 10; 1 # 10; 4 # 10;
                   8 # 10; 4 # 10; 6 # 10]%Q (1 # 10)%Q).

End Fixtures.

(** ** Quantities the settlement properties are stated with *)

Module Accounting.

(** What the bets of [uid] on the winning side are paid in all: twice the
    stake of each. *)
Fixpoint credited (uid slotOutcome : string) (bs : list Bet) : Q :=
  match bs with
  | [] => 0
  | b :: bs' =>
      ((if String.eqb (userId b) uid && String.eqb (side b) slotOutcome
        then orZero (betAmount b) * 2 else 0)
       + credited uid slotOutcome bs')%Q
  end.

(** The bets [processPayouts] settles: not anonymous, and of a user the
    database knows. *)
Definition settles (db : Db) (b : Bet) : bool :=
  negb (String.eqb (userId b) "anonymous")
  && bool_decide (is_Some (users db !! userId b)).

(** A computation over the oracle that returns for every oracle. *)
Definition total {A : Type} (g : Gen A) : Prop :=
  forall rnd i, exists a j, g rnd i = Some (a, j).

(** The number of cells of a lobby grid that hold [sym]. *)
Definition occurrences (sym : string) (g : Grid) : nat :=
  length (filter (fun x => x = sym) (concat g)).

(** The shape of a lobby grid: 6 columns of 5 cells. *)
Definition wellShaped (g : Grid) : Prop :=
  length g = 6%nat /\ Forall (fun col => length col = 5%nat) g.

End Accounting.

(** ** Quantities the round-loop properties are stated with *)

Module RoundFacts.

(** The seconds a phase lasts. *)
Definition phaseLimit (p : Phase) : Z :=
  match p with
  | BETTING => ROUND_TIMES_BETTING
  | SPINNING => ROUND_TIMES_SPINNING
  | RESULT => ROUND_TIMES_RESULT
  end.

(** Between two ticks the timer shows a second of the current phase. *)
Definition timerOk (s : Session) : Prop :=
  (1 <= timeLeft s <= phaseLimit (phase s))%Z.

(** Rounds opened one after the other, at the given times. *)
Definition rounds (nows : list Z) (s : Session) : Session :=
  fold_left (fun s' now => startNewRound now s') nows s.

(** What the [game_win] transactions of [uid] in a list add up to. *)
Fixpoint wonInLedger (uid : string) (txs : list Transaction) : Q :=
  match txs with
  | [] => 0
  | t :: txs' =>
      ((if String.eqb (tx_user t) uid && String.eqb (tx_type t) "game_win"
        then tx_amount t else 0)
       + wonInLedger uid txs')%Q
  end.

(** The override stored after the requests [rs], served in SPINNING on a
    session that held [a]: the last one requested. *)
Definition lastOverride (rs : list Request) (a : option string) : option string :=
  fold_left (fun a r => match r with
                        | SetAdminDecision decision => decision
                        | AddBet _ _ _ => a
                        end) rs a.

(** The other side of a binary bet. *)
Definition otherSide (sd : string) : string :=
  if String.eqb sd "win" then "loss" else "win".

(** Every cell of a lobby grid holds one of the seven symbols. *)
Definition symbolsOnly (g : Grid) : Prop :=
  Forall (Forall (fun x => x ∈ SYMBOLS)) g.

(** The positions of a list at which the grid holds [sym]. *)
Definition hits (sym : string) (g : Grid) (ps : list (nat * nat)) : nat :=
  length (filter (fun p => cell g (fst p) (snd p) = Some sym) ps).

(** A leaderboard entry whose amount is a number. *)
Definition finiteAmount (w : Winners.Winner) : Prop := Winners.w_amount w <> NaN.

(** [a] may stand in front of [b]: a made-up entry is never in front of a
    real one, and of two entries of the same kind the one in front has the
    amount at least as high. *)
Definition ranked (a b : Winners.Winner) : Prop :=
  (Winners.w_isReal a = true \/ Winners.w_isReal b = false)
  /\ (Winners.w_isReal a = Winners.w_isReal b ->
      (orZero (Winners.w_amount b) <= orZero (Winners.w_amount a))%Q).

End RoundFacts.

(** ** Quantities the solo-play properties are stated with *)

Module SoloFacts.

(** The symbol a draw selects, by the cumulative weights over their sum
    (40, 70, 90, 105, 115, 120, 123, 124.5 and 125 out of 125). *)
Definition symbolOfDraw (u : Q) : Solo.Symbol :=
  if Qle_bool u (40 # 125) then Solo.Grapes
  else if Qle_bool u (70 # 125) then Solo.Orange
  else if Qle_bool u (90 # 125) then Solo.Lemon
  else if Qle_bool u (105 # 125) then Solo.Watermelon
  else if Qle_bool u (115 # 125) then Solo.Banana
  else if Qle_bool u (120 # 125) then Solo.Apple
  else if Qle_bool u (123 # 125) then Solo.Strawberry
  else if Qle_bool u (249 # 250) then Solo.Star
  else Solo.Diamond.

(** A request [playGame] has no reason to refuse: a stake from 1 to
    [MAX_BET], a known user whose account is active or pending, and a
    balance that covers the stake. *)
Definition playable (body : Solo.BodyValue) (uid : string) (db : Db) : Prop :=
  exists bet user,
    body = Solo.Numeric bet
    /\ (1 <= bet <= Solo.MAX_BET)%Q
    /\ users db !! uid = Some user
    /\ (status user = "active" \/ status user = "pending")
    /\ (bet <= balance user)%Q.

End SoloFacts.

(** ** The pages of a player's history: [getGameHistory] *)

Module History.

(** A parameter of [req.query]: absent, or present with the value
    [parseInt] reads from it ([None] for [NaN]). *)
Inductive QueryParam : Type :=
| Missing
| Present (parsed : option Z).

(** [parseInt(p)] after the default of the destructuring. *)
Definition parseIntOr (default : Z) (p : QueryParam) : option Z :=
  match p with
  | Missing => Some default
  | Present parsed => parsed
  end.

Definition MAX_LIMIT : Z := 100.

(** The value of [limit] the query runs with. *)
Definition sanitizeLimit (p : QueryParam) : Z :=
  let limit :=
    match parseIntOr 20 p with
    | None => 20%Z
    | Some l => if (l <? 1)%Z then 20%Z else l
    end in
  if (MAX_LIMIT <? limit)%Z then MAX_LIMIT else limit.

(** The value of [page] the query runs with. *)
Definition sanitizePage (p : QueryParam) : Z :=
  match parseIntOr 1 p with
  | None => 1%Z
  | Some n => if (n <? 1)%Z then 1%Z else n
  end.

(** A document of the [BalanceHistory] collection as the query sees it:
    the record and its [metadata.gameType] (absent on a document without
    one).  The collection is shared with the rest of the application. *)
Record Stored : Type := mkStored {
  doc : BalanceHistory;
  gameType : option string
}.

(** The document [playGame] stores for a record: its metadata carries
    [gameType: 'sweet-bonanza']. *)
Definition written (h : BalanceHistory) : Stored :=
  mkStored h (Some "sweet-bonanza").

(** The filter of [find] and of [countDocuments]:
    [{ user: userId, 'metadata.gameType': 'sweet-bonanza' }]. *)
Definition matching (userId : string) (collection : list Stored) : list Stored :=
  filter (fun d => bh_user (doc d) = userId
                   /\ gameType d = Some "sweet-bonanza") collection.

(** [Math.ceil(total / limit)] *)
Definition totalPagesOf (total : nat) (limit : Z) : Z :=
  Qceiling (inject_Z (Z.of_nat total) / inject_Z limit).

(** The [data] of the response. *)
Record Page : Type := mkPage {
  pg_history : list Stored;
  pg_total : nat;
  pg_page : Z;
  pg_totalPages : Z;
  pg_limit : Z
}.

(** [getGameHistory]: the newest documents first (the collection is in the
    order of creation), [skip] applied before [limit]. *)
Definition getGameHistory (userId : string) (limit page : QueryParam)
    (collection : list Stored) : Page :=
  let limit := sanitizeLimit limit in
  let page := sanitizePage page in
  let history :=
    take (Z.to_nat limit)
         (drop (Z.to_nat ((page - 1) * limit)%Z)
               (reverse (matching userId collection))) in
  let total := length (matching userId collection) in
  mkPage history total page (totalPagesOf total limit) limit.

End History.

(** ** The deposit request model: the [pre('save')] hook *)

Module Deposit.

(** [toLowerCase] on one character; only the letters A to Z matter for the
    comparison with the three lower-case words. *)
Definition lowerChar (c : Ascii.ascii) : Ascii.ascii :=
  let n := Ascii.nat_of_ascii c in
  if (65 <=? n)%nat && (n <=? 90)%nat then Ascii.ascii_of_nat (n + 32) else c.

Fixpoint toLowerCase (s : string) : string :=
  match s with
  | EmptyString => EmptyString
  | String c s' => String (lowerChar c) (toLowerCase s')
  end.

(** The value of [this.status]: a string, or a value of another type. *)
Inductive StatusValue : Type :=
| NotAString
| Str (s : string).

Definition NORMALIZED : list string := ["pending"; "approved"; "cancelled"].

(** The statuses the schema's [enum] allows. *)
Definition ALLOWED : list string :=
  ["pending"; "approved"; "cancelled"; "PENDING"; "APPROVED"; "CANCELLED"].

(** The hook: [this.status] after it has run. *)
Definition preSave (status : StatusValue) : StatusValue :=
  match status with
  | Str st =>
      let s := toLowerCase st in
      if bool_decide (s ∈ NORMALIZED) then Str s else Str st
  | NotAString => NotAString
  end.

End Deposit.

(** * Properties *)

(** ** Facts about the number helpers *)

Lemma Qltb_lt x y : Qltb x y = true <-> (x < y)%Q.
Proof.
  unfold Qltb. rewrite negb_true_iff, <- not_true_iff_false, Qle_bool_iff.
  split; [apply Qnot_le_lt | apply Qlt_not_le].
Qed.

Lemma Qltb_ge x y : Qltb x y = false <-> (y <= x)%Q.
Proof. unfold Qltb. rewrite negb_false_iff. apply Qle_bool_iff. Qed.

Lemma Qmax_of_le x y : (x <= y)%Q -> Qmax x y = y.
Proof. intros H. unfold Qmax. apply Qle_bool_iff in H. now rewrite H. Qed.

Lemma Qmin_of_le x y : (x <= y)%Q -> Qmin x y = x.
Proof. intros H. unfold Qmin. apply Qle_bool_iff in H. now rewrite H. Qed.

(** ** Facts about doubles *)

Lemma digits2_pos_bounds m :
  (2 ^ (Zpos (digits2_pos m) - 1) <= Zpos m < 2 ^ Zpos (digits2_pos m))%Z.
Proof.
  induction m as [m IH | m IH |]; cbn [digits2_pos].
  - rewrite Pos2Z.inj_succ. replace (Z.succ (Zpos (digits2_pos m)) - 1)%Z
      with (Z.succ (Zpos (digits2_pos m) - 1)) by lia.
    rewrite !Z.pow_succ_r by lia. lia.
  - rewrite Pos2Z.inj_succ. replace (Z.succ (Zpos (digits2_pos m)) - 1)%Z
      with (Z.succ (Zpos (digits2_pos m) - 1)) by lia.
    rewrite !Z.pow_succ_r by lia. lia.
  - cbn. lia.
Qed.

(** What the canonical form says of mantissa and exponent. *)
Lemma canonical_bounds m e :
  canonical_mantissa Double.prec Double.emax m e = true ->
  (Zpos m < 2 ^ 53)%Z /\ ((-1074 <= e)%Z) /\ ((-1074 < e)%Z -> (2 ^ 52 <= Zpos m)%Z).
Proof.
  unfold canonical_mantissa, fexp, emin, Double.prec, Double.emax. intros H.
  apply Z.eqb_eq in H.
  pose proof (digits2_pos_bounds m) as [Hlo Hhi].
  set (d := Zpos (digits2_pos m)) in *.
  assert (Hd : (d <= 53)%Z) by lia.
  split.
  - eapply Z.lt_le_trans; [exact Hhi |]. apply Z.pow_le_mono_r; lia.
  - split; [lia |]. intros He. assert (d = 53%Z) by lia.
    replace 52%Z with (d - 1)%Z by lia. exact Hlo.
Qed.

Lemma pow2_positive e : (0 < 2 ^ e)%Q.
Proof. apply Qpower_0_lt. reflexivity. Qed.

(** The magnitude of a finite double. *)
Lemma magnitude_positive m e : (0 < inject_Z (Zpos m) * 2 ^ e)%Q.
Proof.
  apply Qmult_lt_0_compat; [| apply pow2_positive].
  change 0%Q with (inject_Z 0). rewrite <- Zlt_Qlt. lia.
Qed.

(** Of two canonical magnitudes the one with the smaller exponent is the
    smaller. *)
Lemma magnitude_lt_by_exponent m1 e1 m2 e2 :
  canonical_mantissa Double.prec Double.emax m1 e1 = true ->
  canonical_mantissa Double.prec Double.emax m2 e2 = true ->
  (e1 < e2)%Z ->
  (inject_Z (Zpos m1) * 2 ^ e1 < inject_Z (Zpos m2) * 2 ^ e2)%Q.
Proof.
  intros H1 H2 He.
  apply canonical_bounds in H1, H2.
  destruct H1 as (Hm1 & He1 & _). destruct H2 as (_ & _ & Hm2).
  specialize (Hm2 ltac:(lia)).
  assert (Hk : (2 ^ e2 == inject_Z (2 ^ (e2 - e1)) * 2 ^ e1)%Q).
  { rewrite Zpower_Qpower by lia. rewrite <- Qpower_plus by discriminate.
    replace (e2 - e1 + e1)%Z with e2 by lia. reflexivity. }
  rewrite Hk, Qmult_assoc, <- inject_Z_mult.
  apply Qmult_lt_compat_r; [apply pow2_positive |].
  rewrite <- Zlt_Qlt.
  assert (2 <= 2 ^ (e2 - e1))%Z.
  { change 2%Z with (2 ^ 1)%Z at 1. apply Z.pow_le_mono_r; lia. }
  nia.
Qed.

Lemma magnitude_compare m1 e1 m2 e2 :
  canonical_mantissa Double.prec Double.emax m1 e1 = true ->
  canonical_mantissa Double.prec Double.emax m2 e2 = true ->
  (inject_Z (Zpos m1) * 2 ^ e1 ?= inject_Z (Zpos m2) * 2 ^ e2)%Q
  = match (e1 ?= e2)%Z with
    | Lt => Lt
    | Gt => Gt
    | Eq => Pos.compare_cont Eq m1 m2
    end.
Proof.
  intros H1 H2. destruct (Z.compare_spec e1 e2) as [-> | He | He].
  - change (Pos.compare_cont Eq m1 m2) with (Zpos m1 ?= Zpos m2)%Z.
    destruct (Z.compare_spec (Zpos m1) (Zpos m2)) as [E | E | E].
    + apply (proj1 (Qeq_alt _ _)). now rewrite E.
    + apply (proj1 (Qlt_alt _ _)). apply Qmult_lt_compat_r; [apply pow2_positive |].
      now rewrite <- Zlt_Qlt.
    + apply (proj1 (Qgt_alt _ _)). apply Qmult_lt_compat_r; [apply pow2_positive |].
      now rewrite <- Zlt_Qlt.
  - apply (proj1 (Qlt_alt _ _)). now apply magnitude_lt_by_exponent.
  - apply (proj1 (Qgt_alt _ _)). now apply magnitude_lt_by_exponent.
Qed.

Lemma negative_magnitude m e :
  (inject_Z (Zneg m) * 2 ^ e == - (inject_Z (Zpos m) * 2 ^ e))%Q.
Proof. change (Zneg m) with (- Zpos m)%Z. rewrite inject_Z_opp. ring. Qed.

Lemma value_finite s m e :
  Double.value (S754_finite s m e)
  = Some (inject_Z (if s then Zneg m else Zpos m) * 2 ^ e)%Q.
Proof. reflexivity. Qed.

(** Hides the magnitudes from the arithmetic solver. *)
Ltac hide_magnitudes :=
  repeat match goal with
         | H : context [(inject_Z (Zpos ?m) * 2 ^ ?e)%Q] |- _ =>
             let a := fresh "a" in
             set (a := (inject_Z (Zpos m) * 2 ^ e)%Q) in *; clearbody a
         end.

Lemma Qcompare_opp x y : (- x ?= - y)%Q = CompOpp (x ?= y)%Q.
Proof.
  destruct (Qcompare_spec x y) as [E | E | E]; cbn [CompOpp].
  - apply (proj1 (Qeq_alt _ _)). now rewrite E.
  - apply (proj1 (Qgt_alt _ _)). lra.
  - apply (proj1 (Qlt_alt _ _)). lra.
Qed.

(** On doubles that are exact the comparison of doubles is the comparison
    of their values. *)
Lemma SFcompare_exact x y vx vy :
  Double.exact x vx -> Double.exact y vy ->
  SFcompare x y = Some (vx ?= vy)%Q.
Proof.
  intros (Hx & ux & Ex & Qx) (Hy & uy & Ey & Qy).
  rewrite <- Qx, <- Qy. clear Qx Qy vx vy.
  destruct x as [sx | sx | | sx mx ex]; try discriminate;
    destruct y as [sy | sy | | sy my ey]; try discriminate;
    cbn [Double.value] in Ex, Ey; injection Ex as <-; injection Ey as <-;
    cbn [SFcompare valid_binary] in *.
  - reflexivity.
  - pose proof (magnitude_positive my ey) as Hp. f_equal. symmetry.
    destruct sy.
    + apply (proj1 (Qgt_alt _ _)). rewrite negative_magnitude. hide_magnitudes. lra.
    + apply (proj1 (Qlt_alt _ _)). hide_magnitudes. lra.
  - pose proof (magnitude_positive mx ex) as Hp. f_equal. symmetry.
    destruct sx.
    + apply (proj1 (Qlt_alt _ _)). rewrite negative_magnitude. hide_magnitudes. lra.
    + apply (proj1 (Qgt_alt _ _)). hide_magnitudes. lra.
  - apply andb_true_iff in Hx, Hy. destruct Hx as [Hx _], Hy as [Hy _].
    pose proof (magnitude_positive mx ex) as Hpx.
    pose proof (magnitude_positive my ey) as Hpy.
    pose proof (magnitude_compare mx ex my ey Hx Hy) as Hc.
    f_equal. symmetry.
    destruct sx, sy.
    + rewrite !negative_magnitude, Qcompare_opp, Hc.
      destruct (ex ?= ey)%Z; reflexivity.
    + apply (proj1 (Qlt_alt _ _)). rewrite negative_magnitude. hide_magnitudes. lra.
    + apply (proj1 (Qgt_alt _ _)). rewrite negative_magnitude. hide_magnitudes. lra.
    + exact Hc.
Qed.

Lemma geb_exact x y vx vy :
  Double.exact x vx -> Double.exact y vy ->
  Double.geb x y = Qle_bool vy vx.
Proof.
  intros Hx Hy. unfold Double.geb, SFleb.
  rewrite (SFcompare_exact y x vy vx Hy Hx).
  destruct (Qcompare_spec vy vx) as [E | E | E].
  - symmetry. apply Qle_bool_iff. rewrite E. apply Qle_refl.
  - symmetry. apply Qle_bool_iff. now apply Qlt_le_weak.
  - symmetry. apply not_true_iff_false. rewrite Qle_bool_iff. lra.
Qed.

(** Swapping the sides of a comparison of doubles swaps its result. *)
Lemma SFcompare_antisym x y :
  SFcompare y x = CompOpp <$> SFcompare x y.
Proof.
  destruct x as [sx | sx | | sx mx ex], y as [sy | sy | | sy my ey];
    cbn [SFcompare fmap option_fmap option_map];
    try (destruct sx); try (destruct sy); try reflexivity.
  all: rewrite (Z.compare_antisym ex ey);
    destruct (ex ?= ey)%Z; cbn [CompOpp]; try reflexivity;
    change (Pos.compare_cont Eq my mx) with (Pos.compare_cont (CompOpp Eq) my mx);
    rewrite <- (Pos.compare_cont_antisym mx my Eq);
    destruct (Pos.compare_cont Eq mx my); reflexivity.
Qed.

(** Doubles of which neither is [NaN] compare. *)
Lemma SFcompare_defined x y :
  Double.isNaN x = false -> Double.isNaN y = false ->
  exists c, SFcompare x y = Some c.
Proof.
  destruct x as [sx | sx | | sx mx ex], y as [sy | sy | | sy my ey];
    cbn [Double.isNaN SFcompare]; try discriminate; eauto.
Qed.

(** Two doubles of which neither is [NaN] are comparable. *)
Lemma geb_total x y :
  Double.isNaN x = false -> Double.isNaN y = false ->
  Double.geb x y = false -> Double.geb y x = true.
Proof.
  intros Hx Hy. unfold Double.geb, SFleb. rewrite (SFcompare_antisym y x).
  destruct (SFcompare_defined y x Hy Hx) as [c ->].
  destruct c; cbn; intros H; try discriminate; reflexivity.
Qed.

(** ** Bet placement and the snapshot *)

Lemma Phase_eqb_eq p q : Phase_eqb p q = true <-> p = q.
Proof. destruct p, q; simpl; split; congruence. Qed.






(** ** The admin override and the decision policy *)

Lemma decideRound_override bs d cycle :
  d <> EmptyString -> decideRound bs (Some d) cycle = d.
Proof.
  intros Hd. unfold decideRound, truthy.
  destruct (String.eqb_spec d EmptyString); [contradiction | reflexivity].
Qed.

Lemma setAdminDecision_spinning d s :
  phase s = SPINNING -> setAdminDecision d s = set_adminDecision d s.
Proof. intros H. unfold setAdminDecision. now rewrite H. Qed.

Lemma setAdminDecision_ignored d s :
  phase s <> SPINNING -> setAdminDecision d s = s.
Proof.
  intros H. unfold setAdminDecision.
  destruct (Phase_eqb (phase s) SPINNING) eqn:E; [| reflexivity].
  apply Phase_eqb_eq in E. contradiction.
Qed.

(** The labels of a generated outcome: the decision it was asked for, and
    the win flag. *)
Lemma generateSlotOutcome_labels fuel decision rnd g :
  run (generateSlotOutcome fuel decision) rnd = Some g ->
  outcome g = decision
  /\ winAmount g = (if String.eqb decision "win" then 1 else 0)%Z.
Proof.
  unfold run, generateSlotOutcome, mbind, Gen_bind, mret, Gen_ret.
  destruct (randomReels rnd O) as [[g0 j0] |]; [| discriminate].
  match goal with |- context [match ?X with _ => _ end] =>
    destruct X as [[g1 j1] |] end; [| discriminate].
  simpl. intros [= <-]. split; reflexivity.
Qed.

(** What [calculateResult] does with the decision: it is the [outcome] of the
    published result and the outcome the bets are settled against. *)
Lemma calculateResult_uses_decision fuel rnd s db s' db' :
  calculateResult fuel rnd s db = Some (s', db') ->
  let decision := decideRound (bets s) (adminDecision s) (roundCycle s) in
  (exists g, result s' = Some g /\ outcome g = decision)
  /\ db' = processPayouts s decision db.
Proof.
  unfold calculateResult, run. intros H.
  destruct (generateSlotOutcome _ _ rnd O) as [[g j] |] eqn:E; [| discriminate].
  simpl in H. injection H as <- <-. split.
  - exists g. split; [reflexivity |].
    revert E. unfold generateSlotOutcome, mbind, Gen_bind, mret, Gen_ret.
    destruct (randomReels rnd O) as [[g0 j0] |]; [| discriminate].
    match goal with |- context [match ?X with _ => _ end] =>
      destruct X as [[g1 j1] |] end; [| discriminate].
    intros [= <- _]. reflexivity.
  - reflexivity.
Qed.

Lemma set_adminDecision_same s : set_adminDecision (adminDecision s) s = s.
Proof. now destruct s. Qed.

(** In SPINNING a request changes nothing of the session but the stored
    override: a bet is refused, and the override kept is the last one
    requested. *)
Lemma serveAll_spinning rs s :
  phase s = SPINNING ->
  serveAll rs s = set_adminDecision (RoundFacts.lastOverride rs (adminDecision s)) s.
Proof.
  revert s. induction rs as [| r rs IH]; intros s Hp; cbn [serveAll fold_left RoundFacts.lastOverride].
  - symmetry. apply set_adminDecision_same.
  - fold (serveAll rs (serve r s)).
    fold (RoundFacts.lastOverride rs (match r with
                           | SetAdminDecision decision => decision
                           | AddBet _ _ _ => adminDecision s
                           end)).
    destruct r as [uid amount sd | decision]; cbn [serve].
    + unfold addBet. rewrite Hp. cbn [Phase_eqb negb snd]. now apply IH.
    + rewrite (setAdminDecision_spinning _ _ Hp).
      rewrite IH by exact Hp. reflexivity.
Qed.

(** With no request in between, the call is the atomic one. *)
Lemma calculateResultAwaiting_alone fuel rnd s db :
  calculateResultAwaiting fuel rnd [] [] s db = calculateResult fuel rnd s db.
Proof.
  unfold calculateResultAwaiting, calculateResultStart, calculateResult.
  destruct (run (generateSlotOutcome fuel _) rnd); reflexivity.
Qed.

(** The requests served while a call in SPINNING awaits change neither the
    result it publishes nor the settlement: the decision was taken before
    the first of them. *)
Lemma calculateResultAwaiting_spinning fuel rnd during1 during2 s db :
  phase s = SPINNING ->
  calculateResultAwaiting fuel rnd during1 during2 s db =
  match calculateResult fuel rnd s db with
  | Some (s', db') =>
      Some (set_adminDecision
              (RoundFacts.lastOverride during2 (RoundFacts.lastOverride during1 (adminDecision s))) s',
            db')
  | None => None
  end.
Proof.
  intros Hp.
  unfold calculateResultAwaiting, calculateResultStart, calculateResult.
  destruct (run (generateSlotOutcome fuel _) rnd) as [g |]; [| reflexivity].
  cbn [mbind option_bind pend_gameResult pend_decision].
  rewrite (serveAll_spinning during1 s Hp).
  rewrite (serveAll_spinning during2) by exact Hp.
  reflexivity.
Qed.

(** An override (a non-empty string) stored in SPINNING before the result
    is computed is the decision of the round, whatever the bets, the cycle
    position and the requests that arrive during the computation: when the
    grid generator returns, the result published carries it and the bets are
    settled against it; the computation returns exactly when the generator
    does. *)
Lemma override_stored_before_the_result_is_honoured
    (d : string) (s : Session) fuel rnd during1 during2 db :
  phase s = SPINNING -> d <> EmptyString ->
  let s' := setAdminDecision (Some d) s in
  adminDecision s' = Some d
  /\ match run (generateSlotOutcome fuel d) rnd with
     | Some g =>
         outcome g = d
         /\ exists s'',
              calculateResultAwaiting fuel rnd during1 during2 s' db
              = Some (s'', processPayouts s d db)
              /\ result s'' = Some g /\ bets s'' = bets s
              /\ phase s'' = SPINNING
     | None => calculateResultAwaiting fuel rnd during1 during2 s' db = None
     end.
Proof.
  intros Hp Hd. cbv zeta. rewrite (setAdminDecision_spinning _ _ Hp).
  split; [reflexivity |].
  rewrite calculateResultAwaiting_spinning by exact Hp.
  unfold calculateResult. cbn [bets adminDecision roundCycle set_adminDecision].
  rewrite (decideRound_override _ _ _ Hd).
  destruct (run (generateSlotOutcome fuel d) rnd) as [g |] eqn:Eg; [| reflexivity].
  split; [apply (generateSlotOutcome_labels _ _ _ _ Eg) |].
  eexists. split; [reflexivity |]. cbn. auto.
Qed.

(** An override that arrives while the computation awaits is stored, for
    the phase is still SPINNING, and used by no round: the round under way
    publishes and settles the decision taken before, and the next round
    starts without an override. *)
Lemma override_during_the_computation_is_never_used
    (d : string) (s : Session) fuel rnd db s' db' now :
  phase s = SPINNING ->
  calculateResultAwaiting fuel rnd [] [SetAdminDecision (Some d)] s db
  = Some (s', db') ->
  adminDecision s' = Some d
  /\ (exists g, result s' = Some g
                /\ outcome g = decideRound (bets s) (adminDecision s) (roundCycle s))
  /\ db' = processPayouts s (decideRound (bets s) (adminDecision s) (roundCycle s)) db
  /\ adminDecision
       (startNewRound now (set_timeLeft ROUND_TIMES_RESULT (set_phase RESULT s')))
     = None.
Proof.
  intros Hp. rewrite calculateResultAwaiting_spinning by exact Hp.
  destruct (calculateResult fuel rnd s db) as [[s0 db0] |] eqn:E; [| discriminate].
  intros [= <- <-].
  apply calculateResult_uses_decision in E. cbv zeta in E.
  destruct E as [(g & Hg & Ho) ->].
  split; [reflexivity |]. split; [exists g; split; [exact Hg | exact Ho] |].
  split; reflexivity.
Qed.

(** C8 fails on the code.  The session is in SPINNING with one bet of 10 on
    [win] and no override, and the tick that ends the phase runs
    [calculateResult]: it reads the session, decides [loss] and awaits the
    settlement.  [setAdminDecision('win')] arrives then: the phase is still
    SPINNING, so the call is accepted and the override stored, yet the round
    publishes [loss] and settles the bet as lost, and the phase that follows
    is RESULT with the unused override still stored.  The same call served
    before the computation starts makes the round [win]. *)
Theorem override_during_settlement_is_stored_but_not_used :
  (fun '(s', db') =>
     (phase s', adminDecision s', outcome <$> result s',
      tx_type <$> transactions db', balance <$> users db' !! "alice"))
    <$> calculateResultAwaiting 30 Fixtures.sweeping
          [] [SetAdminDecision (Some "win")]
          (set_timeLeft 0 Fixtures.spinning1) Fixtures.db0
  = Some (SPINNING, Some "win", Some "loss", ["game_loss"], Some 100%Q)
  /\ (fun '(s', db') =>
        (phase s', adminDecision s', outcome <$> result s',
         tx_type <$> transactions db', balance <$> users db' !! "alice"))
       <$> calculateResultAwaiting 30 Fixtures.sweeping [] []
             (setAdminDecision (Some "win") (set_timeLeft 0 Fixtures.spinning1))
             Fixtures.db0
     = Some (SPINNING, Some "win", Some "win", ["game_win"], Some 120%Q)
  /\ (fun '(s', _) => (phase s', adminDecision s', outcome <$> result s'))
       <$> nextPhaseAwaiting (Fixtures.envAt 30 Fixtures.sweeping)
             [] [SetAdminDecision (Some "win")]
             (set_timeLeft 0 Fixtures.spinning1) Fixtures.db0
     = Some (RESULT, Some "win", Some "loss").
Proof. vm_compute. repeat split. Qed.

(** ** The decision policy *)

(** The code's [reduce] over the filtered bets is the accumulation bet
    after bet. *)
Lemma sideTotal64_from sd bs total :
  fold_left (fun sum b => Double.add sum (stake64 b))
            (filter (fun b => String.eqb (side b) sd = true) bs) total
  = SpecWords.accumulated sd total bs.
Proof.
  revert total. induction bs as [| b bs IH]; intros total; [reflexivity |].
  cbn [SpecWords.accumulated].
  destruct (String.eqb (side b) sd) eqn:E.
  - rewrite filter_cons_True by exact E. cbn [fold_left]. apply IH.
  - rewrite filter_cons_False by (rewrite E; discriminate). apply IH.
Qed.

Lemma sideTotal64_accumulated sd bs :
  sideTotal64 sd bs = SpecWords.accumulated sd Double.zero bs.
Proof. apply sideTotal64_from. Qed.

(** [x >= y] on doubles, by cases. *)
Lemma geb_by_cases x y :
  Double.geb x y =
  if Double.isNaN x || Double.isNaN y then false
  else if SFltb y x then true
  else if SFltb x y then false
  else true.
Proof.
  unfold Double.geb, SFleb, SFltb. rewrite (SFcompare_antisym y x).
  destruct (Double.isNaN x) eqn:Hx;
    [destruct x, y; try discriminate; reflexivity |].
  destruct (Double.isNaN y) eqn:Hy;
    [destruct x, y; try discriminate; reflexivity |].
  destruct (SFcompare_defined y x Hy Hx) as [c ->]. destruct c; reflexivity.
Qed.

Lemma majoritySide_words bs :
  majoritySide bs =
  SpecWords.majorityOfTotals (SpecWords.accumulated "win" Double.zero bs)
                             (SpecWords.accumulated "loss" Double.zero bs).
Proof.
  unfold majoritySide, winBetsTotal64, lossBetsTotal64, SpecWords.majorityOfTotals.
  rewrite !sideTotal64_accumulated, geb_by_cases.
  set (w := SpecWords.accumulated "win" Double.zero bs).
  set (l := SpecWords.accumulated "loss" Double.zero bs).
  destruct (Double.isNaN w || Double.isNaN l); [reflexivity |].
  destruct (SFltb l w); [reflexivity |].
  destruct (SFltb w l); reflexivity.
Qed.

(** The side with the greater of two rational totals, in the words of the
    claim, is [win] exactly when the loss total does not exceed the win
    total. *)
Lemma majority_by_le (winTotal lossTotal : Q) :
  SpecWords.majority winTotal lossTotal =
  if Qle_bool lossTotal winTotal then "win" else "loss".
Proof.
  unfold SpecWords.majority.
  destruct (Qle_bool lossTotal winTotal) eqn:E.
  - destruct (Qltb lossTotal winTotal); [reflexivity |].
    destruct (Qltb winTotal lossTotal) eqn:E2; [| reflexivity].
    apply Qltb_lt in E2. apply Qle_bool_iff in E. lra.
  - assert (H : Qltb winTotal lossTotal = true) by (unfold Qltb; now rewrite E).
    rewrite H.
    destruct (Qltb lossTotal winTotal) eqn:E2; [| reflexivity].
    apply Qltb_lt in E2. apply Qltb_lt in H. lra.
Qed.

(** When no sum was rounded the majority side is the side with the greater
    summed stake. *)
Lemma majoritySide_exact bs :
  Double.exact (SpecWords.accumulated "win" Double.zero bs)
               (SpecWords.summedStake "win" bs) ->
  Double.exact (SpecWords.accumulated "loss" Double.zero bs)
               (SpecWords.summedStake "loss" bs) ->
  majoritySide bs =
  SpecWords.majority (SpecWords.summedStake "win" bs)
                     (SpecWords.summedStake "loss" bs).
Proof.
  intros Hw Hl. rewrite majority_by_le.
  unfold majoritySide, winBetsTotal64, lossBetsTotal64.
  rewrite !sideTotal64_accumulated. now rewrite (geb_exact _ _ _ _ Hw Hl).
Qed.

(** Before the first [startNewRound] the cycle position is absent and the
    algorithm takes its default branch: the minority side. *)
Lemma decision_first_round bs : decideRound bs None None = minoritySide bs.
Proof. reflexivity. Qed.

(** Every round [startNewRound] opens has a cycle position from 1 to 5. *)
Lemma startNewRound_cycle now s :
  (0 <= roundCount s)%Z ->
  exists c, roundCycle (startNewRound now s) = Some c /\ (1 <= c <= 5)%Z.
Proof.
  intros H. unfold startNewRound. simpl. eexists. split; [reflexivity |].
  replace (roundCount s + 1 - 1)%Z with (roundCount s) by lia.
  pose proof (Z.rem_bound_pos (roundCount s) 5 H ltac:(lia)). lia.
Qed.

(** The decision at a cycle position from 1 to 5, by the majority side. *)
Lemma decideRound_by_position bs position :
  (1 <= position <= 5)%Z ->
  decideRound bs None (Some position) =
  if (position =? 1)%Z then SpecWords.other (majoritySide bs)
  else if (2 <=? position)%Z && (position <=? 4)%Z
       then SpecWords.other (majoritySide bs)
  else majoritySide bs.
Proof.
  intros Hpos. unfold decideRound, algorithmDecision.
  change (minoritySide bs) with (SpecWords.other (majoritySide bs)).
  destruct (Z.eqb_spec position 1) as [-> | H1].
  - rewrite bool_decide_eq_true_2 by reflexivity. reflexivity.
  - rewrite bool_decide_eq_false_2 by congruence.
    destruct (Z.eq_dec position 5%Z) as [-> | H5].
    + rewrite bool_decide_eq_true_2 by reflexivity. reflexivity.
    + rewrite bool_decide_eq_false_2 by congruence.
      replace ((2 <=? position)%Z && (position <=? 4)%Z) with true; [reflexivity |].
      symmetry. apply andb_true_iff. split; apply Z.leb_le; lia.
Qed.

(** C3, as amended.  With no admin override, the decision of a round at
    cycle position 1 to 5 is the minority side at position 1 and at
    positions 2 to 4 and the majority side at position 5, where the total of
    a side is accumulated over the bets in their order in double-precision
    arithmetic, the majority side is the side with the greater total, a tie
    of the totals makes it [win] and a total that is no number makes it
    [loss].  When no sum was rounded (both totals are the summed stakes),
    the majority side is the side with the greater summed stake, as the
    claim has it. *)
Theorem decision_without_override_follows_cycle (bs : list Bet) (position : Z) :
  (1 <= position <= 5)%Z ->
  decideRound bs None (Some position)
  = SpecWords.decisionOfTotals
      (SpecWords.accumulated "win" Double.zero bs)
      (SpecWords.accumulated "loss" Double.zero bs) position
  /\ (Double.exact (SpecWords.accumulated "win" Double.zero bs)
                   (SpecWords.summedStake "win" bs) ->
      Double.exact (SpecWords.accumulated "loss" Double.zero bs)
                   (SpecWords.summedStake "loss" bs) ->
      decideRound bs None (Some position)
      = SpecWords.decision (SpecWords.summedStake "win" bs)
                           (SpecWords.summedStake "loss" bs) position).
Proof.
  intros Hpos. rewrite (decideRound_by_position bs position Hpos). split.
  - unfold SpecWords.decisionOfTotals. now rewrite majoritySide_words.
  - intros Hw Hl. unfold SpecWords.decision.
    now rewrite (majoritySide_exact bs Hw Hl).
Qed.

(** The scenario of the specification: 20 on [win], 50 on [loss], cycle
    position 5.  No sum is rounded, and the side with the greater summed
    stake, [loss], is decided. *)
Lemma decision_without_override_follows_cycle_witness :
  (1 <= 5 <= 5)%Z
  /\ Double.exact
       (SpecWords.accumulated "win" Double.zero
          [mkBet "A" (Fin 20) "win"; mkBet "B" (Fin 50) "loss"]) 20
  /\ Double.exact
       (SpecWords.accumulated "loss" Double.zero
          [mkBet "A" (Fin 20) "win"; mkBet "B" (Fin 50) "loss"]) 50
  /\ decideRound [mkBet "A" (Fin 20) "win"; mkBet "B" (Fin 50) "loss"]
                 None (Some 5%Z) = "loss".
Proof.
  assert (Hw : Double.exact
                 (SpecWords.accumulated "win" Double.zero
                    [mkBet "A" (Fin 20) "win"; mkBet "B" (Fin 50) "loss"]) 20).
  { split; [vm_compute; reflexivity |].
    eexists. split; [reflexivity |]. vm_compute. reflexivity. }
  assert (Hl : Double.exact
                 (SpecWords.accumulated "loss" Double.zero
                    [mkBet "A" (Fin 20) "win"; mkBet "B" (Fin 50) "loss"]) 50).
  { split; [vm_compute; reflexivity |].
    eexists. split; [reflexivity |]. vm_compute. reflexivity. }
  split; [lia |]. split; [exact Hw |]. split; [exact Hl |].
  destruct (decision_without_override_follows_cycle
              [mkBet "A" (Fin 20) "win"; mkBet "B" (Fin 50) "loss"] 5%Z
              ltac:(lia)) as [_ H].
  rewrite H.
  - vm_compute. reflexivity.
  - split; [vm_compute; reflexivity |].
    eexists. split; [reflexivity |]. vm_compute. reflexivity.
  - split; [vm_compute; reflexivity |].
    eexists. split; [reflexivity |]. vm_compute. reflexivity.
Defined.

(** C3 fails on the code as the claim states it.  The stakes 0.3, 0.2 and
    0.1 on [win] and 0.1, 0.2 and 0.3 on [loss] sum to the same amount, so
    the claim has [win] as the majority side and as the decision at cycle
    position 5.  The code adds 0.3 + 0.2 + 0.1 to 0.6 and 0.1 + 0.2 + 0.3
    to 0.6000000000000001, takes [loss] for the majority side and decides
    [loss]; at position 1 it decides [win] where the claim has [loss]. *)
Lemma rounded_totals_break_a_tie :
  (SpecWords.summedStake "win" Fixtures.sameStakes
   == SpecWords.summedStake "loss" Fixtures.sameStakes)%Q
  /\ SpecWords.decision (SpecWords.summedStake "win" Fixtures.sameStakes)
       (SpecWords.summedStake "loss" Fixtures.sameStakes) 5 = "win"
  /\ decideRound Fixtures.sameStakes None (Some 5%Z) = "loss"
  /\ SpecWords.decision (SpecWords.summedStake "win" Fixtures.sameStakes)
       (SpecWords.summedStake "loss" Fixtures.sameStakes) 1 = "loss"
  /\ decideRound Fixtures.sameStakes None (Some 1%Z) = "win"
  /\ winBetsTotal64 Fixtures.sameStakes
     = S754_finite false 5404319552844595 (-53)
  /\ lossBetsTotal64 Fixtures.sameStakes
     = S754_finite false 5404319552844596 (-53)
  /\ map stake64 Fixtures.sameStakes
     = [ S754_finite false 5404319552844595 (-54);
         S754_finite false 7205759403792794 (-55);
         S754_finite false 7205759403792794 (-56);
         S754_finite false 7205759403792794 (-56);
         S754_finite false 7205759403792794 (-55);
         S754_finite false 5404319552844595 (-54) ].
Proof. vm_compute. repeat split. Qed.

(** ** The round loop after a failed tick *)

Lemma set_timeLeft_same s : set_timeLeft (timeLeft s) s = s.
Proof. now destruct s. Qed.

Lemma ticks_app envs1 envs2 sv db :
  ticks (envs1 ++ envs2) sv db =
  match ticks envs1 sv db with
  | Some (sv', db') => ticks envs2 sv' db'
  | None => None
  end.
Proof.
  revert sv db. induction envs1 as [| env envs1 IH]; intros sv db; simpl.
  - reflexivity.
  - destruct (tickTry env sv db) as [[sv' db'] |]; simpl; [apply IH | reflexivity].
Qed.

(** A tick that leaves time on the clock only decrements [timeLeft]. *)
Lemma tickTry_idle env sv db :
  (1 < timeLeft (session sv))%Z ->
  exists ap', tickTry env sv db =
    Some (mkService (set_timeLeft (timeLeft (session sv) - 1) (session sv)) ap', db).
Proof.
  intros H. unfold tickTry. simpl.
  destruct (Z.leb_spec (timeLeft (session sv) - 1) 0); [lia |].
  simpl. eauto.
Qed.

Lemma ticks_idle envs sv db :
  (Z.of_nat (length envs) < timeLeft (session sv))%Z ->
  exists ap', ticks envs sv db =
    Some (mkService
            (set_timeLeft (timeLeft (session sv) - Z.of_nat (length envs))
                          (session sv)) ap', db).
Proof.
  revert sv. induction envs as [| env envs IH]; intros sv H.
  - simpl. exists (activePlayers sv).
    rewrite Z.sub_0_r, set_timeLeft_same. now destruct sv.
  - simpl length in *.
    destruct (tickTry_idle env sv db) as [ap1 E1]; [lia |].
    simpl. rewrite E1. simpl.
    destruct (IH (mkService (set_timeLeft (timeLeft (session sv) - 1) (session sv)) ap1))
      as [ap2 E2]; [simpl; lia |].
    rewrite E2. simpl. exists ap2. do 3 f_equal.
    unfold set_timeLeft. simpl. f_equal. lia.
Qed.

(** The tick on which the timer reaches zero runs [nextPhase]. *)
Lemma tickTry_expiry env sv db :
  timeLeft (session sv) = 1%Z ->
  tickTry env sv db =
  match nextPhase env (set_timeLeft 0 (session sv)) db with
  | Some (s2, db') =>
      Some (mkService s2 (if (env_seconds env =? 0)%Z then ∅ else activePlayers sv), db')
  | None => None
  end.
Proof.
  intros H. unfold tickTry. rewrite H. simpl.
  destruct (nextPhase env _ db) as [[s2 db'] |]; reflexivity.
Qed.

(** From BETTING with [t] seconds left, [t] ticks lead to SPINNING. *)
Lemma ticks_through_betting envs env sv db :
  phase (session sv) = BETTING ->
  timeLeft (session sv) = (Z.of_nat (length envs) + 1)%Z ->
  exists ap', ticks (envs ++ [env]) sv db =
    Some (mkService (set_timeLeft ROUND_TIMES_SPINNING
                       (set_phase SPINNING (session sv))) ap', db).
Proof.
  intros Hp Ht. rewrite ticks_app.
  destruct (ticks_idle envs sv db) as [ap1 E1]; [lia |].
  rewrite E1. simpl. rewrite tickTry_expiry by (simpl; lia).
  unfold nextPhase. simpl. rewrite Hp. simpl. eauto.
Qed.

(** From SPINNING with [t] seconds left, [t] ticks settle the round, provided
    the grid generator returns. *)
Lemma ticks_through_spinning envs env sv db g :
  phase (session sv) = SPINNING ->
  timeLeft (session sv) = (Z.of_nat (length envs) + 1)%Z ->
  let s := session sv in
  let decision := decideRound (bets s) (adminDecision s) (roundCycle s) in
  run (generateSlotOutcome (env_fuel env) decision) (env_rnd env) = Some g ->
  exists ap', ticks (envs ++ [env]) sv db =
    Some (mkService (set_timeLeft ROUND_TIMES_RESULT
                       (set_phase RESULT (set_result (Some g) s))) ap',
          processPayouts s decision db).
Proof.
  intros Hp Ht s decision Hg. rewrite ticks_app.
  destruct (ticks_idle envs sv db) as [ap1 E1]; [lia |].
  rewrite E1. simpl. rewrite tickTry_expiry by (simpl; lia).
  unfold nextPhase. simpl. rewrite Hp. unfold calculateResult. simpl.
  fold s. fold decision. rewrite Hg. simpl. eauto.
Qed.

(** C10. The recovery path of a failed tick rewrites only [phase] (to
    BETTING) and [timeLeft] (to 10): [bets], [adminDecision], [result],
    [roundCount], [roundCycle] and [roundId] are as the failure left them.
    The bets placed before the failure are therefore still in the session,
    and the 25 ticks that follow (10 of BETTING, 15 of SPINNING) settle them
    with the decision the recovered round computes, once the grid generator
    returns. *)
Theorem tickCatch_rewrites_phase_and_timer_only (s : Session) :
  tickCatch s =
    mkSession (roundId s) BETTING 10 (roundCount s) (roundCycle s) (bets s)
              (adminDecision s) (result s) (lastRoundId s)
  /\ (phase (tickCatch s) = BETTING /\ timeLeft (tickCatch s) = 10%Z)
  /\ (bets (tickCatch s) = bets s
      /\ adminDecision (tickCatch s) = adminDecision s
      /\ result (tickCatch s) = result s
      /\ roundCount (tickCatch s) = roundCount s
      /\ roundCycle (tickCatch s) = roundCycle s
      /\ roundId (tickCatch s) = roundId s)
  /\ forall ap db envsB envB envsS envS g,
       length envsB = 9%nat -> length envsS = 14%nat ->
       let decision := decideRound (bets s) (adminDecision s) (roundCycle s) in
       run (generateSlotOutcome (env_fuel envS) decision) (env_rnd envS) = Some g ->
       exists ap',
         ticks ((envsB ++ [envB]) ++ (envsS ++ [envS]))
               (mkService (tickCatch s) ap) db =
         Some (mkService
                 (mkSession (roundId s) RESULT ROUND_TIMES_RESULT (roundCount s)
                            (roundCycle s) (bets s) (adminDecision s) (Some g)
                            (lastRoundId s)) ap',
               fold_left (settleBet (roundId s) decision) (bets s) db).
Proof.
  split; [reflexivity |]. split; [split; reflexivity |].
  split; [repeat split |].
  intros ap db envsB envB envsS envS g HB HS decision Hg.
  rewrite ticks_app.
  destruct (ticks_through_betting envsB envB (mkService (tickCatch s) ap) db)
    as [ap1 E1]; [reflexivity | simpl; lia |].
  destruct (ticks_through_spinning envsS envS
              (mkService (set_timeLeft ROUND_TIMES_SPINNING
                            (set_phase SPINNING (tickCatch s))) ap1) db g)
    as [ap2 E2]; [reflexivity | simpl; unfold ROUND_TIMES_SPINNING; lia | exact Hg |].
  cbn [session] in E1, E2. rewrite E1, E2. exists ap2. reflexivity.
Qed.

(** After a failure in SPINNING with one bet of 10 on [win] placed, the bet
    is still in the session 25 ticks later and has been settled (one
    transaction): the recovered round decides [loss] and the bet loses. *)
Lemma tickCatch_rewrites_phase_and_timer_only_witness :
  exists ap' g,
    ticks ((repeat (Fixtures.envAt 1 Fixtures.cycling) 9 ++ [Fixtures.envAt 1 Fixtures.cycling])
           ++ (repeat (Fixtures.envAt 1 Fixtures.cycling) 14 ++ [Fixtures.envAt 1 Fixtures.cycling]))
          (mkService (tickCatch Fixtures.spinning1) ∅) Fixtures.db0 =
    Some (mkService
            (mkSession 1700000000000 RESULT 10 0 None
                       [mkBet "alice" (Fin 10) "win"] None (Some g) None) ap',
          mkDb {[ "alice" := Fixtures.alice ]}
               [mkTransaction "alice" "game_loss" 10 "completed"
                  "Sweet Bonanza Lobby Loss (win)"
                  (LobbyMeta 1700000000000 10 "win")] [])
    /\ outcome g = "loss".
Proof.
  destruct (run (generateSlotOutcome 8 "loss") Fixtures.cycling) as [g |] eqn:Hg;
    [| vm_compute in Hg; discriminate].
  destruct (proj2 (proj2 (proj2
              (tickCatch_rewrites_phase_and_timer_only Fixtures.spinning1)))
              ∅ Fixtures.db0
              (repeat (Fixtures.envAt 1 Fixtures.cycling) 9)
              (Fixtures.envAt 1 Fixtures.cycling)
              (repeat (Fixtures.envAt 1 Fixtures.cycling) 14)
              (Fixtures.envAt 1 Fixtures.cycling) g eq_refl eq_refl Hg)
    as [ap' E].
  exists ap', g. split.
  - exact E.
  - revert Hg. vm_compute. intros [= <-]. reflexivity.
Defined.

(** ** Settlement of a lobby round *)

Import Accounting.

Lemma settleBet_anonymous rid o db b :
  userId b = "anonymous" -> settleBet rid o db b = db.
Proof. intros H. unfold settleBet. now rewrite H. Qed.

Lemma settleBet_unknown rid o db b :
  users db !! userId b = None -> settleBet rid o db b = db.
Proof.
  intros H. unfold settleBet. rewrite H.
  now destruct (String.eqb (userId b) "anonymous").
Qed.

Lemma settleBet_win rid o db b user :
  userId b <> "anonymous" -> users db !! userId b = Some user -> side b = o ->
  settleBet rid o db b =
  mkDb (<[userId b := set_balance (balance user + orZero (betAmount b) * 2)%Q user]>
          (users db))
       (transactions db ++
          [mkTransaction (userId b) "game_win" (orZero (betAmount b) * 2)%Q
             "completed" ("Sweet Bonanza Lobby Win (" ++ side b ++ ")")%string
             (LobbyMeta rid (orZero (betAmount b)) (side b))])
       (history db).
Proof.
  intros Ha Hu Hs. unfold settleBet. rewrite Hu.
  destruct (String.eqb_spec (userId b) "anonymous"); [contradiction |].
  destruct (String.eqb_spec (side b) o); [reflexivity | contradiction].
Qed.

Lemma settleBet_loss rid o db b user :
  userId b <> "anonymous" -> users db !! userId b = Some user -> side b <> o ->
  settleBet rid o db b =
  mkDb (users db)
       (transactions db ++
          [mkTransaction (userId b) "game_loss" (orZero (betAmount b))
             "completed" ("Sweet Bonanza Lobby Loss (" ++ side b ++ ")")%string
             (LobbyMeta rid (orZero (betAmount b)) (side b))])
       (history db).
Proof.
  intros Ha Hu Hs. unfold settleBet. rewrite Hu.
  destruct (String.eqb_spec (userId b) "anonymous"); [contradiction |].
  destruct (String.eqb_spec (side b) o); [contradiction | reflexivity].
Qed.

(** The effect of one bet on the balance of a user the database knows. *)
Lemma settleBet_balance rid o db b uid u :
  uid <> "anonymous" -> users db !! uid = Some u ->
  exists u',
    users (settleBet rid o db b) !! uid = Some u'
    /\ balance u' =
       (if String.eqb (userId b) uid && String.eqb (side b) o
        then (balance u + orZero (betAmount b) * 2)%Q else balance u).
Proof.
  intros Ha Hu.
  destruct (String.eqb_spec (userId b) uid) as [E | E]; simpl.
  - subst uid. destruct (String.eqb_spec (side b) o) as [Es | Es].
    + rewrite (settleBet_win rid o db b u Ha Hu Es). simpl.
      rewrite lookup_insert_eq. eexists. split; reflexivity.
    + rewrite (settleBet_loss rid o db b u Ha Hu Es). simpl. eauto.
  - exists u. split; [| reflexivity].
    destruct (String.eqb_spec (userId b) "anonymous") as [Eb | Eb].
    { now rewrite settleBet_anonymous. }
    destruct (users db !! userId b) as [ub |] eqn:Hb.
    + destruct (String.eqb_spec (side b) o) as [Es | Es].
      * rewrite (settleBet_win rid o db b ub Eb Hb Es). simpl.
        now rewrite lookup_insert_ne.
      * now rewrite (settleBet_loss rid o db b ub Eb Hb Es).
    + now rewrite settleBet_unknown.
Qed.

Lemma processPayouts_balance bs rid o db uid u :
  uid <> "anonymous" -> users db !! uid = Some u ->
  exists u',
    users (fold_left (settleBet rid o) bs db) !! uid = Some u'
    /\ (balance u' == balance u + credited uid o bs)%Q.
Proof.
  intros Ha. revert db u. induction bs as [| b bs IH]; intros db u Hu; simpl.
  - exists u. split; [exact Hu | ring].
  - destruct (settleBet_balance rid o db b uid u Ha Hu) as (u1 & Hu1 & Hb1).
    destruct (IH _ _ Hu1) as (u' & Hu' & Hb').
    exists u'. split; [exact Hu' |].
    rewrite Hb', Hb1.
    destruct (String.eqb (userId b) uid && String.eqb (side b) o); ring.
Qed.

(** C1 (as amended). When [processPayouts] settles the bet of a known,
    non-anonymous user, a win credits exactly twice the stake to the
    bettor's balance (no other balance moves) and appends a [game_win]
    transaction of that amount; a loss leaves every balance as it is and
    appends a [game_loss] transaction of the stake: the lobby settlement has
    no debit.  Over a whole round the bettor's balance ends at its initial
    value plus twice the stakes of the bettor's winning bets. *)
Theorem lobby_settlement_credits_wins_and_never_debits
    (rid : Z) (o : string) (db : Db) (b : Bet) (user : User) :
  userId b <> "anonymous" -> users db !! userId b = Some user ->
  let stake := orZero (betAmount b) in
  let db' := settleBet rid o db b in
  (side b = o ->
     users db' !! userId b = Some (set_balance (balance user + stake * 2)%Q user)
     /\ (forall uid, uid <> userId b -> users db' !! uid = users db !! uid)
     /\ exists t, transactions db' = transactions db ++ [t]
                  /\ tx_user t = userId b /\ tx_type t = "game_win"
                  /\ tx_amount t = (stake * 2)%Q)
  /\ (side b <> o ->
        users db' = users db
        /\ exists t, transactions db' = transactions db ++ [t]
                     /\ tx_user t = userId b /\ tx_type t = "game_loss"
                     /\ tx_amount t = stake)
  /\ forall s, exists u',
       users (processPayouts s o db) !! userId b = Some u'
       /\ (balance u' == balance user + credited (userId b) o (bets s))%Q.
Proof.
  intros Ha Hu stake db'. subst stake db'. split; [| split].
  - intros Hs. rewrite (settleBet_win rid o db b user Ha Hu Hs). simpl.
    split; [apply lookup_insert_eq |]. split.
    + intros uid Hne. apply lookup_insert_ne. congruence.
    + eexists. split; [reflexivity |]. simpl. auto.
  - intros Hs. rewrite (settleBet_loss rid o db b user Ha Hu Hs). simpl.
    split; [reflexivity |]. eexists. split; [reflexivity |]. simpl. auto.
  - intros s. apply processPayouts_balance; assumption.
Qed.

(** A bet of 10 on [win] by a user with 100, settled against [win]: the
    balance becomes 120. *)
Lemma lobby_settlement_credits_wins_and_never_debits_witness :
  balance <$> (users (settleBet 1 "win" Fixtures.db0 (mkBet "alice" (Fin 10) "win"))
               !! "alice") = Some (100 + 10 * 2)%Q.
Proof.
  pose proof (lobby_settlement_credits_wins_and_never_debits
                1 "win" Fixtures.db0 (mkBet "alice" (Fin 10) "win") Fixtures.alice
                ltac:(discriminate) eq_refl) as H.
  cbv zeta in H. destruct H as [Hwin _].
  destruct (Hwin eq_refl) as [Hb _]. simpl in Hb.
  rewrite Hb. reflexivity.
Defined.

(** C1 as stated fails: a bet of 10 on [win] settled against [loss] leaves
    the balance of 100 at 100 (a debit of the stake would make it 90), while
    the ledger receives a [game_loss] transaction of 10. *)
Lemma lobby_loss_leaves_balance_unchanged :
  balance <$> (users (processPayouts Fixtures.spinning1 "loss" Fixtures.db0)
               !! "alice") = Some 100%Q
  /\ Qeq_bool 100 (100 - 10) = false
  /\ map tx_type (transactions (processPayouts Fixtures.spinning1 "loss" Fixtures.db0))
     = ["game_loss"]
  /\ map tx_amount (transactions (processPayouts Fixtures.spinning1 "loss" Fixtures.db0))
     = [10%Q].
Proof. vm_compute. repeat split. Qed.

(** ** Ledger records *)

Lemma bind_some {A B : Type} (m : Gen A) (f : A -> Gen B) rnd i a j :
  m rnd i = Some (a, j) -> (m ≫= f) rnd i = f a rnd j.
Proof. intros H. unfold mbind, Gen_bind. now rewrite H. Qed.

Lemma total_ret {A : Type} (a : A) : total (mret a).
Proof. intros rnd i. now exists a, i. Qed.

Lemma total_random : total random.
Proof. intros rnd i. now exists (draw_val (rnd i)), (S i). Qed.

Lemma total_bind {A B : Type} (m : Gen A) (f : A -> Gen B) :
  total m -> (forall a, total (f a)) -> total (m ≫= f).
Proof.
  intros Hm Hf rnd i. destruct (Hm rnd i) as (a & j & E).
  destruct (Hf a rnd j) as (b & k & E').
  exists b, k. now rewrite (bind_some _ _ _ _ _ _ E).
Qed.

Lemma total_fill {A : Type} n (g : Gen A) : total g -> total (fill n g).
Proof.
  intros Hg. induction n as [| n IH]; simpl.
  - apply total_ret.
  - apply total_bind; [exact Hg |]. intros x.
    apply total_bind; [exact IH |]. intros xs. apply total_ret.
Qed.

Lemma total_forEach {A S : Type} (body : S -> A -> Gen S) l s :
  (forall s x, total (body s x)) -> total (forEach body l s).
Proof.
  intros Hb. revert s. induction l as [| x l IH]; intros s; simpl.
  - apply total_ret.
  - apply total_bind; [apply Hb |]. intros s'. apply IH.
Qed.

Lemma total_if {A : Type} (c : bool) (g h : Gen A) :
  total g -> total h -> total (if c then g else h).
Proof. now destruct c. Qed.

Create HintDb total.

#[local] Hint Resolve total_ret total_random total_fill total_forEach : total.

Lemma total_getWeightedSymbol : total Solo.getWeightedSymbol.
Proof. apply total_bind; [apply total_random |]. intros. apply total_ret. Qed.

Lemma total_lineStep bet st e : total (Solo.lineStep bet st e).
Proof.
  unfold Solo.lineStep. destruct st as [tw wp].
  repeat (apply total_if; auto with total).
  apply total_bind; [apply total_random |]. intros u.
  apply total_if; auto with total.
Qed.

Lemma total_scatterStep bet rs st : total (Solo.scatterStep bet rs st).
Proof.
  unfold Solo.scatterStep. destruct st as [tw wp].
  repeat (apply total_if; auto with total).
  apply total_bind; [apply total_random |]. intros u.
  apply total_if; auto with total.
Qed.

Lemma total_evaluateReels bet rs : total (Solo.evaluateReels bet rs).
Proof.
  unfold Solo.evaluateReels.
  apply total_bind; [apply total_forEach; apply total_lineStep |]. intros st.
  apply total_bind; [apply total_scatterStep |]. intros st'. apply total_ret.
Qed.

Lemma total_generateReelResult bet : total (Solo.generateReelResult bet).
Proof.
  unfold Solo.generateReelResult. apply total_bind.
  - apply total_fill, total_fill, total_getWeightedSymbol.
  - apply total_evaluateReels.
Qed.

Lemma total_drawLossMultiplier : total Solo.drawLossMultiplier.
Proof.
  unfold Solo.drawLossMultiplier.
  apply total_bind; [apply total_random |]. intros u.
  repeat apply total_if;
    (apply total_bind; [apply total_random |]; intros; apply total_ret).
Qed.

Lemma total_computeLoss bet userBalance actualWin :
  total (Solo.computeLoss bet userBalance actualWin).
Proof.
  unfold Solo.computeLoss. apply total_bind.
  - apply total_if; [| apply total_ret].
    apply total_bind; [apply total_drawLossMultiplier |]. intros. apply total_ret.
  - intros. apply total_ret.
Qed.

(** Closes the goal of a request that ends in a rejection. *)
Ltac answer_rejected := eexists _, _; split; [reflexivity | exact I].

(** [playGame] always answers, and a request it plays appends one
    transaction and one history record of the player. *)
Lemma playGame_appends_one_of_each body uid db rnd i :
  exists res j,
    Solo.playGame body uid db rnd i = Some (res, j)
    /\ match res with
       | Solo.Played r db' =>
           exists t h,
             transactions db' = transactions db ++ [t]
             /\ history db' = history db ++ [h]
             /\ tx_user t = uid /\ bh_user h = uid
             /\ bh_referenceId h = length (transactions db)
       | Solo.Rejected _ => True
       end.
Proof.
  unfold Solo.playGame.
  destruct (Solo.validateBet body) as [e | bet]; [answer_rejected |].
  destruct (users db !! uid) as [user |]; [| answer_rejected].
  destruct (negb (status user =? "active")%string && negb (status user =? "pending")%string);
    [answer_rejected |].
  destruct (Qltb (balance user) bet); [answer_rejected |].
  destruct (total_generateReelResult bet rnd i) as (gr & j & Eg).
  rewrite (bind_some _ _ _ _ _ _ Eg).
  destruct (total_computeLoss bet (balance user) (Qmax 0 (Solo.winAmount gr)) rnd j)
    as (loss & k & El).
  rewrite (bind_some _ _ _ _ _ _ El).
  match goal with |- context [if ?c then mret (Solo.Rejected _) else _] =>
    destruct c end.
  - answer_rejected.
  - eexists _, _; split; [reflexivity |]. simpl.
    eexists _, _. repeat split.
Qed.

Lemma settles_true db b :
  settles db b = true <->
  userId b <> "anonymous" /\ exists user, users db !! userId b = Some user.
Proof.
  unfold settles. rewrite andb_true_iff, negb_true_iff, bool_decide_eq_true.
  destruct (String.eqb_spec (userId b) "anonymous"); unfold is_Some;
    intuition congruence.
Qed.

Lemma settleBet_skips rid o db b :
  settles db b = false -> settleBet rid o db b = db.
Proof.
  unfold settles. rewrite andb_false_iff, negb_false_iff, bool_decide_eq_false.
  intros [H | H].
  - apply settleBet_anonymous. now apply String.eqb_eq.
  - apply settleBet_unknown. destruct (users db !! userId b); [| reflexivity].
    exfalso. apply H. eauto.
Qed.

Lemma settleBet_writes rid o db b :
  settles db b = true ->
  exists t,
    transactions (settleBet rid o db b) = transactions db ++ [t]
    /\ tx_user t = userId b
    /\ history (settleBet rid o db b) = history db.
Proof.
  intros H. apply settles_true in H. destruct H as [Ha [user Hu]].
  destruct (String.eqb_spec (side b) o) as [Es | Es].
  - rewrite (settleBet_win rid o db b user Ha Hu Es). simpl. eauto.
  - rewrite (settleBet_loss rid o db b user Ha Hu Es). simpl. eauto.
Qed.

(** Settling a bet neither adds nor removes a user. *)
Lemma settleBet_known rid o db b uid :
  is_Some (users (settleBet rid o db b) !! uid) <-> is_Some (users db !! uid).
Proof.
  destruct (settles db b) eqn:E.
  - apply settles_true in E. destruct E as [Ha [user Hu]].
    destruct (String.eqb_spec (side b) o) as [Es | Es].
    + rewrite (settleBet_win rid o db b user Ha Hu Es). simpl.
      destruct (decide (userId b = uid)) as [<- | Hne].
      * rewrite lookup_insert_eq, Hu. split; eauto.
      * now rewrite lookup_insert_ne.
    + now rewrite (settleBet_loss rid o db b user Ha Hu Es).
  - now rewrite settleBet_skips.
Qed.

Lemma settles_after rid o db b b' :
  settles (settleBet rid o db b) b' = settles db b'.
Proof.
  unfold settles. f_equal. apply bool_decide_ext, settleBet_known.
Qed.

Lemma processPayouts_records bs rid o db :
  history (fold_left (settleBet rid o) bs db) = history db
  /\ length (transactions (fold_left (settleBet rid o) bs db)) =
     (length (transactions db)
      + length (filter (fun b => settles db b = true) bs))%nat.
Proof.
  revert db. induction bs as [| b bs IH]; intros db; simpl.
  - split; [reflexivity | lia].
  - destruct (IH (settleBet rid o db b)) as [Hh Ht].
    rewrite Hh, Ht. rewrite filter_cons.
    assert (Hf : filter (fun b' => settles (settleBet rid o db b) b' = true) bs
                 = filter (fun b' => settles db b' = true) bs).
    { apply list_filter_iff. intros b'. now rewrite settles_after. }
    rewrite Hf. destruct (settles db b) eqn:E.
    + destruct (settleBet_writes rid o db b E) as (t & Et & _ & Eh).
      rewrite Et, Eh, length_app. rewrite decide_True by reflexivity.
      simpl. split; [reflexivity | lia].
    + rewrite (settleBet_skips rid o db b E).
      rewrite decide_False by discriminate. split; [reflexivity | lia].
Qed.

(** C2 (as amended). A bet the lobby settles (not anonymous, of a known
    user) appends exactly one Transaction and no BalanceHistory record; a
    bet it skips writes nothing; so a round appends one transaction per
    settled bet and leaves the history collection as it was.  Every solo
    request is answered, and one that is played appends exactly one
    Transaction and exactly one BalanceHistory record of the player. *)
Theorem ledger_records_per_settlement_and_play :
  (forall rid o db b, settles db b = true ->
     exists t,
       transactions (settleBet rid o db b) = transactions db ++ [t]
       /\ tx_user t = userId b
       /\ history (settleBet rid o db b) = history db)
  /\ (forall rid o db b, settles db b = false -> settleBet rid o db b = db)
  /\ (forall s o db,
        history (processPayouts s o db) = history db
        /\ length (transactions (processPayouts s o db)) =
           (length (transactions db)
            + length (filter (fun b => settles db b = true) (bets s)))%nat)
  /\ (forall body uid db rnd i,
        exists res j,
          Solo.playGame body uid db rnd i = Some (res, j)
          /\ match res with
             | Solo.Played r db' =>
                 exists t h,
                   transactions db' = transactions db ++ [t]
                   /\ history db' = history db ++ [h]
                   /\ tx_user t = uid /\ bh_user h = uid
                   /\ bh_referenceId h = length (transactions db)
             | Solo.Rejected _ => True
             end).
Proof.
  split; [exact settleBet_writes |].
  split; [exact settleBet_skips |].
  split; [intros s o db; apply processPayouts_records |].
  exact playGame_appends_one_of_each.
Qed.

(** C2 as stated fails in the lobby: settling one bet appends one
    transaction and no BalanceHistory record. *)
Lemma lobby_settlement_writes_no_history :
  length (transactions (processPayouts Fixtures.spinning1 "win" Fixtures.db0)) = 1%nat
  /\ length (history (processPayouts Fixtures.spinning1 "win" Fixtures.db0)) = 0%nat.
Proof. vm_compute. split; reflexivity. Qed.

(** ** Scatter wins in solo play *)

Lemma scatterStep_five bet rs st rnd i :
  Solo.scatterCount rs = 5%nat ->
  Solo.scatterStep bet rs st rnd i =
  Some ((fst st + bet * (3 # 2))%Q, snd st ++ Solo.scatterPositions rs, i).
Proof. intros H. unfold Solo.scatterStep. destruct st. now rewrite H. Qed.

Lemma scatterStep_six bet rs st rnd i :
  Solo.scatterCount rs = 6%nat ->
  Solo.scatterStep bet rs st rnd i =
  Some ((fst st + bet * (5 # 2))%Q, snd st ++ Solo.scatterPositions rs, i).
Proof. intros H. unfold Solo.scatterStep. destruct st. now rewrite H. Qed.

Lemma scatterStep_four bet rs st rnd i :
  Solo.scatterCount rs = 4%nat ->
  Solo.scatterStep bet rs st rnd i =
  Some ((fst st + bet * 1)%Q, snd st ++ Solo.scatterPositions rs, i).
Proof. intros H. unfold Solo.scatterStep. destruct st. now rewrite H. Qed.

Lemma scatterStep_three bet rs st rnd i :
  Solo.scatterCount rs = 3%nat ->
  Solo.scatterStep bet rs st rnd i =
  Some (if Qltb (draw_val (rnd i)) (2 # 10)
        then ((fst st + bet * (6 # 10))%Q, snd st ++ Solo.scatterPositions rs)
        else st, S i).
Proof.
  intros H. unfold Solo.scatterStep. destruct st as [tw wp]. rewrite H. simpl.
  unfold mbind, Gen_bind, random.
  now destruct (Qltb (draw_val (rnd i)) (2 # 10)).
Qed.

(** C5 (as amended). In [generateReelResult] a grid with exactly 5 scatter
    symbols adds 1.5 times the bet to the win and one with exactly 6 adds
    2.5 times the bet, whatever the oracle; a grid with exactly 4 scatters
    also pays always, a flat 1.0 times the bet, without consulting the
    oracle; only a grid with exactly 3 scatters pays by chance: it adds 0.6
    times the bet when the next draw is below 0.2 and nothing otherwise, and
    both kinds of draw exist. *)
Theorem scatter_pay_is_flat_from_four_and_random_at_three
    (bet : Q) (rs : Solo.Reels) (st : Solo.WinState) (rnd : nat -> draw) (i : nat) :
  (Solo.scatterCount rs = 5%nat ->
     Solo.scatterStep bet rs st rnd i =
     Some ((fst st + bet * (3 # 2))%Q, snd st ++ Solo.scatterPositions rs, i))
  /\ (Solo.scatterCount rs = 6%nat ->
        Solo.scatterStep bet rs st rnd i =
        Some ((fst st + bet * (5 # 2))%Q, snd st ++ Solo.scatterPositions rs, i))
  /\ (Solo.scatterCount rs = 4%nat ->
        Solo.scatterStep bet rs st rnd i =
        Some ((fst st + bet * 1)%Q, snd st ++ Solo.scatterPositions rs, i))
  /\ (Solo.scatterCount rs = 3%nat ->
        Solo.scatterStep bet rs st rnd i =
        Some (if Qltb (draw_val (rnd i)) (2 # 10)
              then ((fst st + bet * (6 # 10))%Q,
                    snd st ++ Solo.scatterPositions rs)
              else st, S i))
  /\ (exists u : draw, Qltb (draw_val u) (2 # 10) = true)
  /\ (exists u : draw, Qltb (draw_val u) (2 # 10) = false).
Proof.
  split; [apply scatterStep_five |].
  split; [apply scatterStep_six |].
  split; [apply scatterStep_four |].
  split; [apply scatterStep_three |].
  split.
  - exists (Fixtures.toDraw (1 # 10)). reflexivity.
  - exists (Fixtures.toDraw (1 # 2)). reflexivity.
Qed.

(** A three-scatter grid, a bet of 10: a draw of 1/10 pays 6, a draw of 1/2
    pays nothing. *)
Lemma scatter_pay_is_flat_from_four_and_random_at_three_witness :
  (fst <$> Solo.scatterStep 10 Fixtures.threeScatters (0%Q, [])
             (fun _ => Fixtures.toDraw (1 # 10)) 0)
  = Some ((0 + 10 * (6 # 10))%Q, Solo.scatterPositions Fixtures.threeScatters)
  /\ (fst <$> Solo.scatterStep 10 Fixtures.threeScatters (0%Q, [])
                (fun _ => Fixtures.toDraw (1 # 2)) 0)
     = Some (0%Q, []).
Proof.
  split.
  - rewrite (proj1 (proj2 (proj2 (proj2
       (scatter_pay_is_flat_from_four_and_random_at_three
          10 Fixtures.threeScatters (0%Q, []) (fun _ => Fixtures.toDraw (1 # 10)) 0))))
       eq_refl).
    reflexivity.
  - rewrite (proj1 (proj2 (proj2 (proj2
       (scatter_pay_is_flat_from_four_and_random_at_three
          10 Fixtures.threeScatters (0%Q, []) (fun _ => Fixtures.toDraw (1 # 2)) 0))))
       eq_refl).
    reflexivity.
Defined.

(** C5 as stated fails for four scatters: on a grid with exactly 4 scatter
    symbols the scatter step is the constant computation that adds the bet
    (here 1) and makes no draw, so no draw leaves the grid unpaid; with a
    draw of 99/100, which pays neither a 3-of-a-kind nor a 3-scatter grid,
    the whole evaluation still pays the bet. *)
Lemma four_scatters_always_pay :
  Solo.scatterCount Fixtures.fourScatters = 4%nat
  /\ Solo.scatterStep 1 Fixtures.fourScatters (0%Q, []) =
     mret ((0 + 1 * 1)%Q, Solo.scatterPositions Fixtures.fourScatters)
  /\ ((fun r => Qeq_bool (Solo.winAmount r) 1) <$>
        run (Solo.evaluateReels 1 Fixtures.fourScatters)
            (fun _ => Fixtures.toDraw (99 # 100)))
     = Some true.
Proof.
  split; [reflexivity |]. split; [reflexivity |].
  vm_compute. reflexivity.
Qed.

(** ** The loss multiplier of solo play *)

Lemma draw_bounds (u : draw) : (0 <= draw_val u < 1)%Q.
Proof.
  destruct u as [q H]. simpl. unfold in_unit in H.
  apply andb_true_iff in H. destruct H as [H0 H1].
  split; [now apply Qle_bool_iff | now apply Qltb_lt].
Qed.

(** The two draws of [drawLossMultiplier] and the band each pair selects. *)
Lemma drawLossMultiplier_bands rnd i :
  let u1 := draw_val (rnd i) in
  let u2 := draw_val (rnd (S i)) in
  exists m,
    Solo.drawLossMultiplier rnd i = Some (m, S (S i))
    /\ ((u1 < 25 # 100)%Q ->
          m = (1 + u2 * (15 # 100))%Q /\ (1 <= m < 115 # 100)%Q)
    /\ ((25 # 100 <= u1 < 6 # 10)%Q ->
          m = ((115 # 100) + u2 * (20 # 100))%Q /\ (115 # 100 <= m < 135 # 100)%Q)
    /\ ((6 # 10 <= u1 < 85 # 100)%Q ->
          m = ((135 # 100) + u2 * (25 # 100))%Q /\ (135 # 100 <= m < 16 # 10)%Q)
    /\ ((85 # 100 <= u1)%Q ->
          m = ((16 # 10) + u2 * (20 # 100))%Q /\ (16 # 10 <= m < 18 # 10)%Q)
    /\ (1 <= m < 18 # 10)%Q.
Proof.
  intros u1 u2.
  pose proof (draw_bounds (rnd i)) as B1. pose proof (draw_bounds (rnd (S i))) as B2.
  fold u1 in B1. fold u2 in B2.
  unfold Solo.drawLossMultiplier, mbind, Gen_bind, random, mret, Gen_ret.
  fold u1.
  destruct (Qltb u1 (25 # 100)) eqn:E1.
  { apply Qltb_lt in E1. eexists. split; [reflexivity |]. fold u2.
    repeat split; intros; try lra. }
  apply Qltb_ge in E1.
  destruct (Qltb u1 (6 # 10)) eqn:E2.
  { apply Qltb_lt in E2. eexists. split; [reflexivity |]. fold u2.
    repeat split; intros; try lra. }
  apply Qltb_ge in E2.
  destruct (Qltb u1 (85 # 100)) eqn:E3.
  { apply Qltb_lt in E3. eexists. split; [reflexivity |]. fold u2.
    repeat split; intros; try lra. }
  apply Qltb_ge in E3.
  eexists. split; [reflexivity |]. fold u2.
  repeat split; intros; try lra.
Qed.

Lemma validateBet_accepts body bet :
  Solo.validateBet body = inr bet ->
  body = Solo.Numeric bet /\ (1 <= bet <= Solo.MAX_BET)%Q.
Proof.
  unfold Solo.validateBet. destruct body as [| | q]; try discriminate.
  destruct (Qeq_bool q 0); [discriminate |].
  destruct (Qle_bool q 0); [discriminate |].
  destruct (Qltb q 1) eqn:E1; [discriminate |].
  destruct (Qltb Solo.MAX_BET q) eqn:E2; [discriminate |].
  intros [= <-]. apply Qltb_ge in E1, E2. auto.
Qed.

(** The debit of a play that wins nothing: the stake times the drawn
    multiplier, capped at the balance. *)
Lemma computeLoss_no_win bet userBalance actualWin rnd i :
  Qeq_bool actualWin 0 = true -> (0 < bet)%Q -> (bet <= userBalance)%Q ->
  exists m loss,
    Solo.drawLossMultiplier rnd i = Some (m, S (S i))
    /\ (1 <= m < 18 # 10)%Q
    /\ Solo.computeLoss bet userBalance actualWin rnd i = Some (loss, S (S i))
    /\ loss = (if Qltb userBalance (bet * m) then userBalance else (bet * m)%Q)
    /\ (loss <= userBalance)%Q
    /\ (bet <= loss)%Q
    /\ (loss <= bet * m)%Q.
Proof.
  intros Hw Hb Hu.
  destruct (drawLossMultiplier_bands rnd i) as (m & Em & _ & _ & _ & _ & Hm).
  exists m, (if Qltb userBalance (bet * m) then userBalance else (bet * m)%Q).
  split; [exact Em |]. split; [exact Hm |].
  assert (Hbm : (bet <= bet * m)%Q) by nra.
  unfold Solo.computeLoss. rewrite Hw.
  rewrite (bind_some _ _ _ _ _ _
             (bind_some _ _ _ _ _ _ Em : (Solo.drawLossMultiplier ≫= _) rnd i = _)).
  unfold mret, Gen_ret.
  destruct (Qltb userBalance (bet * m)) eqn:E.
  - apply Qltb_lt in E.
    rewrite (Qmax_of_le 0 userBalance) by lra.
    rewrite (Qmin_of_le userBalance userBalance) by lra.
    rewrite (Qmax_of_le 0 userBalance) by lra.
    repeat split; lra.
  - apply Qltb_ge in E.
    rewrite (Qmax_of_le 0 (bet * m)) by lra.
    rewrite (Qmin_of_le (bet * m) userBalance) by lra.
    rewrite (Qmax_of_le 0 (bet * m)) by lra.
    repeat split; lra.
Qed.

(** What a played request returns. *)
Lemma playGame_played body uid db rnd i r db' k :
  Solo.playGame body uid db rnd i = Some (Solo.Played r db', k) ->
  exists bet user gr j,
    Solo.validateBet body = inr bet
    /\ users db !! uid = Some user
    /\ (bet <= balance user)%Q
    /\ Solo.generateReelResult bet rnd i = Some (gr, j)
    /\ Solo.computeLoss bet (balance user) (Qmax 0 (Solo.winAmount gr)) rnd j
       = Some (Solo.res_actualLoss r, k)
    /\ Solo.res_betAmount r = bet
    /\ Solo.res_winAmount r = Qmax 0 (Solo.winAmount gr)
    /\ Solo.res_initialBalance r = balance user
    /\ Solo.res_lossMultiplier r =
       (if Qeq_bool (Solo.res_winAmount r) 0
        then Some (Solo.res_actualLoss r / bet)%Q else None)
    /\ Solo.res_newBalance r =
       (if Qltb 0 (Solo.res_winAmount r)
        then (Qmax 0 (balance user - Solo.res_actualLoss r) + Solo.res_winAmount r)%Q
        else Qmax 0 (balance user - Solo.res_actualLoss r))
    /\ (balance <$> users db' !! uid) = Some (Solo.res_newBalance r).
Proof.
  unfold Solo.playGame.
  destruct (Solo.validateBet body) as [e | bet]; [discriminate |].
  destruct (users db !! uid) as [user |]; [| discriminate].
  destruct (negb (status user =? "active")%string && negb (status user =? "pending")%string);
    [discriminate |].
  destruct (Qltb (balance user) bet) eqn:Eb; [discriminate |].
  apply Qltb_ge in Eb.
  destruct (total_generateReelResult bet rnd i) as (gr & j & Eg).
  rewrite (bind_some _ _ _ _ _ _ Eg).
  destruct (total_computeLoss bet (balance user) (Qmax 0 (Solo.winAmount gr)) rnd j)
    as (loss & k' & El).
  rewrite (bind_some _ _ _ _ _ _ El).
  match goal with |- context [if ?c then mret (Solo.Rejected _) else _] =>
    destruct c end; [discriminate |].
  intros [= <- <- <-].
  exists bet, user, gr, j. simpl.
  repeat split; try assumption; try reflexivity.
  - destruct (Qltb 0 (Qmax 0 (Solo.winAmount gr))); reflexivity.
  - rewrite lookup_insert_eq. simpl.
    destruct (Qltb 0 (Qmax 0 (Solo.winAmount gr))); reflexivity.
Qed.

(** C6. In a solo play that wins nothing the loss multiplier comes from two
    draws: the first selects one of four bands, the second the point in it.
    The multiplier is in [1.00, 1.15) exactly when the first draw is below
    0.25, in [1.15, 1.35) exactly when it is in [0.25, 0.60), in
    [1.35, 1.60) exactly when it is in [0.60, 0.85), and in [1.60, 1.80)
    exactly when it is at least 0.85 (intervals of length 0.25, 0.35, 0.25
    and 0.15 of the unit interval); so it always lies in [1.0, 1.8).  The
    debit of such a play is the stake times the multiplier capped at the
    balance read before the play: it never exceeds that balance, the
    reported multiplier (debit over stake) is in [1.0, 1.8) too, and the new
    balance is the old one less the debit. *)
Theorem loss_multiplier_bands_and_debit_cap :
  (forall rnd i,
     let u1 := draw_val (rnd i) in
     let u2 := draw_val (rnd (S i)) in
     exists m,
       Solo.drawLossMultiplier rnd i = Some (m, S (S i))
       /\ ((u1 < 25 # 100)%Q ->
             m = (1 + u2 * (15 # 100))%Q /\ (1 <= m < 115 # 100)%Q)
       /\ ((25 # 100 <= u1 < 6 # 10)%Q ->
             m = ((115 # 100) + u2 * (20 # 100))%Q
             /\ (115 # 100 <= m < 135 # 100)%Q)
       /\ ((6 # 10 <= u1 < 85 # 100)%Q ->
             m = ((135 # 100) + u2 * (25 # 100))%Q
             /\ (135 # 100 <= m < 16 # 10)%Q)
       /\ ((85 # 100 <= u1)%Q ->
             m = ((16 # 10) + u2 * (20 # 100))%Q /\ (16 # 10 <= m < 18 # 10)%Q)
       /\ ((m < 115 # 100)%Q <-> (u1 < 25 # 100)%Q)
       /\ ((115 # 100 <= m < 135 # 100)%Q <-> (25 # 100 <= u1 < 6 # 10)%Q)
       /\ ((135 # 100 <= m < 16 # 10)%Q <-> (6 # 10 <= u1 < 85 # 100)%Q)
       /\ ((16 # 10 <= m)%Q <-> (85 # 100 <= u1)%Q)
       /\ (1 <= m < 18 # 10)%Q)
  /\ (forall body uid db rnd i r db' k,
        Solo.playGame body uid db rnd i = Some (Solo.Played r db', k) ->
        Qeq_bool (Solo.res_winAmount r) 0 = true ->
        exists m j,
          Solo.drawLossMultiplier rnd j = Some (m, k)
          /\ (1 <= m < 18 # 10)%Q
          /\ Solo.res_actualLoss r =
             (if Qltb (Solo.res_initialBalance r) (Solo.res_betAmount r * m)
              then Solo.res_initialBalance r
              else (Solo.res_betAmount r * m)%Q)
          /\ (Solo.res_actualLoss r <= Solo.res_initialBalance r)%Q
          /\ Solo.res_lossMultiplier r =
             Some (Solo.res_actualLoss r / Solo.res_betAmount r)%Q
          /\ (1 <= Solo.res_actualLoss r / Solo.res_betAmount r < 18 # 10)%Q
          /\ (Solo.res_newBalance r ==
              Solo.res_initialBalance r - Solo.res_actualLoss r)%Q).
Proof.
  split.
  - intros rnd i u1 u2.
    destruct (drawLossMultiplier_bands rnd i) as (m & Em & H1 & H2 & H3 & H4 & Hm).
    fold u1 u2 in H1, H2, H3, H4.
    exists m. split; [exact Em |].
    do 4 (split; [assumption |]).
    assert (Hcases : (u1 < 25 # 100)%Q \/ (25 # 100 <= u1 < 6 # 10)%Q
                     \/ (6 # 10 <= u1 < 85 # 100)%Q \/ (85 # 100 <= u1)%Q).
    { destruct (Qlt_le_dec u1 (25 # 100)); [auto |].
      destruct (Qlt_le_dec u1 (6 # 10)); [auto |].
      destruct (Qlt_le_dec u1 (85 # 100)); auto. }
    destruct Hcases as [C | [C | [C | C]]];
      [ destruct (H1 C) as [_ Bm] | destruct (H2 C) as [_ Bm]
      | destruct (H3 C) as [_ Bm] | destruct (H4 C) as [_ Bm] ];
      repeat split; intros; lra.
  - intros body uid db rnd i r db' k Hplay Hzero.
    destruct (playGame_played _ _ _ _ _ _ _ _ Hplay)
      as (bet & user & gr & j & Hv & Hu & Hbal & Hg & Hl & Hbet & Hwin & Hinit & Hmul & Hnew & _).
    apply validateBet_accepts in Hv. destruct Hv as [_ [Hb1 _]].
    assert (Hb0 : (0 < bet)%Q) by lra.
    rewrite <- Hwin in Hl.
    destruct (computeLoss_no_win bet (balance user) (Solo.res_winAmount r) rnd j
                Hzero Hb0 Hbal)
      as (m & loss & Em & Hm & El & Eloss & Hle & Hge & Hlm).
    rewrite El in Hl. injection Hl as Hloss Hk. subst k.
    exists m, j. rewrite Hbet, Hinit, <- Hloss.
    split; [exact Em |]. split; [exact Hm |]. split; [exact Eloss |].
    split; [exact Hle |]. split; [rewrite Hmul, Hzero, <- Hloss; reflexivity |].
    split.
    + split.
      * apply Qle_shift_div_l; [exact Hb0 | lra].
      * apply Qlt_shift_div_r; [exact Hb0 |]. nra.
    + rewrite Hnew.
      assert (Hnw : Qltb 0 (Solo.res_winAmount r) = false).
      { apply Qltb_ge. apply Qeq_bool_iff in Hzero. rewrite Hzero. lra. }
      rewrite Hnw, <- Hloss. rewrite Qmax_of_le by lra. reflexivity.
Qed.

(** The scenario of the specification: balance 100, stake 10, a grid with no
    paying combination.  The draws select the multiplier 1.25: the debit is
    12.5 and the new balance 87.5. *)
Lemma loss_multiplier_bands_and_debit_cap_witness :
  exists r db' k,
    Solo.playGame (Solo.Numeric 10) "alice" Fixtures.db0 Fixtures.noCombo 0
    = Some (Solo.Played r db', k)
    /\ Qeq_bool (Solo.res_winAmount r) 0 = true
    /\ (Solo.res_actualLoss r <= Solo.res_initialBalance r)%Q
    /\ Qeq_bool (Solo.res_actualLoss r) (125 # 10) = true
    /\ Qeq_bool (Solo.res_newBalance r) (875 # 10) = true.
Proof.
  destruct (Solo.playGame (Solo.Numeric 10) "alice" Fixtures.db0 Fixtures.noCombo 0)
    as [[[e | r db'] k] |] eqn:E.
  - exfalso. vm_compute in E. discriminate.
  - assert (Hz : Qeq_bool (Solo.res_winAmount r) 0 = true).
    { revert E. vm_compute. intros [= <- _ _]. reflexivity. }
    destruct (proj2 loss_multiplier_bands_and_debit_cap _ _ _ _ _ _ _ _ E Hz)
      as (m & j & _ & _ & _ & Hle & _).
    exists r, db', k. split; [reflexivity |]. split; [exact Hz |].
    split; [exact Hle |].
    revert E. vm_compute. intros [= <- _ _]. split; reflexivity.
  - exfalso. vm_compute in E. discriminate.
Defined.

(** ** The lobby grid generator *)

(** An index drawn for [n] slots is one of the slots. *)
Lemma randomIndex_lt n rnd i :
  (0 < n)%Z ->
  exists k, randomIndex n rnd i = Some (k, S i) /\ (k < Z.to_nat n)%nat.
Proof.
  intros Hn. unfold randomIndex, mbind, Gen_bind, random, mret, Gen_ret.
  eexists. split; [reflexivity |].
  pose proof (draw_bounds (rnd i)) as [H0 H1].
  set (u := draw_val (rnd i)) in *.
  assert (Hlo : (0 <= Qfloor (u * inject_Z n))%Z).
  { change 0%Z with (Qfloor 0). apply Qfloor_resp_le.
    apply Qmult_le_0_compat; [exact H0 |].
    change 0%Q with (inject_Z 0). rewrite <- Zle_Qle. lia. }
  assert (Hhi : (Qfloor (u * inject_Z n) < n)%Z).
  { rewrite Zlt_Qlt. apply Qle_lt_trans with (u * inject_Z n)%Q; [apply Qfloor_le |].
    assert (Hn' : (0 < inject_Z n)%Q).
    { change 0%Q with (inject_Z 0). rewrite <- Zlt_Qlt. exact Hn. }
    nra. }
  lia.
Qed.

Lemma fill_length {A : Type} n (g : Gen A) rnd i l j :
  fill n g rnd i = Some (l, j) -> length l = n.
Proof.
  revert i l j. induction n as [| n IH]; intros i l j; simpl.
  - intros [= <- _]. reflexivity.
  - unfold mbind, Gen_bind.
    destruct (g rnd i) as [[x i1] |]; [| discriminate].
    destruct (fill n g rnd i1) as [[xs i2] |] eqn:E; [| discriminate].
    intros [= <- _]. simpl. f_equal. eapply IH, E.
Qed.

Lemma fill_Forall {A : Type} (P : A -> Prop) n (g : Gen A) rnd i l j :
  (forall i x j, g rnd i = Some (x, j) -> P x) ->
  fill n g rnd i = Some (l, j) -> Forall P l.
Proof.
  intros Hg. revert i l j. induction n as [| n IH]; intros i l j; simpl.
  - intros [= <- _]. constructor.
  - unfold mbind, Gen_bind.
    destruct (g rnd i) as [[x i1] |] eqn:Ex; [| discriminate].
    destruct (fill n g rnd i1) as [[xs i2] |] eqn:E; [| discriminate].
    intros [= <- _]. constructor; [eapply Hg, Ex | eapply IH, E].
Qed.

Lemma randomReels_wellShaped rnd i g j :
  randomReels rnd i = Some (g, j) -> wellShaped g.
Proof.
  intros H. split.
  - eapply fill_length, H.
  - eapply fill_Forall; [| exact H].
    intros i' col j' Hc. eapply fill_length, Hc.
Qed.

Lemma setCell_wellShaped g c r x : wellShaped g -> wellShaped (setCell g c r x).
Proof.
  intros [Hl Hc]. unfold setCell. split.
  - now rewrite length_alter.
  - apply Forall_alter; [exact Hc |]. intros col _ Hcol.
    now rewrite length_insert.
Qed.

Lemma cell_wellShaped g c r :
  wellShaped g -> (c < 6)%nat -> (r < 5)%nat -> exists x, cell g c r = Some x.
Proof.
  intros [Hl Hc] Hcl Hrl. unfold cell.
  destruct (lookup_lt_is_Some_2 g c) as [col Ecol]; [lia |].
  rewrite Ecol. simpl.
  pose proof (Forall_lookup_1 _ _ _ _ Hc Ecol) as Hlen. simpl in Hlen.
  destruct (lookup_lt_is_Some_2 col r) as [x Ex]; [lia |]. eauto.
Qed.

Lemma occurrences_le_cells sym g : wellShaped g -> (occurrences sym g <= 30)%nat.
Proof.
  intros [Hl Hc]. unfold occurrences.
  etransitivity; [apply length_filter |].
  assert (H : forall g' : list (list string),
             Forall (fun col => length col = 5%nat) g' ->
             length (concat g') = (5 * length g')%nat).
  { induction 1 as [| col g' Hcol _ IH]; simpl; [reflexivity |].
    rewrite length_app, IH, Hcol. lia. }
  rewrite (H g Hc), Hl. lia.
Qed.

Lemma filter_insert_fresh (col : list string) r x w :
  col !! r = Some x -> x <> w ->
  length (filter (fun y => y = w) (<[r:=w]> col)) =
  S (length (filter (fun y => y = w) col)).
Proof.
  revert r. induction col as [| y col IH]; intros r Hr Hx; [discriminate |].
  destruct r as [| r]; simpl in *.
  - injection Hr as ->. rewrite !filter_cons.
    rewrite decide_True by reflexivity. rewrite decide_False by exact Hx.
    reflexivity.
  - rewrite !filter_cons. destruct (decide (y = w)); simpl; rewrite (IH r Hr Hx);
      reflexivity.
Qed.

(** Writing [w] over a cell that holds another symbol adds one occurrence. *)
Lemma occurrences_setCell g c r x w :
  cell g c r = Some x -> x <> w ->
  occurrences w (setCell g c r w) = S (occurrences w g).
Proof.
  unfold occurrences, cell, setCell.
  revert c. induction g as [| col g IH]; intros c Hc Hx; [discriminate |].
  destruct c as [| c]; simpl in *.
  - rewrite !filter_app, !length_app.
    now rewrite (filter_insert_fresh col r x w Hc Hx).
  - rewrite !filter_app, !length_app.
    change (list_alter (fun col0 => <[r:=w]> col0) c g)
      with (alter (fun col0 : list string => <[r:=w]> col0) c g).
    rewrite (IH c Hc Hx). lia.
Qed.

(** The forcing loop, when it returns: every pass that counts writes the
    winning symbol over another one, so the grid gains exactly the
    occurrences the counter still lacked. *)
Lemma forceWin_returns fuel w g count rnd i g' j :
  wellShaped g -> (count <= 12)%nat ->
  forceWin fuel w g count rnd i = Some (g', j) ->
  wellShaped g'
  /\ occurrences w g' = (occurrences w g + (12 - count))%nat.
Proof.
  revert g count i. induction fuel as [| fuel IH]; intros g count i Hg Hc; simpl.
  - destruct (Nat.ltb_spec count 12); [discriminate |].
    intros [= <- _]. split; [exact Hg | lia].
  - destruct (Nat.ltb_spec count 12) as [Hlt | Hge].
    2:{ intros [= <- _]. split; [exact Hg | lia]. }
    destruct (randomIndex_lt 6 rnd i) as (c & Ec & Hcl); [lia |].
    destruct (randomIndex_lt 5 rnd (S i)) as (r & Er & Hrl); [lia |].
    rewrite (bind_some _ _ _ _ _ _ Ec), (bind_some _ _ _ _ _ _ Er).
    destruct (cell_wellShaped g c r Hg) as [x Ex]; [lia | lia |].
    rewrite Ex. destruct (decide (x = w)) as [-> | Hne].
    + rewrite bool_decide_eq_false_2 by (intros H; now apply H).
      apply IH; assumption.
    + rewrite bool_decide_eq_true_2 by congruence.
      intros H. apply IH in H; [| now apply setCell_wellShaped | lia].
      destruct H as [Hg' Ho]. split; [exact Hg' |].
      rewrite Ho, (occurrences_setCell g c r x w Ex Hne). lia.
Qed.

(** A win grid, when one is produced, holds the winning symbol in at least
    12 cells. *)
Lemma win_grid_has_twelve fuel rnd o :
  run (generateSlotOutcome fuel "win") rnd = Some o ->
  exists sym, (12 <= occurrences sym (reels o))%nat.
Proof.
  unfold run, generateSlotOutcome. simpl.
  unfold mbind at 1, Gen_bind at 1.
  destruct (randomReels rnd 0) as [[g0 i0] |] eqn:E0; [| discriminate].
  unfold mbind at 1, Gen_bind at 1. unfold mbind at 1, Gen_bind at 1.
  destruct (randomSymbol rnd i0) as [[w i1] |]; [| discriminate].
  destruct (forceWin fuel w g0 0 rnd i1) as [[g' j] |] eqn:E; [| discriminate].
  simpl. intros [= <-]. simpl. exists w.
  apply forceWin_returns in E; [| eapply randomReels_wellShaped, E0 | lia].
  destruct E as [_ ->]. lia.
Qed.

(** The forcing loop cannot return from a grid that lacks the cells to
    change: with [count] changes made it needs [12 - count] more cells that
    do not hold the winning symbol. *)
Lemma forceWin_diverges fuel w g count rnd i :
  wellShaped g -> (count <= 12)%nat ->
  (30 < occurrences w g + (12 - count))%nat ->
  forceWin fuel w g count rnd i = None.
Proof.
  intros Hg Hc Hfull.
  destruct (forceWin fuel w g count rnd i) as [[g' j] |] eqn:E; [| reflexivity].
  apply forceWin_returns in E; [| assumption | assumption].
  destruct E as [Hg' Ho].
  pose proof (occurrences_le_cells w g' Hg'). lia.
Qed.


(** C4 fails on the code.  The oracle draws [grapes] for all 30 cells and
    then [oval] for every replacement.  The loss branch has finished with
    [oval] (no occurrence) when it caps [grapes] at 7, and each of the 23
    excess cells is rewritten to [oval]: the grid it returns holds [oval] 23
    times, although the source announces that no symbol has more than 7
    occurrences. *)
Theorem loss_grid_exceeds_cap_on_earlier_symbol (fuel : nat) :
  (fun g => (occurrences "oval" (reels g), occurrences "grapes" (reels g), outcome g))
    <$> run (generateSlotOutcome (S fuel) "loss") Fixtures.grapesThenZeros
  = Some (23%nat, 7%nat, "loss").
Proof. vm_compute. reflexivity. Qed.

Lemma randomReels_zeros :
  randomReels Fixtures.zeros 0 = Some (Fixtures.uniformGrid "oval", 30%nat).
Proof. vm_compute. reflexivity. Qed.

(** On a grid that holds the winning symbol everywhere the forcing loop
    finds no cell to change: it never counts up and never leaves. *)
Lemma forceWin_uniform_diverges fuel count i :
  (count < 12)%nat ->
  forceWin fuel "oval" (Fixtures.uniformGrid "oval") count Fixtures.zeros i = None.
Proof.
  intros Hc. revert i. induction fuel as [| fuel IH]; intros i; simpl.
  - destruct (Nat.ltb_spec count 12); [reflexivity | lia].
  - destruct (Nat.ltb_spec count 12); [| lia].
    unfold mbind, Gen_bind at 1. simpl. apply IH.
Qed.

(** C9 fails on the code.  When every draw is 0 the initial grid holds
    [oval] in all 30 cells and [oval] is the winning symbol; the loop counts
    the cells it changes, not the cells that match, so its counter stays at
    0 and it does not return, whatever the bound. *)
Theorem win_forcing_never_returns_on_matching_grid (fuel : nat) :
  run (generateSlotOutcome fuel "win") Fixtures.zeros = None.
Proof.
  unfold run, generateSlotOutcome.
  rewrite (bind_some _ _ _ _ _ _ randomReels_zeros). simpl.
  unfold mbind at 1, Gen_bind at 1.
  unfold mbind at 1, Gen_bind at 1.
  change (randomSymbol Fixtures.zeros 30%nat) with (Some ("oval", 31%nat)).
  cbv iota beta. rewrite forceWin_uniform_diverges by lia. reflexivity.
Qed.

(** The same for every oracle: when the initial grid already holds the
    winning symbol in 19 cells or more, fewer than 12 cells are left to
    change and the generator does not return. *)
Lemma win_generation_diverges_from_nineteen fuel rnd g0 i0 w i1 :
  randomReels rnd 0 = Some (g0, i0) ->
  randomSymbol rnd i0 = Some (w, i1) ->
  (19 <= occurrences w g0)%nat ->
  run (generateSlotOutcome fuel "win") rnd = None.
Proof.
  intros E0 Ew Hocc. unfold run, generateSlotOutcome.
  rewrite (bind_some _ _ _ _ _ _ E0). simpl.
  unfold mbind at 1, Gen_bind at 1.
  rewrite (bind_some _ _ _ _ _ _ Ew).
  rewrite forceWin_diverges; [reflexivity | | lia | lia].
  eapply randomReels_wellShaped, E0.
Qed.

(** * Further properties of the lobby service *)

Import RoundFacts.

(** ** The round counter and the cycle position *)

Lemma rounds_snoc nows now s :
  rounds (nows ++ [now]) s = startNewRound now (rounds nows s).
Proof. unfold rounds. now rewrite fold_left_app. Qed.

Lemma rounds_count nows s :
  roundCount (rounds nows s) = (roundCount s + Z.of_nat (length nows))%Z.
Proof.
  induction nows as [| now nows IH] using rev_ind.
  - simpl. lia.
  - rewrite rounds_snoc, length_app. simpl. rewrite IH. lia.
Qed.

(** X1. Starting from a non-negative round counter, every round that
    [startNewRound] opens has the cycle position
    [(roundCount mod 5) + 1] of the counter it found, a number from 1 to 5,
    and the position repeats after exactly five rounds. *)
Theorem roundCycle_in_range_and_period_five (now now' : Z) (nows : list Z) (s : Session) :
  (0 <= roundCount s)%Z -> length nows = 4%nat ->
  roundCycle (startNewRound now s) = Some (roundCount s mod 5 + 1)%Z
  /\ (1 <= roundCount s mod 5 + 1 <= 5)%Z
  /\ roundCount (startNewRound now s) = (roundCount s + 1)%Z
  /\ roundCycle (startNewRound now' (rounds nows (startNewRound now s))) =
     roundCycle (startNewRound now s).
Proof.
  intros H0 Hn.
  assert (Hc : forall now0 s0, (0 <= roundCount s0)%Z ->
            roundCycle (startNewRound now0 s0) = Some (roundCount s0 mod 5 + 1)%Z).
  { intros now0 s0 H. unfold startNewRound. simpl. do 2 f_equal.
    replace (roundCount s0 + 1 - 1)%Z with (roundCount s0) by lia.
    apply Z.rem_mod_nonneg; lia. }
  split; [now apply Hc |].
  split; [pose proof (Z.mod_pos_bound (roundCount s) 5); lia |].
  split; [reflexivity |].
  rewrite !Hc; try assumption.
  - rewrite rounds_count, Hn. simpl roundCount.
    do 2 f_equal.
    replace (roundCount s + 1 + Z.of_nat 4)%Z with (roundCount s + 1 * 5)%Z by lia.
    apply Z.mod_add. lia.
  - rewrite rounds_count. simpl roundCount. lia.
Qed.

(** At the start of the service (counter 0) the first round has position 1,
    and so has the sixth. *)
Lemma roundCycle_in_range_and_period_five_witness :
  roundCycle (startNewRound 1 (initialSession 0)) = Some 1%Z
  /\ roundCycle (startNewRound 6 (rounds [2; 3; 4; 5]%Z
                                   (startNewRound 1 (initialSession 0))))
     = Some 1%Z.
Proof.
  destruct (roundCycle_in_range_and_period_five 1 6 [2; 3; 4; 5]%Z
              (initialSession 0) ltac:(simpl; lia) eq_refl)
    as (H1 & _ & _ & H6).
  split; [exact H1 |]. rewrite H6. exact H1.
Defined.

(** ** The timer and the phases *)

Lemma tickTry_cases env sv db sv' db' :
  tickTry env sv db = Some (sv', db') ->
  let s := session sv in
  ((1 < timeLeft s)%Z
   /\ session sv' = set_timeLeft (timeLeft s - 1) s /\ db' = db)
  \/ ((timeLeft s <= 1)%Z
      /\ nextPhase env (set_timeLeft (timeLeft s - 1) s) db = Some (session sv', db')).
Proof.
  unfold tickTry. simpl.
  destruct (Z.leb_spec (timeLeft (session sv) - 1) 0) as [Hle | Hgt].
  - destruct (nextPhase env _ db) as [[s2 db2] |] eqn:E; [| discriminate].
    simpl. intros [= <- <-]. right. split; [lia | reflexivity].
  - simpl. intros [= <- <-]. left. split; [lia |]. split; reflexivity.
Qed.

Lemma nextPhase_cases env s db s' db' :
  nextPhase env s db = Some (s', db') ->
  (phase s = BETTING
   /\ s' = set_timeLeft ROUND_TIMES_SPINNING (set_phase SPINNING s) /\ db' = db)
  \/ (phase s = SPINNING
      /\ exists g,
           run (generateSlotOutcome (env_fuel env)
                  (decideRound (bets s) (adminDecision s) (roundCycle s)))
               (env_rnd env) = Some g
           /\ s' = set_timeLeft ROUND_TIMES_RESULT
                     (set_phase RESULT (set_result (Some g) s))
           /\ db' = processPayouts s
                      (decideRound (bets s) (adminDecision s) (roundCycle s)) db)
  \/ (phase s = RESULT /\ s' = startNewRound (env_now env) s /\ db' = db).
Proof.
  unfold nextPhase. destruct (phase s) eqn:Ep.
  - intros [= <- <-]. left. auto.
  - unfold calculateResult.
    destruct (run _ (env_rnd env)) as [g |] eqn:Eg; [| discriminate].
    simpl. intros [= <- <-]. right. left. split; [reflexivity |].
    exists g. auto.
  - intros [= <- <-]. right. right. auto.
Qed.

(** X2. A tick keeps the timer inside the current phase: if it shows a
    second from 1 to the duration of the phase (10, 15, 10) before the tick,
    it does so after it; a tick therefore either takes one second off or
    enters the next phase with its full duration.  The recovery path
    establishes the same bound. *)
Theorem tick_keeps_timer_within_phase
    (env : TickEnv) (sv sv' : Service) (db db' : Db) :
  timerOk (session sv) ->
  tickTry env sv db = Some (sv', db') ->
  timerOk (session sv')
  /\ ((phase (session sv') = phase (session sv)
       /\ timeLeft (session sv') = (timeLeft (session sv) - 1)%Z)
      \/ (timeLeft (session sv) = 1%Z
          /\ timeLeft (session sv') = phaseLimit (phase (session sv'))
          /\ phase (session sv') =
             match phase (session sv) with
             | BETTING => SPINNING
             | SPINNING => RESULT
             | RESULT => BETTING
             end))
  /\ timerOk (tickCatch (session sv)).
Proof.
  intros [Hlo Hhi] H. apply tickTry_cases in H. cbv zeta in H.
  split; [| split]; [| | unfold timerOk, tickCatch; simpl; unfold ROUND_TIMES_BETTING; lia].
  - destruct H as [(Hgt & -> & _) | (Hle & Hn)].
    + unfold timerOk. simpl. lia.
    + apply nextPhase_cases in Hn. simpl in Hn.
      destruct Hn as [(_ & -> & _) | [(_ & g & _ & -> & _) | (_ & -> & _)]];
        unfold timerOk; simpl;
        unfold ROUND_TIMES_BETTING, ROUND_TIMES_SPINNING, ROUND_TIMES_RESULT; lia.
  - destruct H as [(Hgt & -> & _) | (Hle & Hn)].
    + left. split; reflexivity.
    + right. split; [lia |]. apply nextPhase_cases in Hn. simpl in Hn.
      destruct Hn as [(Hp & -> & _) | [(Hp & g & _ & -> & _) | (Hp & -> & _)]];
        rewrite Hp; simpl; split; reflexivity.
Qed.

(** The last second of BETTING: the tick enters SPINNING with 15 seconds. *)
Lemma tick_keeps_timer_within_phase_witness :
  exists sv' db',
    tickTry (Fixtures.envAt 1 Fixtures.cycling)
            (mkService (set_timeLeft 1 Fixtures.betting0) ∅) Fixtures.db0
    = Some (sv', db')
    /\ timerOk (session sv')
    /\ phase (session sv') = SPINNING /\ timeLeft (session sv') = 15%Z.
Proof.
  eexists _, _. split; [reflexivity |].
  destruct (tick_keeps_timer_within_phase
              (Fixtures.envAt 1 Fixtures.cycling)
              (mkService (set_timeLeft 1 Fixtures.betting0) ∅) _
              Fixtures.db0 _
              ltac:(unfold timerOk; simpl; unfold ROUND_TIMES_BETTING; lia) eq_refl)
    as (Hok & _ & _).
  split; [exact Hok |]. split; reflexivity.
Defined.

(** X3. A tick never adds, drops or alters a bet, and never changes the
    override, the round id or the round counter, except on the tick that
    ends RESULT, which opens an empty new round.  The database is written
    only on the tick that ends SPINNING, and then by settling the bets of
    the session against the decision computed from them. *)
Theorem tick_touches_bets_and_ledger_only_at_phase_ends
    (env : TickEnv) (sv sv' : Service) (db db' : Db) :
  tickTry env sv db = Some (sv', db') ->
  let s := session sv in
  let s' := session sv' in
  (phase s = RESULT /\ (timeLeft s <= 1)%Z
   /\ s' = startNewRound (env_now env) s /\ db' = db)
  \/ (bets s' = bets s /\ adminDecision s' = adminDecision s
      /\ roundId s' = roundId s /\ roundCount s' = roundCount s
      /\ roundCycle s' = roundCycle s
      /\ ((db' = db /\ result s' = result s)
          \/ (phase s = SPINNING /\ (timeLeft s <= 1)%Z
              /\ db' = processPayouts s
                         (decideRound (bets s) (adminDecision s) (roundCycle s)) db
              /\ exists g, result s' = Some g
                           /\ outcome g =
                              decideRound (bets s) (adminDecision s) (roundCycle s)))).
Proof.
  intros H. apply tickTry_cases in H. cbv zeta in *.
  destruct H as [(Hgt & -> & ->) | (Hle & Hn)].
  - right. simpl. repeat split; auto.
  - apply nextPhase_cases in Hn. simpl in Hn.
    destruct Hn as [(Hp & -> & ->) | [(Hp & g & Hg & -> & ->) | (Hp & -> & ->)]].
    + right. simpl. repeat split; auto.
    + right. simpl. repeat split; auto. right.
      repeat split; auto. exists g. split; [reflexivity |].
      apply (generateSlotOutcome_labels _ _ _ _ Hg).
    + left. repeat split; auto.
Qed.

(** The last second of SPINNING with one bet of 10 on [win]: the tick keeps
    the bet in the session and settles it. *)
Lemma tick_touches_bets_and_ledger_only_at_phase_ends_witness :
  exists sv' db',
    tickTry (Fixtures.envAt 1 Fixtures.cycling)
            (mkService (set_timeLeft 1 Fixtures.spinning1) ∅) Fixtures.db0
    = Some (sv', db')
    /\ bets (session sv') = [mkBet "alice" (Fin 10) "win"]
    /\ length (transactions db') = 1%nat.
Proof.
  destruct (tickTry (Fixtures.envAt 1 Fixtures.cycling)
              (mkService (set_timeLeft 1 Fixtures.spinning1) ∅) Fixtures.db0)
    as [[sv' db'] |] eqn:E; [| vm_compute in E; discriminate].
  exists sv', db'. split; [reflexivity |].
  destruct (tick_touches_bets_and_ledger_only_at_phase_ends _ _ _ _ _ E)
    as [(Hp & _) | (Hb & _)]; [discriminate Hp |].
  split; [exact Hb |].
  pose proof (f_equal (fun x : option (Service * Db) =>
                         match x with
                         | Some (_, d) => length (transactions d)
                         | None => O
                         end) E) as Hlen.
  vm_compute in Hlen. symmetry. exact Hlen.
Defined.

(** From RESULT with [t] seconds left, [t] ticks open the next round. *)
Lemma ticks_through_result envs env sv db :
  phase (session sv) = RESULT ->
  timeLeft (session sv) = (Z.of_nat (length envs) + 1)%Z ->
  exists ap', ticks (envs ++ [env]) sv db =
    Some (mkService (startNewRound (env_now env) (session sv)) ap', db).
Proof.
  intros Hp Ht. rewrite ticks_app.
  destruct (ticks_idle envs sv db) as [ap1 E1]; [lia |].
  rewrite E1. simpl. rewrite tickTry_expiry by (simpl; lia).
  unfold nextPhase. simpl. rewrite Hp. simpl. eauto.
Qed.

(** X4. A whole round takes 35 ticks.  From the first second of BETTING,
    10 ticks of BETTING, 15 of SPINNING and 10 of RESULT (with no bet or
    override arriving meanwhile, and the grid generator returning) settle
    the bets of the round exactly once and leave a new round open: phase
    BETTING, 10 seconds, the counter one higher, no bets, no override and no
    result. *)
Theorem full_round_takes_35_ticks_and_settles_once
    (s : Session) (ap : gset string) (db : Db)
    (envsB envsS envsR : list TickEnv) (envB envS envR : TickEnv) (g : Outcome) :
  phase s = BETTING -> timeLeft s = 10%Z ->
  length envsB = 9%nat -> length envsS = 14%nat -> length envsR = 9%nat ->
  let decision := decideRound (bets s) (adminDecision s) (roundCycle s) in
  run (generateSlotOutcome (env_fuel envS) decision) (env_rnd envS) = Some g ->
  exists ap',
    ticks ((envsB ++ [envB]) ++ (envsS ++ [envS]) ++ (envsR ++ [envR]))
          (mkService s ap) db =
    Some (mkService
            (mkSession (env_now envR) BETTING 10 (roundCount s + 1)
                       (Some (Z.rem (roundCount s + 1 - 1) 5 + 1)%Z)
                       [] None None (lastRoundId s)) ap',
          processPayouts s decision db).
Proof.
  intros Hp Ht HB HS HR decision Hg.
  rewrite ticks_app.
  destruct (ticks_through_betting envsB envB (mkService s ap) db)
    as [ap1 E1]; [exact Hp | simpl; lia |].
  cbn [session] in E1. rewrite E1. rewrite ticks_app.
  destruct (ticks_through_spinning envsS envS
              (mkService (set_timeLeft ROUND_TIMES_SPINNING (set_phase SPINNING s)) ap1)
              db g)
    as [ap2 E2]; [reflexivity | simpl; unfold ROUND_TIMES_SPINNING; lia | exact Hg |].
  cbn [session] in E2. rewrite E2.
  match type of E2 with
  | _ = Some (?sv2, ?db2) =>
      destruct (ticks_through_result envsR envR sv2 db2) as [ap3 E3];
        [reflexivity | simpl; unfold ROUND_TIMES_RESULT; lia |]
  end.
  cbn [session] in E3. rewrite E3. exists ap3. reflexivity.
Qed.

(** A round with one bet of 10 on [win]: after 35 ticks the bet is settled
    (one [game_loss] transaction) and round 1 is open and empty. *)
Lemma full_round_takes_35_ticks_and_settles_once_witness :
  exists ap',
    ticks ((repeat (Fixtures.envAt 1 Fixtures.cycling) 9 ++ [Fixtures.envAt 1 Fixtures.cycling])
           ++ (repeat (Fixtures.envAt 1 Fixtures.cycling) 14
               ++ [Fixtures.envAt 1 Fixtures.cycling])
           ++ (repeat (Fixtures.envAt 1 Fixtures.cycling) 9
               ++ [Fixtures.envAt 2 Fixtures.cycling]))
          (mkService (tickCatch Fixtures.spinning1) ∅) Fixtures.db0 =
    Some (mkService
            (mkSession 1700000002000 BETTING 10 1 (Some 1%Z) [] None None None) ap',
          mkDb {[ "alice" := Fixtures.alice ]}
               [mkTransaction "alice" "game_loss" 10 "completed"
                  "Sweet Bonanza Lobby Loss (win)"
                  (LobbyMeta 1700000000000 10 "win")] []).
Proof.
  destruct (run (generateSlotOutcome 8 "loss") Fixtures.cycling) as [g |] eqn:Hg;
    [| vm_compute in Hg; discriminate].
  destruct (full_round_takes_35_ticks_and_settles_once
              (tickCatch Fixtures.spinning1) ∅ Fixtures.db0
              (repeat (Fixtures.envAt 1 Fixtures.cycling) 9)
              (repeat (Fixtures.envAt 1 Fixtures.cycling) 14)
              (repeat (Fixtures.envAt 1 Fixtures.cycling) 9)
              (Fixtures.envAt 1 Fixtures.cycling)
              (Fixtures.envAt 1 Fixtures.cycling)
              (Fixtures.envAt 2 Fixtures.cycling) g
              eq_refl eq_refl eq_refl eq_refl eq_refl Hg)
    as [ap' E].
  exists ap'. exact E.
Defined.

(** ** More on the settlement of a lobby round *)

Lemma settleBet_other rid o db b uid :
  userId b <> uid \/ side b <> o ->
  users (settleBet rid o db b) !! uid = users db !! uid.
Proof.
  intros H. destruct (settles db b) eqn:E.
  - apply settles_true in E. destruct E as [Ha [user Hu]].
    destruct (String.eqb_spec (side b) o) as [Es | Es].
    + rewrite (settleBet_win rid o db b user Ha Hu Es). simpl.
      destruct H as [H | H]; [| contradiction].
      now rewrite lookup_insert_ne.
    + now rewrite (settleBet_loss rid o db b user Ha Hu Es).
  - now rewrite settleBet_skips.
Qed.

(** X5. Settlement leaves everyone but the winners alone: a user none of
    whose bets is on the decided side (a loser, a bystander, an unknown or
    anonymous id) has the same record, or the same absence of one, after
    [processPayouts] as before. *)
Theorem settlement_leaves_non_winners_untouched
    (s : Session) (o : string) (db : Db) (uid : string) :
  Forall (fun b => userId b = uid -> side b <> o) (bets s) ->
  users (processPayouts s o db) !! uid = users db !! uid.
Proof.
  unfold processPayouts. generalize (roundId s) as rid. intros rid.
  generalize (bets s) as bs. intros bs H. revert db.
  induction H as [| b bs Hb _ IH]; intros db; simpl; [reflexivity |].
  rewrite IH. apply settleBet_other.
  destruct (String.eqb_spec (userId b) uid) as [E | E]; [right; auto | left; auto].
Qed.

(** In a round decided [loss], the user who bet on [win] keeps the record
    the database had. *)
Lemma settlement_leaves_non_winners_untouched_witness :
  users (processPayouts Fixtures.spinning1 "loss" Fixtures.db0) !! "alice"
  = Some Fixtures.alice.
Proof.
  rewrite (settlement_leaves_non_winners_untouched Fixtures.spinning1 "loss"
             Fixtures.db0 "alice").
  - reflexivity.
  - repeat constructor. simpl. discriminate.
Defined.

Lemma processPayouts_ledger bs rid o db :
  exists new,
    transactions (fold_left (settleBet rid o) bs db) = transactions db ++ new
    /\ Forall (fun t =>
                 tx_status t = "completed"
                 /\ exists stake sd,
                      tx_meta t = LobbyMeta rid stake sd
                      /\ ((tx_type t = "game_win" /\ sd = o
                           /\ tx_amount t = (stake * 2)%Q)
                          \/ (tx_type t = "game_loss" /\ sd <> o
                              /\ tx_amount t = stake))) new
    /\ forall uid u,
         users db !! uid = Some u ->
         exists u',
           users (fold_left (settleBet rid o) bs db) !! uid = Some u'
           /\ (balance u' == balance u + wonInLedger uid new)%Q
           /\ u' = set_balance (balance u') u.
Proof.
  revert db. induction bs as [| b bs IH]; intros db; simpl.
  - exists []. rewrite app_nil_r. split; [reflexivity |]. split; [constructor |].
    intros uid u Hu. exists u. split; [exact Hu |]. split; [simpl; ring |].
    now destruct u.
  - destruct (IH (settleBet rid o db b)) as (new & Ht & Hall & Hbal).
    destruct (settles db b) eqn:E.
    2:{ rewrite (settleBet_skips rid o db b E) in *. exists new. auto. }
    apply settles_true in E. destruct E as [Ha [user Hu]].
    destruct (String.eqb_spec (side b) o) as [Es | Es].
    + rewrite (settleBet_win rid o db b user Ha Hu Es) in *. simpl in Ht.
      eexists (_ :: new). split; [rewrite Ht, <- app_assoc; reflexivity |].
      split.
      * constructor; [| exact Hall]. simpl. split; [reflexivity |].
        eexists _, _. split; [reflexivity |]. left. auto.
      * intros uid u Hlook. simpl in Hbal.
        destruct (decide (userId b = uid)) as [<- | Hne].
        -- assert (u = user) by congruence. subst u.
           destruct (Hbal (userId b) _ (lookup_insert_eq _ _ _)) as (u' & Hu' & Hb' & Hf').
           exists u'. split; [exact Hu' |]. split.
           ++ rewrite Hb'. simpl. rewrite String.eqb_refl. simpl. ring.
           ++ rewrite Hf' at 1. reflexivity.
        -- destruct (Hbal uid u) as (u' & Hu' & Hb' & Hf').
           { rewrite lookup_insert_ne by exact Hne. exact Hlook. }
           exists u'. split; [exact Hu' |]. split; [| exact Hf'].
           rewrite Hb'. simpl.
           destruct (String.eqb_spec (userId b) uid); [contradiction |]. simpl. ring.
    + rewrite (settleBet_loss rid o db b user Ha Hu Es) in *. simpl in Ht.
      eexists (_ :: new). split; [rewrite Ht, <- app_assoc; reflexivity |].
      split.
      * constructor; [| exact Hall]. simpl. split; [reflexivity |].
        eexists _, _. split; [reflexivity |]. right. auto.
      * intros uid u Hlook. simpl in Hbal.
        destruct (Hbal uid u Hlook) as (u' & Hu' & Hb' & Hf').
        exists u'. split; [exact Hu' |]. split; [| exact Hf'].
        rewrite Hb'. simpl. rewrite andb_false_r. ring.
Qed.

(** X6. The ledger and the balances agree on wins.  [processPayouts] only
    appends to the transaction collection; every transaction it appends is
    [completed], carries the round id, and is either a [game_win] of twice
    the stake (side equal to the outcome) or a [game_loss] of the stake;
    and a user's balance ends at the balance before plus the amounts of the
    [game_win] transactions appended for that user, with no other field of
    the user record changed. *)
Theorem settlement_ledger_matches_balances (s : Session) (o : string) (db : Db) :
  exists new,
    transactions (processPayouts s o db) = transactions db ++ new
    /\ Forall (fun t =>
                 tx_status t = "completed"
                 /\ exists stake sd,
                      tx_meta t = LobbyMeta (roundId s) stake sd
                      /\ ((tx_type t = "game_win" /\ sd = o
                           /\ tx_amount t = (stake * 2)%Q)
                          \/ (tx_type t = "game_loss" /\ sd <> o
                              /\ tx_amount t = stake))) new
    /\ forall uid u,
         users db !! uid = Some u ->
         exists u',
           users (processPayouts s o db) !! uid = Some u'
           /\ (balance u' == balance u + wonInLedger uid new)%Q
           /\ u' = set_balance (balance u') u.
Proof. apply processPayouts_ledger. Qed.

Lemma credited_nonneg uid o bs :
  Forall (fun b => (0 <= orZero (betAmount b))%Q) bs ->
  (0 <= credited uid o bs)%Q.
Proof.
  induction 1 as [| b bs Hb _ IH]; simpl; [lra |].
  destruct (String.eqb (userId b) uid && String.eqb (side b) o); lra.
Qed.

Lemma processPayouts_anonymous bs rid o db :
  users (fold_left (settleBet rid o) bs db) !! "anonymous" = users db !! "anonymous".
Proof.
  revert db. induction bs as [| b bs IH]; intros db; simpl; [reflexivity |].
  rewrite IH. destruct (String.eqb_spec (userId b) "anonymous") as [E | E].
  - now rewrite settleBet_anonymous.
  - apply settleBet_other. left. exact E.
Qed.

(** X7. Settlement neither creates nor deletes a user, and when no stake is
    negative it never lowers a balance: whoever was in the database before
    [processPayouts] is in it afterwards with a balance at least as high. *)
Theorem settlement_keeps_users_and_never_lowers_a_balance
    (s : Session) (o : string) (db : Db) (uid : string) :
  Forall (fun b => (0 <= orZero (betAmount b))%Q) (bets s) ->
  (is_Some (users (processPayouts s o db) !! uid) <-> is_Some (users db !! uid))
  /\ forall u, users db !! uid = Some u ->
       exists u', users (processPayouts s o db) !! uid = Some u'
                  /\ (balance u <= balance u')%Q.
Proof.
  intros Hpos. split.
  - unfold processPayouts. generalize (roundId s) as rid. intros rid.
    generalize (bets s) as bs. intros bs. revert db.
    induction bs as [| b bs IH]; intros db; simpl; [reflexivity |].
    rewrite IH. apply settleBet_known.
  - intros u Hu.
    destruct (decide (uid = "anonymous")) as [-> | Ha].
    + exists u. split; [| lra].
      unfold processPayouts. now rewrite processPayouts_anonymous.
    + destruct (processPayouts_balance (bets s) (roundId s) o db uid u Ha Hu)
        as (u' & Hu' & Hb).
      exists u'. split; [exact Hu' |].
      pose proof (credited_nonneg uid o (bets s) Hpos). lra.
Qed.

(** One bet of 10 on [win], decided [win]: the bettor is still there, with
    120 instead of 100. *)
Lemma settlement_keeps_users_and_never_lowers_a_balance_witness :
  exists u',
    users (processPayouts Fixtures.spinning1 "win" Fixtures.db0) !! "alice" = Some u'
    /\ (balance Fixtures.alice <= balance u')%Q.
Proof.
  apply (settlement_keeps_users_and_never_lowers_a_balance
           Fixtures.spinning1 "win" Fixtures.db0 "alice").
  - repeat constructor. simpl. lra.
  - reflexivity.
Defined.

(** X8. Anonymous bets play no part in the settlement: [processPayouts]
    gives the same database as on the session with the anonymous bets
    removed, and a round of anonymous bets only leaves the database as it
    was. *)
Theorem settlement_ignores_anonymous_bets (s : Session) (o : string) (db : Db) :
  processPayouts s o db =
  processPayouts
    (set_bets (filter (fun b => userId b <> "anonymous") (bets s)) s) o db
  /\ (Forall (fun b => userId b = "anonymous") (bets s) ->
      processPayouts s o db = db).
Proof.
  unfold processPayouts. simpl. generalize (roundId s) as rid. intros rid.
  generalize (bets s) as bs. intros bs. split.
  - revert db. induction bs as [| b bs IH]; intros db; simpl; [reflexivity |].
    rewrite filter_cons. destruct (decide (userId b <> "anonymous")) as [Hn | Hn].
    + simpl. apply IH.
    + rewrite settleBet_anonymous; [apply IH |].
      destruct (String.eqb_spec (userId b) "anonymous"); [assumption | contradiction].
  - intros H. revert db. induction H as [| b bs Hb _ IH]; intros db; simpl;
      [reflexivity |].
    rewrite settleBet_anonymous by exact Hb. apply IH.
Qed.

(** ** More on the decision policy *)

(** X9. Without an override the algorithm decides [win] or [loss], and it
    sides with the smaller pot except at cycle position 5, the pots being
    the totals the code accumulates in double-precision arithmetic: when
    neither total is [NaN], at every position but 5 (absent included) the
    total of the decided side is at most the total of the other side, and at
    position 5 it is at least that.  When a total is [NaN] the decision is
    [loss] at position 5 and [win] otherwise. *)
Theorem algorithm_sides_with_smaller_pot_except_at_five
    (bs : list Bet) (cycle : option Z) :
  let d := decideRound bs None cycle in
  (d = "win" \/ d = "loss")
  /\ (Double.isNaN (sideTotal64 "win" bs) = false ->
      Double.isNaN (sideTotal64 "loss" bs) = false ->
      (cycle <> Some 5%Z ->
       Double.geb (sideTotal64 (otherSide d) bs) (sideTotal64 d bs) = true)
      /\ (cycle = Some 5%Z ->
          Double.geb (sideTotal64 d bs) (sideTotal64 (otherSide d) bs) = true))
  /\ (Double.isNaN (sideTotal64 "win" bs) = true
      \/ Double.isNaN (sideTotal64 "loss" bs) = true ->
      d = if bool_decide (cycle = Some 5%Z) then "loss" else "win").
Proof.
  cbv zeta.
  assert (Hd : decideRound bs None cycle
               = if bool_decide (cycle = Some 5%Z) then majoritySide bs
                 else minoritySide bs).
  { unfold decideRound, algorithmDecision.
    destruct (bool_decide (cycle = Some 1%Z)) eqn:E1; [| reflexivity].
    apply bool_decide_eq_true in E1. subst cycle. reflexivity. }
  rewrite Hd. unfold minoritySide, majoritySide, winBetsTotal64, lossBetsTotal64.
  set (w := sideTotal64 "win" bs). set (l := sideTotal64 "loss" bs).
  destruct (Double.geb w l) eqn:E; cbn [String.eqb Ascii.eqb Bool.eqb andb].
  - split; [destruct (bool_decide (cycle = Some 5%Z)); auto |].
    split.
    + intros _ _.
      destruct (bool_decide (cycle = Some 5%Z)) eqn:E5.
      * apply bool_decide_eq_true in E5.
        split; [contradiction | intros _; exact E].
      * apply bool_decide_eq_false in E5.
        split; [intros _; exact E | contradiction].
    + intros Hn. exfalso. rewrite geb_by_cases in E.
      destruct Hn as [Hn | Hn]; rewrite Hn in E;
        [| rewrite orb_true_r in E]; discriminate.
  - split; [destruct (bool_decide (cycle = Some 5%Z)); auto |].
    split.
    + intros Hw Hl. pose proof (geb_total w l Hw Hl E) as E'.
      destruct (bool_decide (cycle = Some 5%Z)) eqn:E5.
      * apply bool_decide_eq_true in E5.
        split; [contradiction | intros _; exact E'].
      * apply bool_decide_eq_false in E5.
        split; [intros _; exact E' | contradiction].
    + intros _. reflexivity.
Qed.

(** Ten bets of 0.1 on [win] and one bet of 1 on [loss]: the code adds the
    ten stakes to 0.9999999999999999, so [win] has the smaller total and is
    decided at cycle position 1. *)
Lemma algorithm_sides_with_smaller_pot_except_at_five_witness :
  sideTotal64 "win" Fixtures.tenTenths
  = S754_finite false 9007199254740991 (-53)
  /\ sideTotal64 "loss" Fixtures.tenTenths
     = S754_finite false 4503599627370496 (-52)
  /\ decideRound Fixtures.tenTenths None (Some 1%Z) = "win"
  /\ Double.geb (sideTotal64 "loss" Fixtures.tenTenths)
                (sideTotal64 "win" Fixtures.tenTenths) = true.
Proof.
  assert (Hd : decideRound Fixtures.tenTenths None (Some 1%Z) = "win")
    by (vm_compute; reflexivity).
  split; [vm_compute; reflexivity |]. split; [vm_compute; reflexivity |].
  split; [exact Hd |].
  destruct (algorithm_sides_with_smaller_pot_except_at_five
              Fixtures.tenTenths (Some 1%Z)) as (_ & H & _).
  cbv zeta in H. rewrite Hd in H.
  destruct (H ltac:(vm_compute; reflexivity) ltac:(vm_compute; reflexivity))
    as [H1 _].
  apply H1. discriminate.
Defined.

(** ** More on the lobby grid generator *)

(** An invariant of the state a [forEach] loop threads holds at its end. *)
Lemma forEach_invariant {A S : Type} (P : S -> Prop) (body : S -> A -> Gen S)
    (l : list A) rnd :
  (forall s x i s' j, P s -> body s x rnd i = Some (s', j) -> P s') ->
  forall s i s' j, P s -> forEach body l s rnd i = Some (s', j) -> P s'.
Proof.
  intros Hb. induction l as [| x l IH]; intros s i s' j Hs; simpl.
  - intros [= <- _]. exact Hs.
  - unfold mbind, Gen_bind.
    destruct (body s x rnd i) as [[s1 i1] |] eqn:E; [| discriminate].
    intros H. eapply IH; [| exact H]. eapply Hb; eassumption.
Qed.

Lemma symbolAt_in_SYMBOLS i : (i < 7)%nat -> symbolAt i ∈ SYMBOLS.
Proof.
  intros H. do 7 (destruct i as [| i]; [unfold symbolAt, SYMBOLS; simpl; set_solver |]).
  lia.
Qed.

Lemma randomSymbol_in_SYMBOLS rnd i x j :
  randomSymbol rnd i = Some (x, j) -> x ∈ SYMBOLS /\ j = S i.
Proof.
  unfold randomSymbol.
  destruct (randomIndex_lt (Z.of_nat (length SYMBOLS)) rnd i) as (k & Ek & Hk);
    [simpl; lia |].
  rewrite (bind_some _ _ _ _ _ _ Ek). intros [= <- <-].
  split; [apply symbolAt_in_SYMBOLS; simpl in Hk; lia | reflexivity].
Qed.

Lemma randomReels_symbolsOnly rnd i g j :
  randomReels rnd i = Some (g, j) -> symbolsOnly g.
Proof.
  intros H. unfold symbolsOnly, randomReels in *.
  eapply fill_Forall; [| exact H]. intros i' col j' Hc.
  eapply fill_Forall; [| exact Hc]. intros i'' x j'' Hx.
  now apply randomSymbol_in_SYMBOLS in Hx.
Qed.

Lemma setCell_symbolsOnly g c r x :
  symbolsOnly g -> x ∈ SYMBOLS -> symbolsOnly (setCell g c r x).
Proof.
  intros Hg Hx. unfold symbolsOnly, setCell.
  apply Forall_alter; [exact Hg |]. intros col _ Hcol.
  now apply Forall_insert.
Qed.

Lemma forceWin_symbolsOnly fuel w g count rnd i g' j :
  symbolsOnly g -> w ∈ SYMBOLS ->
  forceWin fuel w g count rnd i = Some (g', j) -> symbolsOnly g'.
Proof.
  intros Hg Hw. revert g count i Hg.
  induction fuel as [| fuel IH]; intros g count i Hg; simpl.
  - destruct (count <? 12)%nat; [discriminate |]. now intros [= <- _].
  - destruct (count <? 12)%nat; [| now intros [= <- _]].
    unfold mbind at 1, Gen_bind at 1.
    destruct (randomIndex 6 rnd i) as [[c i1] |]; [| discriminate].
    unfold mbind at 1, Gen_bind at 1.
    destruct (randomIndex 5 rnd i1) as [[r i2] |]; [| discriminate].
    destruct (bool_decide (cell g c r <> Some w)); apply IH;
      [now apply setCell_symbolsOnly | exact Hg].
Qed.

Lemma pickOther_differs fuel sym rnd i x j :
  pickOther fuel sym rnd i = Some (x, j) -> x ∈ SYMBOLS /\ x <> sym.
Proof.
  revert i. induction fuel as [| fuel IH]; intros i; simpl; [discriminate |].
  unfold mbind, Gen_bind.
  destruct (randomSymbol rnd i) as [[y i1] |] eqn:Ey; [| discriminate].
  destruct (String.eqb_spec y sym) as [-> | Hne].
  - apply IH.
  - intros [= <- _]. split; [| exact Hne].
    now apply randomSymbol_in_SYMBOLS in Ey.
Qed.

Lemma capStep_keeps_grid fuel sym st p rnd i st' j :
  wellShaped (fst st) /\ symbolsOnly (fst st) ->
  capStep fuel sym st p rnd i = Some (st', j) ->
  wellShaped (fst st') /\ symbolsOnly (fst st').
Proof.
  destruct st as [g count], p as [c r]. unfold capStep. cbn [fst].
  unfold mbind, Gen_bind, mret, Gen_ret. intros [Hw Hs].
  destruct (bool_decide (cell g c r = Some sym)); [| now intros [= <- _]].
  destruct (8 <=? S count)%nat; [| now intros [= <- _]].
  destruct (pickOther fuel sym rnd i) as [[x i1] |] eqn:Ex; [| discriminate].
  intros [= <- _]. simpl. apply pickOther_differs in Ex.
  split; [now apply setCell_wellShaped | now apply setCell_symbolsOnly].
Qed.

Lemma capAll_keeps_grid fuel g rnd i g' j :
  wellShaped g /\ symbolsOnly g ->
  capAll fuel g rnd i = Some (g', j) ->
  wellShaped g' /\ symbolsOnly g'.
Proof.
  unfold capAll.
  apply (forEach_invariant (fun g0 => wellShaped g0 /\ symbolsOnly g0)).
  clear. intros g sym i g' j Hg. unfold capSymbol, mbind, Gen_bind.
  destruct (forEach (capStep fuel sym) positions (g, O) rnd i) as [[st i1] |] eqn:E;
    [| discriminate].
  intros [= <- _].
  exact (forEach_invariant
           (fun st0 : list (list string) * nat =>
              wellShaped (fst st0) /\ symbolsOnly (fst st0))
           (capStep fuel sym) positions rnd
           (fun st0 p i0 st1 j0 => capStep_keeps_grid fuel sym st0 p rnd i0 st1 j0)
           (g, O) i st i1 Hg E).
Qed.

(** X10. Whatever the decision and the oracle, an outcome the generator
    returns is a grid of 6 columns of 5 cells, each holding one of the seven
    symbols of [SYMBOLS]; it is labelled with the decision it was asked for,
    and its win flag is 1 for [win] and 0 otherwise. *)
Theorem generated_outcome_is_a_full_grid_of_symbols
    (fuel : nat) (decision : string) (rnd : nat -> draw) (g : Outcome) :
  run (generateSlotOutcome fuel decision) rnd = Some g ->
  wellShaped (reels g) /\ symbolsOnly (reels g)
  /\ outcome g = decision
  /\ winAmount g = (if String.eqb decision "win" then 1 else 0)%Z.
Proof.
  intros H. destruct (generateSlotOutcome_labels _ _ _ _ H) as [Ho Hw].
  assert (Hgrid : wellShaped (reels g) /\ symbolsOnly (reels g)); [| tauto].
  clear Ho Hw. revert H. unfold run, generateSlotOutcome.
  unfold mbind at 1, Gen_bind at 1.
  destruct (randomReels rnd 0) as [[g0 i0] |] eqn:E0; [| discriminate].
  pose proof (randomReels_wellShaped _ _ _ _ E0) as Hw0.
  pose proof (randomReels_symbolsOnly _ _ _ _ E0) as Hs0.
  unfold mbind at 1, Gen_bind at 1.
  destruct (String.eqb decision "win").
  - unfold mbind at 1, Gen_bind at 1.
    destruct (randomSymbol rnd i0) as [[w i1] |] eqn:Ew; [| discriminate].
    destruct (forceWin fuel w g0 0 rnd i1) as [[g1 j1] |] eqn:Ef; [| discriminate].
    simpl. intros [= <-]. simpl. split.
    + apply forceWin_returns in Ef; [tauto | exact Hw0 | lia].
    + eapply forceWin_symbolsOnly; [exact Hs0 | | exact Ef].
      now apply randomSymbol_in_SYMBOLS in Ew.
  - destruct (capAll fuel g0 rnd i0) as [[g1 j1] |] eqn:Ec; [| discriminate].
    simpl. intros [= <-]. simpl.
    eapply capAll_keeps_grid; [| exact Ec]. auto.
Qed.

(** The all-[grapes] draw of thirty cells, decided [loss]: the outcome is a
    full grid of symbols labelled [loss]. *)
Lemma generated_outcome_is_a_full_grid_of_symbols_witness :
  exists g,
    run (generateSlotOutcome 1 "loss") Fixtures.grapesThenZeros = Some g
    /\ wellShaped (reels g) /\ symbolsOnly (reels g) /\ outcome g = "loss".
Proof.
  destruct (run (generateSlotOutcome 1 "loss") Fixtures.grapesThenZeros)
    as [g |] eqn:E; [| vm_compute in E; discriminate].
  exists g. split; [reflexivity |].
  destruct (generated_outcome_is_a_full_grid_of_symbols _ _ _ _ E)
    as (Hw & Hs & Ho & _).
  auto.
Defined.

Lemma length_filter_map {A B : Type} (f : A -> B) (P : B -> Prop)
    `{!forall y, Decision (P y)} (l : list A) :
  length (filter P (map f l)) = length (filter (fun x => P (f x)) l).
Proof.
  induction l as [| x l IH]; simpl; [reflexivity |].
  rewrite !filter_cons. destruct (decide (P (f x))); simpl; now rewrite IH.
Qed.

(** On a grid of 6 by 5 the two nested loops visit every cell once, in the
    order of the columns. *)
Lemma cells_in_scan_order (g : list (list string)) :
  wellShaped g ->
  map (fun p => cell g (fst p) (snd p)) positions = map Some (concat g).
Proof.
  intros [Hl Hc].
  destruct g as [| c0 [| c1 [| c2 [| c3 [| c4 [| c5 [| c6 g]]]]]]]; try discriminate.
  repeat (apply Forall_cons in Hc; destruct Hc as [? Hc]).
  repeat match goal with
         | H : length ?c = 5%nat |- _ =>
             destruct c as [| ? [| ? [| ? [| ? [| ? [| ? ?]]]]]]; try discriminate H;
             clear H
         end.
  reflexivity.
Qed.

Lemma hits_positions sym (g : list (list string)) :
  wellShaped g -> hits sym g positions = occurrences sym g.
Proof.
  intros Hg. unfold hits, occurrences.
  transitivity
    (length (filter (fun y => y = Some sym)
               (map (fun p => cell g (fst p) (snd p)) positions))).
  { symmetry. apply (length_filter_map (fun p => cell g (fst p) (snd p))). }
  rewrite (cells_in_scan_order g Hg).
  rewrite (length_filter_map Some (fun y => y = Some sym)).
  f_equal. apply list_filter_iff. intros x. split; congruence.
Qed.

(** While the counter stays below 8 the scan changes nothing and draws
    nothing. *)
Lemma capScan_below_cap fuel sym (g : list (list string)) ps count rnd i :
  (count + hits sym g ps <= 7)%nat ->
  forEach (capStep fuel sym) ps (g, count) rnd i =
  Some ((g, (count + hits sym g ps)%nat), i).
Proof.
  revert count. induction ps as [| [c r] ps IH]; intros count H.
  - unfold hits. simpl. now rewrite Nat.add_0_r.
  - unfold hits in *. rewrite filter_cons in H |- *. cbn [fst snd] in *.
    cbn [forEach]. unfold mbind at 1, Gen_bind at 1. unfold capStep at 1.
    destruct (decide (cell g c r = Some sym)) as [E | E].
    + rewrite bool_decide_eq_true_2 by exact E. cbn [length] in H |- *.
      destruct (Nat.leb_spec 8 (S count)); [lia |].
      unfold mret, Gen_ret. rewrite IH by lia. do 3 f_equal. lia.
    + rewrite bool_decide_eq_false_2 by exact E.
      unfold mret, Gen_ret. now rewrite IH by lia.
Qed.

Lemma capAll_below_cap fuel (g : list (list string)) syms rnd i :
  wellShaped g ->
  Forall (fun sym => (occurrences sym g <= 7)%nat) syms ->
  forEach (capSymbol fuel) syms g rnd i = Some (g, i).
Proof.
  intros Hg H. induction H as [| sym syms Hs _ IH]; simpl; [reflexivity |].
  unfold mbind at 1, Gen_bind at 1. unfold capSymbol at 1.
  unfold mbind at 1, Gen_bind at 1.
  rewrite capScan_below_cap by (rewrite hits_positions by exact Hg; simpl; lia).
  simpl. exact IH.
Qed.

(** X11. When the grid first drawn holds no symbol more than 7 times, the
    loss branch returns that very grid and makes no further draw, whatever
    the loop bound: a decision other than [win] then yields the drawn grid
    with the win flag 0. *)
Theorem loss_branch_keeps_a_grid_already_under_the_cap
    (fuel : nat) (decision : string) (rnd : nat -> draw)
    (g : list (list string)) (i : nat) :
  decision <> "win" ->
  randomReels rnd 0 = Some (g, i) ->
  Forall (fun sym => (occurrences sym g <= 7)%nat) SYMBOLS ->
  generateSlotOutcome fuel decision rnd 0 = Some (mkOutcome g decision 0, i).
Proof.
  intros Hd Hg Hcap. unfold generateSlotOutcome.
  rewrite (bind_some _ _ _ _ _ _ Hg).
  destruct (String.eqb_spec decision "win"); [contradiction |].
  unfold capAll.
  rewrite (bind_some _ _ _ _ _ _
             (capAll_below_cap fuel g SYMBOLS rnd i
                (randomReels_wellShaped _ _ _ _ Hg) Hcap)).
  reflexivity.
Qed.

(** The cycling oracle draws each symbol 4 or 5 times: the loss branch
    returns the grid as drawn after its 30 draws, even with no fuel. *)
Lemma loss_branch_keeps_a_grid_already_under_the_cap_witness :
  exists g,
    randomReels Fixtures.cycling 0 = Some (g, 30%nat)
    /\ generateSlotOutcome 0 "loss" Fixtures.cycling 0
       = Some (mkOutcome g "loss" 0, 30%nat).
Proof.
  destruct (randomReels Fixtures.cycling 0) as [[g i] |] eqn:E;
    [| vm_compute in E; discriminate].
  pose proof (f_equal (fun o : option (list (list string) * nat) =>
                         match o with Some (_, j) => j | None => O end) E) as Hi.
  vm_compute in Hi. subst i.
  pose proof (f_equal (fun o : option (list (list string) * nat) =>
                         match o with Some (g0, _) => g0 | None => [] end) E) as Hg.
  cbv beta iota in Hg.
  exists g. split; [reflexivity |].
  apply (loss_branch_keeps_a_grid_already_under_the_cap 0 "loss" Fixtures.cycling g 30);
    [discriminate | exact E |].
  rewrite <- Hg.
  repeat (apply Forall_cons; split; [vm_compute; lia |]). constructor.
Defined.

Lemma filter_insert_other (col : list string) r w sym :
  sym <> w ->
  (length (filter (fun y => y = sym) (<[r:=w]> col))
   <= length (filter (fun y => y = sym) col))%nat.
Proof.
  intros Hne. revert r. induction col as [| y col IH]; intros r; [simpl; lia |].
  destruct r as [| r]; simpl.
  - rewrite !filter_cons. rewrite (decide_False (P := w = sym)) by congruence.
    destruct (decide (y = sym)); simpl; lia.
  - rewrite !filter_cons. specialize (IH r).
    destruct (decide (y = sym)); simpl; lia.
Qed.

Lemma occurrences_setCell_other (g : list (list string)) c r w sym :
  sym <> w -> (occurrences sym (setCell g c r w) <= occurrences sym g)%nat.
Proof.
  intros Hne. unfold occurrences, setCell.
  revert c. induction g as [| col g IH]; intros c; [simpl; lia |].
  destruct c as [| c]; simpl; rewrite !filter_app, !length_app.
  - pose proof (filter_insert_other col r w sym Hne). lia.
  - specialize (IH c).
    change (list_alter (fun col0 => <[r:=w]> col0) c g)
      with (alter (fun col0 : list string => <[r:=w]> col0) c g).
    lia.
Qed.

Lemma forceWin_others fuel w (g : list (list string)) count rnd i g' j sym :
  sym <> w ->
  forceWin fuel w g count rnd i = Some (g', j) ->
  (occurrences sym g' <= occurrences sym g)%nat.
Proof.
  intros Hne. revert g count i.
  induction fuel as [| fuel IH]; intros g count i; simpl.
  - destruct (count <? 12)%nat; [discriminate |]. intros [= <- _]. lia.
  - destruct (count <? 12)%nat; [| intros [= <- _]; lia].
    unfold mbind at 1, Gen_bind at 1.
    destruct (randomIndex 6 rnd i) as [[c i1] |]; [| discriminate].
    unfold mbind at 1, Gen_bind at 1.
    destruct (randomIndex 5 rnd i1) as [[r i2] |]; [| discriminate].
    destruct (bool_decide (cell g c r <> Some w)); intros H; apply IH in H;
      [| exact H].
    pose proof (occurrences_setCell_other g c r w sym Hne). lia.
Qed.

(** X12. The win branch, when it returns, has written the winning symbol
    over exactly 12 cells that held another symbol: the winning symbol
    occurs 12 times more than in the grid first drawn (so at least 12
    times), no other symbol occurs more often than before, and the grid
    first drawn held the winning symbol in at most 18 cells, as a grid with
    more leaves the loop nothing to count. *)
Theorem win_branch_adds_exactly_twelve
    (fuel : nat) (rnd : nat -> draw) (g0 : list (list string))
    (i0 i1 : nat) (w : string) (o : Outcome) :
  randomReels rnd 0 = Some (g0, i0) ->
  randomSymbol rnd i0 = Some (w, i1) ->
  run (generateSlotOutcome fuel "win") rnd = Some o ->
  occurrences w (reels o) = (occurrences w g0 + 12)%nat
  /\ (occurrences w g0 <= 18)%nat
  /\ forall sym, sym <> w -> (occurrences sym (reels o) <= occurrences sym g0)%nat.
Proof.
  intros E0 Ew. unfold run, generateSlotOutcome.
  rewrite (bind_some _ _ _ _ _ _ E0). simpl.
  unfold mbind at 1, Gen_bind at 1.
  rewrite (bind_some _ _ _ _ _ _ Ew).
  destruct (forceWin fuel w g0 0 rnd i1) as [[g' j] |] eqn:E; [| discriminate].
  simpl. intros [= <-]. simpl.
  pose proof (randomReels_wellShaped _ _ _ _ E0) as Hw0.
  pose proof E as E'.
  apply forceWin_returns in E'; [| exact Hw0 | lia]. destruct E' as [Hw' Ho].
  pose proof (occurrences_le_cells w g' Hw').
  split; [lia |]. split; [lia |].
  intros sym Hne. eapply forceWin_others; eassumption.
Qed.

(** The sweeping oracle draws [watermelon] 4 times and as the winning
    symbol: the grid returned holds it 16 times. *)
Lemma win_branch_adds_exactly_twelve_witness :
  exists g0 o,
    randomReels Fixtures.sweeping 0 = Some (g0, 30%nat)
    /\ run (generateSlotOutcome 30 "win") Fixtures.sweeping = Some o
    /\ occurrences "watermelon" g0 = 4%nat
    /\ occurrences "watermelon" (reels o) = (occurrences "watermelon" g0 + 12)%nat.
Proof.
  destruct (randomReels Fixtures.sweeping 0) as [[g0 i0] |] eqn:E0;
    [| vm_compute in E0; discriminate].
  pose proof (f_equal (fun x : option (list (list string) * nat) =>
                         match x with Some (_, j) => j | None => O end) E0) as Hi.
  vm_compute in Hi. subst i0.
  pose proof (f_equal (fun x : option (list (list string) * nat) =>
                         match x with Some (g, _) => g | None => [] end) E0) as Hg.
  cbv beta iota in Hg.
  destruct (run (generateSlotOutcome 30 "win") Fixtures.sweeping) as [o |] eqn:Eo;
    [| vm_compute in Eo; discriminate].
  exists g0, o. split; [reflexivity |]. split; [reflexivity |].
  split; [rewrite <- Hg; vm_compute; reflexivity |].
  apply (win_branch_adds_exactly_twelve 30 Fixtures.sweeping g0 30 31 "watermelon" o
           E0 eq_refl Eo).
Defined.

(** * Properties of the leaderboard *)

Import Winners.

Lemma total_fakeWinner : total fakeWinner.
Proof.
  unfold fakeWinner. apply total_bind; [apply total_random |]. intros u.
  apply total_bind; [apply total_random |]. intros v. apply total_ret.
Qed.

(** The leaderboard is the first ten of the sorted list of the real winners
    followed by the made-up ones. *)
Lemma generateWinnersList_unfold bs o db rnd i :
  let reals := realWinners bs o db in
  exists fakes j,
    fill (Nat.max 10 (length reals + 3) - length reals) fakeWinner rnd i
    = Some (fakes, j)
    /\ generateWinnersList bs o db rnd i
       = Some (take 10 (sortWinners (reals ++ fakes)), j).
Proof.
  intros reals.
  destruct (total_fill (Nat.max 10 (length reals + 3) - length reals) fakeWinner
              total_fakeWinner rnd i) as (fakes & j & E).
  exists fakes, j. split; [exact E |].
  unfold generateWinnersList, padWinners. fold reals.
  rewrite (bind_some _ _ _ _ _ _
             (bind_some _ _ _ _ _ _ E : (fill _ fakeWinner ≫= _) rnd i = _)).
  reflexivity.
Qed.





Lemma insertWinner_Forall (P : Winner -> Prop) x l :
  P x -> Forall P l -> Forall P (insertWinner x l).
Proof.
  intros Hx Hl. induction Hl as [| y l Hy Hl IH]; simpl.
  - now constructor.
  - destruct (comesAfter x y); repeat constructor; assumption.
Qed.

Lemma sortWinners_Forall (P : Winner -> Prop) l :
  Forall P l -> Forall P (sortWinners l).
Proof.
  induction 1 as [| x l Hx _ IH]; simpl; [constructor |].
  now apply insertWinner_Forall.
Qed.





Lemma fakeWinner_fake rnd i w j :
  fakeWinner rnd i = Some (w, j) ->
  exists k n,
    (1000 <= k <= 9999)%Z /\ (100 <= n <= 4999)%Z
    /\ w = mkWinner ("P-***" ++ pretty k)%string (Fin (inject_Z n)) false.
Proof.
  unfold fakeWinner, mbind, Gen_bind, random, mret, Gen_ret.
  intros [= <- _].
  pose proof (draw_bounds (rnd i)) as [Hu0 Hu1].
  pose proof (draw_bounds (rnd (S i))) as [Hv0 Hv1].
  set (u := draw_val (rnd i)) in *. set (v := draw_val (rnd (S i))) in *.
  exists (Qfloor (1000 + u * 9000)), (Qfloor (v * 4900) + 100)%Z.
  clearbody u v.
  split; [| split; [| reflexivity]].
  - split.
    + pose proof (Qfloor_resp_le 1000 (1000 + u * 9000) ltac:(lra)) as H.
      change (Qfloor 1000) with 1000%Z in H. exact H.
    + assert (Qfloor (1000 + u * 9000) < 10000)%Z; [| lia].
      rewrite Zlt_Qlt. apply Qle_lt_trans with (1000 + u * 9000)%Q;
        [apply Qfloor_le |].
      change (inject_Z 10000) with 10000%Q. lra.
  - assert (0 <= Qfloor (v * 4900) < 4900)%Z; [| lia]. split.
    + pose proof (Qfloor_resp_le 0 (v * 4900) ltac:(lra)) as H.
      change (Qfloor 0) with 0%Z in H. exact H.
    + rewrite Zlt_Qlt. apply Qle_lt_trans with (v * 4900)%Q; [apply Qfloor_le |].
      change (inject_Z 4900) with 4900%Q. lra.
Qed.




Lemma comesAfter_ranked x y :
  finiteAmount x -> finiteAmount y ->
  (comesAfter x y = false -> ranked x y) /\ (comesAfter x y = true -> ranked y x).
Proof.
  unfold finiteAmount, ranked, comesAfter, compareWinners, minus.
  destruct x as [ix [| qx] rx], y as [iy [| qy] ry]; simpl; try congruence.
  intros _ _.
  destruct rx, ry; simpl; split; intros H; try discriminate;
    try (split; [auto | intros; try discriminate]).
  - apply Qltb_ge in H. lra.
  - apply Qltb_lt in H. lra.
  - apply Qltb_ge in H. lra.
  - apply Qltb_lt in H. lra.
Qed.

Lemma ranked_trans x y z : ranked x y -> ranked y z -> ranked x z.
Proof.
  unfold ranked. intros [H1 H2] [H3 H4].
  destruct (w_isReal x), (w_isReal y), (w_isReal z); split; auto;
    try (intros; lra);
    try (destruct H1; discriminate); try (destruct H3; discriminate);
    intros; try discriminate.
Qed.

Lemma insertWinner_sorted x l :
  finiteAmount x -> Forall finiteAmount l ->
  StronglySorted ranked l -> StronglySorted ranked (insertWinner x l).
Proof.
  intros Hx Hl Hs. induction Hs as [| y l Hs IH Hy]; simpl.
  - repeat constructor.
  - apply Forall_cons in Hl. destruct Hl as [Hfy Hl].
    destruct (comesAfter_ranked x y Hx Hfy) as [Hle Hgt].
    destruct (comesAfter x y).
    + constructor; [apply IH, Hl |].
      apply insertWinner_Forall; [apply Hgt; reflexivity | exact Hy].
    + constructor; [now constructor |].
      constructor; [apply Hle; reflexivity |].
      eapply Forall_impl; [exact Hy |]. simpl. intros z Hz.
      eapply ranked_trans; [apply Hle; reflexivity | exact Hz].
Qed.

Lemma sortWinners_sorted l :
  Forall finiteAmount l -> StronglySorted ranked (sortWinners l).
Proof.
  induction 1 as [| x l Hx Hl IH]; simpl; [constructor |].
  apply insertWinner_sorted; [exact Hx | now apply sortWinners_Forall | exact IH].
Qed.

Lemma StronglySorted_lookups {A : Type} (R : A -> A -> Prop) (l : list A) k1 k2 a b :
  StronglySorted R l -> (k1 < k2)%nat ->
  l !! k1 = Some a -> l !! k2 = Some b -> R a b.
Proof.
  intros Hs. revert k1 k2. induction Hs as [| x l Hs IH Hx]; intros k1 k2 Hk H1 H2;
    [discriminate |].
  destruct k2 as [| k2]; [lia |]. simpl in H2.
  destruct k1 as [| k1]; simpl in H1.
  - injection H1 as ->. eapply Forall_forall; [exact Hx |].
    eapply list_elem_of_lookup_2, H2.
  - eapply (IH k1 k2); [lia | exact H1 | exact H2].
Qed.

Lemma realWinners_finite bs o db :
  Forall (fun b => betAmount b <> NaN) bs ->
  Forall finiteAmount (realWinners bs o db).
Proof.
  unfold realWinners. induction 1 as [| b bs Hb _ IH]; simpl; [constructor |].
  apply Forall_app. split; [| exact IH].
  destruct (String.eqb (side b) o); [| constructor].
  destruct (users db !! userId b); repeat constructor.
  unfold finiteAmount. simpl. destruct (betAmount b); [contradiction | discriminate].
Qed.

(** X14. When every stake is a number, the leaderboard is in rank order:
    of two entries the earlier one is never a made-up entry in front of a
    real one, and when both are of the same kind the earlier one has the
    amount at least as high. *)
Theorem leaderboard_is_ranked_by_kind_then_amount
    (bs : list Bet) (o : string) (db : Db) (rnd : nat -> draw) (i j : nat)
    (ws : list Winner) (k1 k2 : nat) (a b : Winner) :
  Forall (fun bet => betAmount bet <> NaN) bs ->
  generateWinnersList bs o db rnd i = Some (ws, j) ->
  (k1 < k2)%nat -> ws !! k1 = Some a -> ws !! k2 = Some b ->
  (w_isReal a = true \/ w_isReal b = false)
  /\ (w_isReal a = w_isReal b ->
      (orZero (w_amount b) <= orZero (w_amount a))%Q).
Proof.
  intros Hfin H Hk Ha Hb.
  destruct (generateWinnersList_unfold bs o db rnd i) as (fakes & j' & Ef & E).
  cbv zeta in *. rewrite E in H. injection H as <- <-.
  assert (Hall : Forall finiteAmount (realWinners bs o db ++ fakes)).
  { apply Forall_app. split; [now apply realWinners_finite |].
    eapply fill_Forall; [| exact Ef]. intros i' w j'' Hw.
    apply fakeWinner_fake in Hw. destruct Hw as (k & n & _ & _ & ->). discriminate. }
  pose proof (sortWinners_sorted _ Hall) as Hs.
  rewrite <- (take_drop 10 (sortWinners (realWinners bs o db ++ fakes))) in Hs.
  apply StronglySorted_app_1_l in Hs.
  exact (StronglySorted_lookups ranked _ k1 k2 a b Hs Hk Ha Hb).
Qed.

(** One real winner (a stake of 10, shown as 20) in front of nine made-up
    entries: the first two entries are in rank order. *)
Lemma leaderboard_is_ranked_by_kind_then_amount_witness :
  exists ws j a b,
    generateWinnersList [mkBet "alice" (Fin 10) "win"] "win" Fixtures.db0
                        Fixtures.cycling 0 = Some (ws, j)
    /\ ws !! 0%nat = Some a /\ ws !! 1%nat = Some b
    /\ w_id a = "P-***lice" /\ w_isReal a = true /\ w_isReal b = false
    /\ (w_isReal a = true \/ w_isReal b = false).
Proof.
  destruct (generateWinnersList [mkBet "alice" (Fin 10) "win"] "win" Fixtures.db0
              Fixtures.cycling 0) as [[ws j] |] eqn:E;
    [| vm_compute in E; discriminate].
  pose proof E as E'. vm_compute in E'. injection E' as <- <-.
  eexists _, _, _, _. split; [reflexivity |].
  split; [reflexivity |]. split; [reflexivity |].
  split; [reflexivity |]. split; [reflexivity |]. split; [reflexivity |].
  refine (proj1 (leaderboard_is_ranked_by_kind_then_amount
                   [mkBet "alice" (Fin 10) "win"] "win" Fixtures.db0
                   Fixtures.cycling 0 _ _ 0 1 _ _ _ E ltac:(lia) eq_refl eq_refl)).
  repeat constructor. discriminate.
Defined.

Lemma realWinners_from_bets bs o db :
  Forall (fun w =>
            exists bet,
              bet ∈ bs /\ side bet = o /\ is_Some (users db !! userId bet)
              /\ w = mkWinner (maskedId (userId bet)) (double (betAmount bet)) true)
         (realWinners bs o db).
Proof.
  unfold realWinners. induction bs as [| b bs IH]; simpl; [constructor |].
  apply Forall_app. split.
  - destruct (String.eqb_spec (side b) o) as [Es | Es]; [| constructor].
    destruct (users db !! userId b) as [u |] eqn:Eu; [| constructor].
    repeat constructor. exists b. rewrite Eu. repeat split; eauto. left.
  - eapply Forall_impl; [exact IH |]. simpl.
    intros w (bet & Hin & Hrest). exists bet. split; [now right | exact Hrest].
Qed.

(** X15. Every entry of the leaderboard is accounted for.  A real entry
    stands for a bet of the round on the decided side whose user the
    database knows: its id is [P-***] followed by the last four characters
    of the user id, and its amount is twice the stake.  A made-up entry has
    an id [P-***] followed by a number from 1000 to 9999 and a whole amount
    from 100 to 4999. *)
Theorem leaderboard_entries_are_winning_bets_or_made_up
    (bs : list Bet) (o : string) (db : Db) (rnd : nat -> draw) (i j : nat)
    (ws : list Winner) :
  generateWinnersList bs o db rnd i = Some (ws, j) ->
  Forall (fun w =>
            if w_isReal w then
              exists bet,
                bet ∈ bs /\ side bet = o /\ is_Some (users db !! userId bet)
                /\ w = mkWinner (maskedId (userId bet)) (double (betAmount bet)) true
            else
              exists k n,
                (1000 <= k <= 9999)%Z /\ (100 <= n <= 4999)%Z
                /\ w = mkWinner ("P-***" ++ pretty k)%string (Fin (inject_Z n)) false)
         ws.
Proof.
  intros H.
  destruct (generateWinnersList_unfold bs o db rnd i) as (fakes & j' & Ef & E).
  cbv zeta in *. rewrite E in H. injection H as <- <-.
  apply Forall_take, sortWinners_Forall, Forall_app. split.
  - eapply Forall_impl; [apply realWinners_from_bets |]. simpl.
    intros w (bet & Hin & Hs & Hu & ->). simpl. eauto.
  - eapply fill_Forall; [| exact Ef]. intros i' w j'' Hw.
    apply fakeWinner_fake in Hw. destruct Hw as (k & n & Hk & Hn & ->). simpl. eauto.
Qed.

(** With no bet at all the ten entries are made up. *)
Lemma leaderboard_entries_are_winning_bets_or_made_up_witness :
  exists ws j,
    generateWinnersList [] "win" Fixtures.db0 Fixtures.cycling 0 = Some (ws, j)
    /\ Forall (fun w => w_isReal w = false) ws.
Proof.
  destruct (generateWinnersList [] "win" Fixtures.db0 Fixtures.cycling 0)
    as [[ws j] |] eqn:E; [| vm_compute in E; discriminate].
  exists ws, j. split; [reflexivity |].
  eapply Forall_impl;
    [exact (leaderboard_entries_are_winning_bets_or_made_up _ _ _ _ _ _ _ E) |].
  simpl. intros w Hw. destruct (w_isReal w); [| reflexivity].
  destruct Hw as (bet & Hin & _). inversion Hin.
Defined.

(** * Further properties of solo play *)

Import SoloFacts.

(** ** The weighted symbol *)

Lemma totalWeight_is_125 : (Solo.totalWeight == 125)%Q.
Proof. reflexivity. Qed.

(** X16. The symbol [getWeightedSymbol] returns is the one the cumulative
    weights select: grapes for a draw up to 40/125, orange up to 70/125,
    lemon up to 90/125, watermelon up to 105/125, banana up to 115/125,
    apple up to 120/125, strawberry up to 123/125, star up to 124.5/125 and
    diamond above; each symbol thus comes with probability weight/125, and
    the fallback after the loop is never reached.  One draw is used. *)
Theorem weighted_symbol_follows_cumulative_weights (rnd : nat -> draw) (i : nat) :
  Solo.getWeightedSymbol rnd i = Some (symbolOfDraw (draw_val (rnd i)), S i).
Proof.
  unfold Solo.getWeightedSymbol, mbind, Gen_bind, random, mret, Gen_ret.
  do 2 f_equal.
  pose proof (draw_bounds (rnd i)) as [H0 H1].
  pose proof totalWeight_is_125 as Ht.
  set (u := draw_val (rnd i)) in *. clearbody u.
  set (t := Solo.totalWeight) in *. clearbody t.
  unfold Solo.pickWeighted, Solo.SYMBOL_WEIGHTS, symbolOfDraw.
  repeat match goal with
         | |- context [Qle_bool ?a ?b] =>
             let E := fresh "E" in
             destruct (Qle_bool a b) eqn:E;
             [apply Qle_bool_iff in E
             | apply not_true_iff_false in E; rewrite Qle_bool_iff in E;
               apply Qnot_le_lt in E]
         end;
    try reflexivity; exfalso; nra.
Qed.

(** ** The reel result *)

Lemma lineStep_quiet bet st e rnd i :
  (Solo.ce_count e <= 2)%nat -> Solo.lineStep bet st e rnd i = Some (st, i).
Proof.
  intros H. unfold Solo.lineStep. destruct st as [tw wp].
  destruct (Nat.leb_spec 5 (Solo.ce_count e)); [lia |].
  destruct (Nat.leb_spec 4 (Solo.ce_count e)); [lia |].
  destruct (Nat.eqb_spec (Solo.ce_count e) 3); [lia |]. reflexivity.
Qed.

Lemma lines_quiet bet st es rnd i :
  Forall (fun e => (Solo.ce_count e <= 2)%nat) es ->
  forEach (Solo.lineStep bet) es st rnd i = Some (st, i).
Proof.
  induction 1 as [| e es He _ IH]; simpl; [reflexivity |].
  now rewrite (bind_some _ _ _ _ _ _ (lineStep_quiet bet st e rnd i He)).
Qed.

Lemma scatterStep_quiet bet rs st rnd i :
  (Solo.scatterCount rs <= 2)%nat -> Solo.scatterStep bet rs st rnd i = Some (st, i).
Proof.
  intros H. unfold Solo.scatterStep. destruct st as [tw wp].
  destruct (Nat.leb_spec 5 (Solo.scatterCount rs)); [lia |].
  destruct (Nat.leb_spec 4 (Solo.scatterCount rs)); [lia |].
  destruct (Nat.eqb_spec (Solo.scatterCount rs) 3); [lia |]. reflexivity.
Qed.

(** X17. No combination, no win: on a grid where no symbol stands three
    times or more at one position and fewer than three cells hold a scatter
    symbol, the evaluation makes no draw, marks no winning position and
    reports a win amount of zero, whatever the bet. *)
Theorem no_combination_pays_nothing
    (bet : Q) (rs : Solo.Reels) (rnd : nat -> draw) (i : nat) :
  Forall (fun e => (Solo.ce_count e <= 2)%nat) (Solo.countSymbols rs) ->
  (Solo.scatterCount rs <= 2)%nat ->
  exists r,
    Solo.evaluateReels bet rs rnd i = Some (r, i)
    /\ Solo.reels r = rs
    /\ (Solo.winAmount r == 0)%Q
    /\ Solo.winningPositions r = [].
Proof.
  intros Hl Hs. unfold Solo.evaluateReels.
  rewrite (bind_some _ _ _ _ _ _ (lines_quiet bet (0%Q, []) _ rnd i Hl)).
  rewrite (bind_some _ _ _ _ _ _ (scatterStep_quiet bet rs (0%Q, []) rnd i Hs)).
  eexists. split; [reflexivity |]. simpl. repeat split.
Qed.

(** The grid with four scatter symbols has no three-of-a-kind at a position
    but pays on its scatters; with one scatter replaced twice it pays
    nothing. *)
Lemma no_combination_pays_nothing_witness :
  exists r,
    Solo.evaluateReels 10
      [ [Solo.Star; Solo.Grapes; Solo.Orange];
        [Solo.Banana; Solo.Orange; Solo.Lemon];
        [Solo.Diamond; Solo.Lemon; Solo.Grapes];
        [Solo.Banana; Solo.Grapes; Solo.Orange];
        [Solo.Grapes; Solo.Orange; Solo.Lemon];
        [Solo.Orange; Solo.Lemon; Solo.Grapes] ] Fixtures.zeros 0 = Some (r, 0%nat)
    /\ (Solo.winAmount r == 0)%Q.
Proof.
  destruct (no_combination_pays_nothing 10
              [ [Solo.Star; Solo.Grapes; Solo.Orange];
                [Solo.Banana; Solo.Orange; Solo.Lemon];
                [Solo.Diamond; Solo.Lemon; Solo.Grapes];
                [Solo.Banana; Solo.Grapes; Solo.Orange];
                [Solo.Grapes; Solo.Orange; Solo.Lemon];
                [Solo.Orange; Solo.Lemon; Solo.Grapes] ] Fixtures.zeros 0)
    as (r & E & _ & Hw & _).
  - vm_compute. repeat (constructor; [lia |]). constructor.
  - vm_compute. lia.
  - exists r. split; [exact E | exact Hw].
Defined.

Lemma lineStep_grows bet st e rnd i st' j :
  (0 <= bet)%Q -> Solo.lineStep bet st e rnd i = Some (st', j) ->
  (fst st <= fst st')%Q.
Proof.
  intros Hb. unfold Solo.lineStep. destruct st as [tw wp].
  assert (Hbase : (1 <= Solo.SYMBOL_MULTIPLIERS (Solo.ce_symbol e))%Q).
  { destruct (Solo.ce_symbol e); simpl; lra. }
  set (base := Solo.SYMBOL_MULTIPLIERS (Solo.ce_symbol e)) in *. clearbody base.
  unfold mbind, Gen_bind, random, mret, Gen_ret.
  destruct (Nat.leb_spec 5 (Solo.ce_count e)) as [H5 | H5].
  - intros [= <- _]. simpl.
    assert (Hc : (5 <= inject_Z (Z.of_nat (Solo.ce_count e)))%Q).
    { change 5%Q with (inject_Z 5). rewrite <- Zle_Qle. lia. }
    set (c := inject_Z (Z.of_nat (Solo.ce_count e))) in *. clearbody c.
    assert (Hm : (0 <= base * (c - 4) * (7 # 10))%Q).
    { apply Qmult_le_0_compat; [apply Qmult_le_0_compat; lra | lra]. }
    pose proof (Qmult_le_0_compat _ _ Hb Hm). lra.
  - destruct (4 <=? Solo.ce_count e)%nat.
    + intros [= <- _]. simpl. nra.
    + destruct (Solo.ce_count e =? 3)%nat.
      * destruct (Qltb (draw_val (rnd i)) (3 # 10)); intros [= <- _]; simpl; nra.
      * intros [= <- _]. simpl. lra.
Qed.

Lemma scatterStep_grows bet rs st rnd i st' j :
  (0 <= bet)%Q -> Solo.scatterStep bet rs st rnd i = Some (st', j) ->
  (fst st <= fst st')%Q.
Proof.
  intros Hb. unfold Solo.scatterStep. destruct st as [tw wp].
  unfold mbind, Gen_bind, random, mret, Gen_ret.
  destruct (5 <=? Solo.scatterCount rs)%nat;
    [ destruct (Solo.scatterCount rs =? 5)%nat;
      [| destruct (6 <=? Solo.scatterCount rs)%nat]
    | destruct (4 <=? Solo.scatterCount rs)%nat;
      [| destruct (Solo.scatterCount rs =? 3)%nat;
         [destruct (Qltb (draw_val (rnd i)) (2 # 10)) |]] ];
    intros [= <- _]; cbn [fst]; lra.
Qed.

Lemma floorQ_cents_nonneg x : (0 <= x)%Q -> (0 <= floorQ (x * 100) / 100)%Q.
Proof.
  intros H. unfold floorQ.
  assert (H0 : (0 <= Qfloor (x * 100))%Z).
  { change 0%Z with (Qfloor 0). apply Qfloor_resp_le. lra. }
  apply Qle_shift_div_l; [lra |]. rewrite Qmult_0_l.
  change 0%Q with (inject_Z 0). now rewrite <- Zle_Qle.
Qed.

Lemma fill_draws {A : Type} (d n : nat) (g : Gen A) rnd i l j :
  (forall i x j, g rnd i = Some (x, j) -> j = (i + d)%nat) ->
  fill n g rnd i = Some (l, j) -> j = (i + n * d)%nat.
Proof.
  intros Hg. revert i l j. induction n as [| n IH]; intros i l j; simpl.
  - intros [= _ <-]. lia.
  - unfold mbind, Gen_bind.
    destruct (g rnd i) as [[x i1] |] eqn:E1; [| discriminate].
    destruct (fill n g rnd i1) as [[xs i2] |] eqn:E2; [| discriminate].
    intros [= _ <-]. apply Hg in E1. apply IH in E2. lia.
Qed.

Lemma getWeightedSymbol_draws rnd i x j :
  Solo.getWeightedSymbol rnd i = Some (x, j) -> j = S i.
Proof.
  unfold Solo.getWeightedSymbol, mbind, Gen_bind, random, mret, Gen_ret.
  intros H.
  exact (eq_sym (f_equal (fun o => match o with
                                   | Some (_, j') => j'
                                   | None => O
                                   end) H)).
Qed.

(** X18. [generateReelResult] always returns: a grid of 6 reels of 3
    symbols drawn with the first 18 draws, and for a non-negative bet a win
    amount that is not negative and is a whole number of hundredths. *)
Theorem reel_result_is_a_grid_with_a_win_in_cents
    (bet : Q) (rnd : nat -> draw) (i : nat) :
  exists r j,
    Solo.generateReelResult bet rnd i = Some (r, j)
    /\ fill 6 (fill 3 Solo.getWeightedSymbol) rnd i
       = Some (Solo.reels r, (i + 18)%nat)
    /\ length (Solo.reels r) = 6%nat
    /\ Forall (fun reel => length reel = 3%nat) (Solo.reels r)
    /\ (i + 18 <= j)%nat
    /\ (exists n : Z, Solo.winAmount r = (inject_Z n / 100)%Q)
    /\ ((0 <= bet)%Q -> (0 <= Solo.winAmount r)%Q).
Proof.
  destruct (total_generateReelResult bet rnd i) as (r & j & E).
  exists r, j. split; [exact E |].
  revert E. unfold Solo.generateReelResult.
  destruct (total_fill 6 (fill 3 Solo.getWeightedSymbol)
              (total_fill 3 _ total_getWeightedSymbol) rnd i) as (rs & i1 & Ers).
  rewrite (bind_some _ _ _ _ _ _ Ers).
  assert (Hi1 : i1 = (i + 18)%nat).
  { apply (fill_draws 3 6 _ rnd i rs i1) in Ers; [lia |].
    intros k reel k' Hr.
    apply (fill_draws 1 3 _ rnd k reel k') in Hr; [lia |].
    intros k0 x k0' Hx. apply getWeightedSymbol_draws in Hx. lia. }
  subst i1.
  unfold Solo.evaluateReels, mbind, Gen_bind.
  destruct (forEach (Solo.lineStep bet) (Solo.countSymbols rs) (0%Q, []) rnd (i + 18))
    as [[st i2] |] eqn:El; [| discriminate].
  destruct (Solo.scatterStep bet rs st rnd i2) as [[st' i3] |] eqn:Es; [| discriminate].
  unfold mret, Gen_ret. intros [= <- <-]. simpl.
  split; [exact Ers |].
  split; [eapply fill_length, Ers |].
  split; [eapply fill_Forall; [| exact Ers]; intros ? ? ? Hc; eapply fill_length, Hc |].
  assert (Hmono : forall es s0 k0 s1 k1,
             forEach (Solo.lineStep bet) es s0 rnd k0 = Some (s1, k1) ->
             (k0 <= k1)%nat /\ ((0 <= bet)%Q -> (fst s0 <= fst s1)%Q)).
  { induction es as [| e es IH]; intros s0 k0 s1 k1; simpl.
    - intros [= <- <-]. split; [lia | intros; lra].
    - unfold mbind, Gen_bind.
      destruct (Solo.lineStep bet s0 e rnd k0) as [[s2 k2] |] eqn:E2; [| discriminate].
      intros H. apply IH in H. destruct H as [Hk Hs]. split.
      + assert (k0 <= k2)%nat; [| lia].
        revert E2. unfold Solo.lineStep, mbind, Gen_bind, random, mret, Gen_ret.
        destruct s0.
        repeat match goal with
               | |- context [if ?c then _ else _] => destruct c
               end; intros [= _ <-]; lia.
      + intros Hb. pose proof (lineStep_grows _ _ _ _ _ _ _ Hb E2). specialize (Hs Hb). lra. }
  destruct (Hmono _ _ _ _ _ El) as [Hk Hs].
  split.
  - assert (i2 <= i3)%nat; [| lia].
    revert Es. unfold Solo.scatterStep, mbind, Gen_bind, random, mret, Gen_ret.
    destruct st.
    repeat match goal with
           | |- context [if ?c then _ else _] => destruct c
           end; intros [= _ <-]; lia.
  - split; [eexists; reflexivity |].
    intros Hb. apply floorQ_cents_nonneg.
    pose proof (scatterStep_grows _ _ _ _ _ _ _ Hb Es). specialize (Hs Hb).
    simpl in Hs. lra.
Qed.

(** ** Solo play: requests, balances and the ledger *)

Lemma Qmax_0_nonneg x : (0 <= Qmax 0 x)%Q.
Proof.
  unfold Qmax. destruct (Qle_bool 0 x) eqn:E; [now apply Qle_bool_iff | lra].
Qed.

Lemma validateBet_accepts_iff body bet :
  Solo.validateBet body = inr bet <->
  body = Solo.Numeric bet /\ (1 <= bet <= Solo.MAX_BET)%Q.
Proof.
  split; [apply validateBet_accepts |].
  intros [-> [H1 H2]]. unfold Solo.validateBet.
  assert (E0 : Qeq_bool bet 0 = false).
  { apply not_true_iff_false. rewrite Qeq_bool_iff. lra. }
  assert (E1 : Qle_bool bet 0 = false).
  { apply not_true_iff_false. rewrite Qle_bool_iff. lra. }
  rewrite E0, E1.
  rewrite (proj2 (Qltb_ge bet 1) H1), (proj2 (Qltb_ge Solo.MAX_BET bet) H2).
  reflexivity.
Qed.

Lemma validateBet_rejects_400 body e :
  Solo.validateBet body = inl e -> Solo.err_status e = 400%Z.
Proof.
  unfold Solo.validateBet. destruct body as [| | q].
  - now intros [= <-].
  - now intros [= <-].
  - repeat match goal with
           | |- context [if ?c then _ else _] => destruct c
           end; intros [= <-]; reflexivity.
Qed.

(** The debit [computeLoss] returns is never negative and never above the
    balance. *)
Lemma computeLoss_bounds bet userBalance actualWin rnd i loss k :
  (0 <= userBalance)%Q ->
  Solo.computeLoss bet userBalance actualWin rnd i = Some (loss, k) ->
  (0 <= loss <= userBalance)%Q.
Proof.
  intros Hu. unfold Solo.computeLoss. unfold mbind at 1. unfold Gen_bind at 1.
  match goal with |- context [match ?c with Some _ => _ | None => _ end] =>
    destruct c as [[a j] |] end; [| discriminate].
  unfold mret, Gen_ret. intros [= <- _].
  split; [apply Qmax_0_nonneg |].
  unfold Qmax, Qmin.
  destruct (Qle_bool a userBalance) eqn:E1;
    [apply Qle_bool_iff in E1 |];
    match goal with |- context [Qle_bool 0 ?x] =>
      destruct (Qle_bool 0 x) eqn:E2 end; lra.
Qed.

(** The debit of a play that wins is the stake. *)
Lemma computeLoss_win bet userBalance actualWin rnd i :
  Qeq_bool actualWin 0 = false -> (0 <= bet)%Q -> (bet <= userBalance)%Q ->
  Solo.computeLoss bet userBalance actualWin rnd i = Some (bet, i).
Proof.
  intros Hw H0 Hb. unfold Solo.computeLoss. rewrite Hw.
  unfold mbind, Gen_bind, mret, Gen_ret.
  rewrite (Qmin_of_le bet userBalance Hb), (Qmax_of_le 0 bet H0). reflexivity.
Qed.


(** Everything a played request returns and writes, in terms of the stake,
    the user read, the reel result and the debit. *)
Lemma playGame_inv body uid db rnd i r db' k :
  Solo.playGame body uid db rnd i = Some (Solo.Played r db', k) ->
  exists bet user gr j loss,
    let win := Qmax 0 (Solo.winAmount gr) in
    let afterLoss := Qmax 0 (balance user - loss) in
    let final := if Qltb 0 win then (afterLoss + win)%Q else afterLoss in
    let net := (win - loss)%Q in
    let pct := if Qltb 0 (balance user)
               then (net / balance user * 100)%Q else 0%Q in
    let mult := if Qeq_bool win 0 then Some (loss / bet)%Q else None in
    Solo.validateBet body = inr bet
    /\ users db !! uid = Some user
    /\ (status user = "active" \/ status user = "pending")
    /\ (bet <= balance user)%Q
    /\ Solo.generateReelResult bet rnd i = Some (gr, j)
    /\ Solo.computeLoss bet (balance user) win rnd j = Some (loss, k)
    /\ r = Solo.mkResponse (Solo.reels gr) bet loss win net final pct mult
             (Solo.winningPositions gr) final (balance user)
    /\ users db' =
       <[uid := mkUser final (status user)
                  (if Qltb 0 win then (totalWinnings user + win)%Q
                   else totalWinnings user)
                  (currency user)]> (users db)
    /\ transactions db' =
       transactions db ++
       [mkTransaction uid (if Qltb 0 win then "game_win" else "game_loss")
          (Qabs net) "completed"
          (if Qltb 0 win then "Sweet Bonanza - Win" else "Sweet Bonanza - Loss")
          (SoloMeta bet loss win net pct (balance user) final mult)]
    /\ history db' =
       history db ++
       [mkBalanceHistory uid (if Qltb 0 win then "win" else "loss")
          (balance user) final net pct "game" (length (transactions db))
          (if Qltb 0 win then "win" else "loss") (Qabs net)].
Proof.
  unfold Solo.playGame.
  destruct (Solo.validateBet body) as [e | bet]; [discriminate |].
  destruct (users db !! uid) as [user |]; [| discriminate].
  destruct (String.eqb_spec (status user) "active") as [Ea | Ea];
    destruct (String.eqb_spec (status user) "pending") as [Ep | Ep];
    try discriminate; cbn [negb andb].
  all: destruct (Qltb (balance user) bet) eqn:Eb; [discriminate |];
    apply Qltb_ge in Eb;
    destruct (total_generateReelResult bet rnd i) as (gr & j & Eg);
    rewrite (bind_some _ _ _ _ _ _ Eg);
    destruct (total_computeLoss bet (balance user) (Qmax 0 (Solo.winAmount gr)) rnd j)
      as (loss & k' & El);
    rewrite (bind_some _ _ _ _ _ _ El);
    match goal with |- context [if ?c then mret (Solo.Rejected _) else _] =>
      destruct c end; [discriminate |];
    intros [= <- <- <-];
    exists bet, user, gr, j, loss; cbn zeta;
    (split; [reflexivity |]); (split; [reflexivity |]);
    (split; [auto |]); (split; [exact Eb |]); (split; [exact Eg |]);
    (split; [exact El |]);
    unfold set_totalWinnings, set_balance; cbn [balance status totalWinnings currency users transactions history];
    destruct (Qltb 0 (Qmax 0 (Solo.winAmount gr)));
    cbn [balance status totalWinnings currency];
    repeat split; reflexivity.
Qed.

(** X19. [playGame] always answers, and it plays a request exactly when the
    request is playable: a stake from 1 to 1,000,000, a known user whose
    account is active or pending, and a balance that covers the stake.  A
    request it refuses uses no draw and is answered with status 400, 403 or
    404: 404 only for an unknown user, 403 only for a user whose account is
    neither active nor pending.  The check of the final balance (status
    500) never fires. *)
Theorem solo_request_is_played_exactly_when_playable
    (body : Solo.BodyValue) (uid : string) (db : Db)
    (rnd : nat -> draw) (i : nat) :
  exists res j,
    Solo.playGame body uid db rnd i = Some (res, j)
    /\ match res with
       | Solo.Played _ _ => playable body uid db
       | Solo.Rejected e =>
           ~ playable body uid db
           /\ j = i
           /\ (Solo.err_status e = 400 \/ Solo.err_status e = 403
               \/ Solo.err_status e = 404)%Z
           /\ (Solo.err_status e = 404%Z -> users db !! uid = None)
           /\ (Solo.err_status e = 403%Z ->
               exists user, users db !! uid = Some user
                            /\ status user <> "active"
                            /\ status user <> "pending")
       end.
Proof.
  unfold Solo.playGame.
  destruct (Solo.validateBet body) as [e | bet] eqn:Ev.
  { exists (Solo.Rejected e), i. split; [reflexivity |].
    pose proof (validateBet_rejects_400 _ _ Ev) as H4.
    split.
    { intros (bet & user & Hb & Hr & _).
      assert (Solo.validateBet body = inr bet) as Hv
          by (apply validateBet_accepts_iff; auto).
      congruence. }
    split; [reflexivity |]. split; [auto |].
    split; intros H; rewrite H4 in H; discriminate. }
  pose proof (proj1 (validateBet_accepts_iff _ _) Ev) as [Hbody Hbet].
  destruct (users db !! uid) as [user |] eqn:Eu.
  2: { exists (Solo.Rejected (Solo.mkAppError "User not found" 404)), i.
       split; [reflexivity |]. split.
       { intros (bet' & user & _ & _ & Hu & _). congruence. }
       split; [reflexivity |]. split; [auto |].
       split; [reflexivity | discriminate]. }
  destruct (negb (status user =? "active")%string
            && negb (status user =? "pending")%string) eqn:Es.
  { eexists _, i. split; [reflexivity |].
    apply andb_true_iff in Es. destruct Es as [Ea Ep].
    apply negb_true_iff in Ea, Ep. apply String.eqb_neq in Ea, Ep.
    split.
    { intros (bet' & user' & _ & _ & Hu & Hs & _).
      assert (user' = user) by congruence. subst user'. tauto. }
    split; [reflexivity |]. split; [cbn; auto |].
    split; [discriminate |]. intros _. eauto. }
  assert (Hs : status user = "active" \/ status user = "pending").
  { apply andb_false_iff in Es.
    destruct Es as [Es | Es]; apply negb_false_iff, String.eqb_eq in Es; auto. }
  destruct (Qltb (balance user) bet) eqn:Eb.
  { eexists _, i. split; [reflexivity |]. apply Qltb_lt in Eb.
    split.
    { intros (bet' & user' & Hb & _ & Hu & _ & Hle).
      assert (user' = user) by congruence. subst user'.
      assert (bet' = bet) by congruence. subst bet'. lra. }
    split; [reflexivity |]. split; [cbn; auto |].
    split; discriminate. }
  apply Qltb_ge in Eb.
  destruct (total_generateReelResult bet rnd i) as (gr & j & Eg).
  rewrite (bind_some _ _ _ _ _ _ Eg).
  destruct (total_computeLoss bet (balance user) (Qmax 0 (Solo.winAmount gr)) rnd j)
    as (loss & k & El).
  rewrite (bind_some _ _ _ _ _ _ El).
  assert (Hl : (0 <= loss <= balance user)%Q).
  { eapply computeLoss_bounds; [| exact El]. lra. }
  pose proof (Qmax_0_nonneg (Solo.winAmount gr)) as Hw.
  pose proof (Qmax_0_nonneg (balance user - loss)) as Ha.
  match goal with |- context [if ?c then mret (Solo.Rejected _) else _] =>
    destruct c eqn:Ef end.
  { exfalso. apply Qltb_lt in Ef. revert Ef.
    unfold set_totalWinnings, set_balance.
    destruct (Qltb 0 (Qmax 0 (Solo.winAmount gr)));
      cbn [balance status totalWinnings currency]; lra. }
  eexists _, k. split; [reflexivity |].
  exists bet, user. auto.
Qed.





(** X22. A play with a positive win is recorded as [game_win] whatever the
    direction of the balance: the stake is debited and the win credited, so
    the balance falls exactly when the win is below the stake, and the
    amount recorded is the distance between win and stake. *)
Theorem recorded_win_lowers_balance_when_below_stake
    (body : Solo.BodyValue) (uid : string) (db : Db)
    (rnd : nat -> draw) (i : nat)
    (r : Solo.Response) (db' : Db) (k : nat) :
  Solo.playGame body uid db rnd i = Some (Solo.Played r db', k) ->
  (0 < Solo.res_winAmount r)%Q ->
  (exists t,
     last (transactions db') = Some t
     /\ tx_type t = "game_win"
     /\ tx_amount t = Qabs (Solo.res_winAmount r - Solo.res_betAmount r))
  /\ (Solo.res_newBalance r
      == Solo.res_initialBalance r - Solo.res_betAmount r
         + Solo.res_winAmount r)%Q
  /\ ((Solo.res_newBalance r < Solo.res_initialBalance r)%Q
      <-> (Solo.res_winAmount r < Solo.res_betAmount r)%Q).
Proof.
  intros Hplay.
  destruct (playGame_inv _ _ _ _ _ _ _ _ Hplay)
    as (bet & user & gr & j & loss & Hv & Hu & Hs & Hb & Hg & Hl & -> & _ & Htx & _).
  cbn [Solo.res_betAmount Solo.res_initialBalance Solo.res_winAmount
       Solo.res_newBalance].
  set (win := Qmax 0 (Solo.winAmount gr)) in *.
  intros Hpos.
  apply validateBet_accepts in Hv. destruct Hv as [_ Hbet].
  assert (Ez : Qeq_bool win 0 = false).
  { apply not_true_iff_false. rewrite Qeq_bool_iff. lra. }
  rewrite (computeLoss_win bet (balance user) win rnd j Ez) in Hl by lra.
  injection Hl as <- _.
  assert (Ep : Qltb 0 win = true) by now apply Qltb_lt.
  rewrite Ep in Htx |- *.
  rewrite (Qmax_of_le 0 (balance user - bet)) by lra.
  split.
  { eexists. rewrite Htx, last_snoc. repeat split. }
  split; [reflexivity |].
  split; intros; lra.
Qed.

(** A stake of 10 on a balance of 100 with three [grapes] at position 0 and
    a draw below 0.3: the win is 4, the play is recorded as [game_win] and
    the balance falls to 94. *)
Lemma recorded_win_lowers_balance_when_below_stake_witness :
  exists r db' k t,
    Solo.playGame (Solo.Numeric 10) "alice" Fixtures.db0 Fixtures.threeGrapes 0
    = Some (Solo.Played r db', k)
    /\ (0 < Solo.res_winAmount r)%Q
    /\ last (transactions db') = Some t
    /\ tx_type t = "game_win"
    /\ (Solo.res_newBalance r < Solo.res_initialBalance r)%Q
    /\ Qeq_bool (Solo.res_newBalance r) 94 = true.
Proof.
  destruct (Solo.playGame (Solo.Numeric 10) "alice" Fixtures.db0
              Fixtures.threeGrapes 0)
    as [[[e | r db'] k] |] eqn:E.
  - exfalso. vm_compute in E. discriminate.
  - assert (Hw : Qeq_bool (Solo.res_winAmount r) 4 = true
                 /\ Qeq_bool (Solo.res_betAmount r) 10 = true
                 /\ Qeq_bool (Solo.res_newBalance r) 94 = true).
    { revert E. vm_compute. intros [= <- _ _]. repeat split. }
    destruct Hw as (Hw & Hb & Hn).
    apply Qeq_bool_iff in Hw, Hb.
    assert (Hpos : (0 < Solo.res_winAmount r)%Q) by (rewrite Hw; lra).
    destruct (recorded_win_lowers_balance_when_below_stake _ _ _ _ _ _ _ _ E Hpos)
      as ((t & Ht & Hty & _) & _ & Hiff).
    exists r, db', k, t. split; [reflexivity |]. split; [exact Hpos |].
    split; [exact Ht |]. split; [exact Hty |].
    split; [apply Hiff; rewrite Hw, Hb; lra | exact Hn].
  - exfalso. vm_compute in E. discriminate.
Defined.

(** ** The pages of a player's history *)

Lemma sanitizeLimit_range p : (1 <= History.sanitizeLimit p <= 100)%Z.
Proof.
  unfold History.sanitizeLimit, History.parseIntOr, History.MAX_LIMIT.
  destruct p as [| [l |]]; cbn -[Z.ltb];
    repeat match goal with
           | |- context [(?a <? ?b)%Z] => destruct (Z.ltb_spec a b)
           end; lia.
Qed.

Lemma sanitizePage_range p : (1 <= History.sanitizePage p)%Z.
Proof.
  unfold History.sanitizePage, History.parseIntOr.
  destruct p as [| [l |]]; cbn -[Z.ltb];
    repeat match goal with
           | |- context [(?a <? ?b)%Z] => destruct (Z.ltb_spec a b)
           end; lia.
Qed.

(** [Math.ceil(total / limit)] is the least number of pages of [limit]
    records that hold [total] records. *)
Lemma totalPagesOf_spec total limit :
  (1 <= limit)%Z ->
  ((History.totalPagesOf total limit - 1) * limit < Z.of_nat total
   <= History.totalPagesOf total limit * limit)%Z.
Proof.
  intros Hl. unfold History.totalPagesOf.
  set (q := (inject_Z (Z.of_nat total) / inject_Z limit)%Q).
  pose proof (Qle_ceiling q) as Hc. pose proof (Qceiling_lt q) as Hf.
  assert (Hlq : (0 < inject_Z limit)%Q).
  { change 0%Q with (inject_Z 0). rewrite <- Zlt_Qlt. lia. }
  assert (Hq : (q * inject_Z limit == inject_Z (Z.of_nat total))%Q).
  { unfold q. field. lra. }
  split.
  - rewrite Zlt_Qlt, inject_Z_mult. rewrite <- Hq.
    apply Qmult_lt_compat_r; [exact Hlq |]. exact Hf.
  - rewrite Zle_Qle, inject_Z_mult. rewrite <- Hq.
    apply Qmult_le_compat_r; [exact Hc | lra].
Qed.

(** X23. Whatever the query holds, [getGameHistory] runs with a limit from
    1 to 100 and a page of at least 1; a limit from 1 to 100 and a page of
    at least 1 are taken as given, a missing, unreadable or smaller value
    becomes 20 and 1, a larger limit 100.  The page returned holds at most
    [limit] documents, each a document of the collection that belongs to
    the requesting user and carries the game type [sweet-bonanza]; [total]
    counts the documents of the collection with that user and that game
    type, and no other; [totalPages] is the least number of pages that hold
    them; and a page after the last one is empty.  Of the records [playGame]
    wrote, the filter keeps exactly those of the user. *)
Theorem history_page_is_bounded_and_pages_cover_the_records
    (userId : string) (limit page : History.QueryParam)
    (collection : list History.Stored) :
  let p := History.getGameHistory userId limit page collection in
  (1 <= History.pg_limit p <= 100)%Z
  /\ (1 <= History.pg_page p)%Z
  /\ (forall l, limit = History.Present (Some l) ->
        History.pg_limit p
        = if (l <? 1)%Z then 20%Z else if (100 <? l)%Z then 100%Z else l)
  /\ (forall n, page = History.Present (Some n) ->
        History.pg_page p = if (n <? 1)%Z then 1%Z else n)
  /\ (limit = History.Missing \/ limit = History.Present None ->
        History.pg_limit p = 20%Z)
  /\ (page = History.Missing \/ page = History.Present None ->
        History.pg_page p = 1%Z)
  /\ (length (History.pg_history p) <= Z.to_nat (History.pg_limit p))%nat
  /\ Forall (fun d => bh_user (History.doc d) = userId
                      /\ History.gameType d = Some "sweet-bonanza"
                      /\ In d collection)
            (History.pg_history p)
  /\ History.pg_total p
     = length (filter (fun d => bh_user (History.doc d) = userId
                                /\ History.gameType d = Some "sweet-bonanza")
                      collection)
  /\ ((History.pg_totalPages p - 1) * History.pg_limit p
      < Z.of_nat (History.pg_total p)
      <= History.pg_totalPages p * History.pg_limit p)%Z
  /\ ((History.pg_totalPages p < History.pg_page p)%Z ->
        History.pg_history p = [])
  /\ (forall db : Db,
        History.matching userId (map History.written (history db))
        = map History.written
              (filter (fun h => bh_user h = userId) (history db))).
Proof.
  intros p. unfold p, History.getGameHistory.
  cbn [History.pg_limit History.pg_page History.pg_history History.pg_total
       History.pg_totalPages].
  pose proof (sanitizeLimit_range limit) as Hl.
  pose proof (sanitizePage_range page) as Hp.
  pose proof (totalPagesOf_spec (length (History.matching userId collection))
                (History.sanitizeLimit limit) ltac:(lia)) as Ht.
  split; [exact Hl |]. split; [exact Hp |].
  split.
  { intros l ->. unfold History.sanitizeLimit, History.parseIntOr, History.MAX_LIMIT.
    destruct (Z.ltb_spec l 1); [reflexivity |]. reflexivity. }
  split.
  { intros n ->. reflexivity. }
  split.
  { intros [-> | ->]; reflexivity. }
  split.
  { intros [-> | ->]; reflexivity. }
  split.
  { rewrite length_take. lia. }
  split.
  { apply Forall_forall. intros d Hin.
    eapply elem_of_sublist in Hin; [| apply sublist_take].
    eapply elem_of_sublist in Hin; [| apply sublist_drop].
    rewrite elem_of_reverse in Hin. unfold History.matching in Hin.
    apply list_elem_of_filter in Hin. destruct Hin as [[Hu Hg] Hin].
    split; [exact Hu |]. split; [exact Hg | now apply list_elem_of_In]. }
  split; [reflexivity |]. split; [exact Ht |].
  split.
  { intros Hlt. rewrite drop_ge; [apply take_nil |].
    rewrite length_reverse. nia. }
  intros db. unfold History.matching.
  induction (history db) as [| h hs IH]; [reflexivity |].
  cbn [map]. destruct (decide (bh_user h = userId)) as [Hu | Hu].
  - rewrite filter_cons_True by (split; [exact Hu | reflexivity]).
    rewrite (filter_cons_True (fun h => bh_user h = userId)) by exact Hu.
    cbn [map]. now rewrite IH.
  - rewrite filter_cons_False by (intros [H _]; contradiction).
    rewrite (filter_cons_False (fun h => bh_user h = userId)) by exact Hu.
    exact IH.
Qed.

(** A collection that holds, next to a play of the user, a deposit record
    of the same user and a play of another user: the page and the total
    count the user's play only. *)
Lemma history_page_skips_other_records :
  let play u :=
    History.written (mkBalanceHistory u "loss" 100 90 (-10) (-10) "game" 0 "loss" 10) in
  let deposit :=
    History.mkStored (mkBalanceHistory "alice" "deposit" 0 100 100 0 "deposit" 0 "" 100)
                     None in
  let p := History.getGameHistory "alice" History.Missing History.Missing
             [deposit; play "alice"; play "bob"] in
  History.pg_history p = [play "alice"] /\ History.pg_total p = 1%nat
  /\ History.pg_totalPages p = 1%Z.
Proof. vm_compute. repeat split. Qed.

(** ** The deposit request model *)

Lemma lowerChar_idempotent c :
  Deposit.lowerChar (Deposit.lowerChar c) = Deposit.lowerChar c.
Proof.
  destruct c as [[] [] [] [] [] [] [] []]; reflexivity.
Qed.

Lemma toLowerCase_idempotent s :
  Deposit.toLowerCase (Deposit.toLowerCase s) = Deposit.toLowerCase s.
Proof.
  induction s as [| c s IH]; [reflexivity |].
  cbn [Deposit.toLowerCase]. now rewrite lowerChar_idempotent, IH.
Qed.

(** X24. The [pre('save')] hook of the deposit request model writes the
    status in lower case exactly when its lower-case form is [pending],
    [approved] or [cancelled], and otherwise leaves it as it is (also a
    status that is no string).  So each of the six statuses the schema
    allows is saved as one of the three lower-case ones, the three
    lower-case ones are saved unchanged, and running the hook again changes
    nothing. *)
Theorem deposit_status_is_saved_in_lower_case :
  (forall v, Deposit.preSave (Deposit.preSave v) = Deposit.preSave v)
  /\ (forall st,
        Deposit.preSave (Deposit.Str st) = Deposit.Str st
        \/ (Deposit.preSave (Deposit.Str st)
             = Deposit.Str (Deposit.toLowerCase st)
            /\ In (Deposit.toLowerCase st) Deposit.NORMALIZED))
  /\ (forall st,
        In (Deposit.toLowerCase st) Deposit.NORMALIZED <->
        exists s, Deposit.preSave (Deposit.Str st) = Deposit.Str s
                  /\ In s Deposit.NORMALIZED)
  /\ (forall st, In st Deposit.ALLOWED ->
        exists s, Deposit.preSave (Deposit.Str st) = Deposit.Str s
                  /\ In s Deposit.NORMALIZED)
  /\ (forall st, In st Deposit.NORMALIZED ->
        Deposit.preSave (Deposit.Str st) = Deposit.Str st)
  /\ Deposit.preSave Deposit.NotAString = Deposit.NotAString.
Proof.
  assert (Hcase : forall st,
             (In (Deposit.toLowerCase st) Deposit.NORMALIZED
              /\ Deposit.preSave (Deposit.Str st)
                 = Deposit.Str (Deposit.toLowerCase st))
             \/ (~ In (Deposit.toLowerCase st) Deposit.NORMALIZED
                 /\ Deposit.preSave (Deposit.Str st) = Deposit.Str st)).
  { intros st. unfold Deposit.preSave. cbn zeta.
    destruct (bool_decide (Deposit.toLowerCase st ∈ Deposit.NORMALIZED)) eqn:E.
    - apply bool_decide_eq_true, list_elem_of_In in E. auto.
    - apply bool_decide_eq_false in E. rewrite list_elem_of_In in E. auto. }
  split.
  { intros [| st]; [reflexivity |].
    destruct (Hcase st) as [[Hin ->] | [Hn ->]].
    - destruct (Hcase (Deposit.toLowerCase st)) as [[_ ->] | [Hn _]].
      + now rewrite toLowerCase_idempotent.
      + rewrite toLowerCase_idempotent in Hn. contradiction.
    - destruct (Hcase st) as [[Hin _] | [_ ->]]; [contradiction | reflexivity]. }
  split.
  { intros st. destruct (Hcase st) as [[Hin ->] | [Hn ->]]; auto. }
  split.
  { intros st. split.
    - intros Hin. destruct (Hcase st) as [[_ ->] | [Hn _]]; [eauto | contradiction].
    - intros (s & Hs & Hin).
      destruct (Hcase st) as [[Hl _] | [Hn Hst]]; [exact Hl |].
      rewrite Hst in Hs. injection Hs as <-.
      exfalso. apply Hn.
      cbn in Hin. destruct Hin as [<- | [<- | [<- | []]]]; cbn; auto. }
  split.
  { intros st Hin. cbn in Hin.
    destruct Hin as [<- | [<- | [<- | [<- | [<- | [<- | []]]]]]];
      eexists; (split; [reflexivity | cbn; auto]). }
  split; [| reflexivity].
  intros st Hin. cbn in Hin.
  destruct Hin as [<- | [<- | [<- | []]]]; reflexivity.
Qed.

(** ** The snapshot *)

(** X25. [getState] adds the caller to the active players unless the caller
    is absent, empty or [anonymous], and adds nobody else; asking again
    changes nothing more.  In the snapshot the time left and the viewer
    count are never negative; the viewer count is the excess of the active
    players over the distinct betters, so it never exceeds the number of
    active players who placed no bet and equals it when every better is
    active; [totalPlayers] is at least the number of bets, of active players
    and of viewers; and the round cycle reported is never 0. *)
Theorem snapshot_counts_active_players_and_viewers
    (caller : option string) (s : Session) (ap : gset string) :
  let snap := fst (getState caller s ap) in
  let ap' := snd (getState caller s ap) in
  let betters : gset string := list_to_set (map betterName (bets s)) in
  (forall u, u ∈ ap' <->
             u ∈ ap \/ (caller = Some u /\ u <> "" /\ u <> "anonymous"))
  /\ snd (getState caller s ap') = ap'
  /\ (0 <= snap_timeLeft snap)%Z
  /\ (0 <= viewersCount snap)%Z
  /\ (viewersCount snap <= Z.of_nat (size (ap' ∖ betters)))%Z
  /\ (betters ⊆ ap' -> viewersCount snap = Z.of_nat (size (ap' ∖ betters)))
  /\ (betsCount snap <= totalPlayers snap)%Z
  /\ (Z.of_nat (size ap') <= totalPlayers snap)%Z
  /\ (viewersCount snap <= totalPlayers snap)%Z
  /\ (Z.of_nat (size betters) <= betsCount snap)%Z
  /\ snap_roundCycle snap <> 0%Z.
Proof.
  intros snap ap' betters.
  assert (Hap : forall u, u ∈ ap' <->
             u ∈ ap \/ (caller = Some u /\ u <> "" /\ u <> "anonymous")).
  { intros u. unfold ap', getState. cbn [snd].
    destruct caller as [c |]; cbn [truthy andb].
    - destruct (String.eqb_spec c "") as [-> | Hne]; cbn [negb andb].
      + split; [auto | intros [H | ([= <-] & H & _)]; [exact H | congruence]].
      + destruct (bool_decide (Some c = Some "anonymous")) eqn:Ea; cbn [negb].
        * apply bool_decide_eq_true in Ea. injection Ea as ->.
          split; [auto | intros [H | ([= <-] & _ & H)]; [exact H | congruence]].
        * apply bool_decide_eq_false in Ea.
          rewrite elem_of_union, elem_of_singleton. split.
          -- intros [-> | H]; [right | auto].
             repeat split; congruence.
          -- intros [H | ([= <-] & _)]; auto.
    - split; [auto | intros [H | ([=] & _)]; exact H]. }
  assert (Hidem : snd (getState caller s ap') = ap').
  { unfold ap', getState. cbn [snd].
    destruct (truthy caller && negb (bool_decide (caller = Some "anonymous")));
      [| reflexivity].
    destruct caller as [c |]; [| reflexivity].
    rewrite (assoc_L (∪)), (idemp_L (∪)). reflexivity. }
  assert (Hall : (size ap' <= size betters + size (ap' ∖ betters))%nat).
  { rewrite <- size_union_alt. apply subseteq_size, union_subseteq_r. }
  assert (Hlen : (size betters <= length (bets s))%nat).
  { unfold betters. rewrite <- (length_map betterName (bets s)).
    generalize (map betterName (bets s)). intros l.
    induction l as [| x l IH]; [rewrite list_to_set_nil, size_empty; lia |].
    rewrite list_to_set_cons. cbn [length].
    rewrite size_union_alt, size_singleton.
    pose proof (subseteq_size (list_to_set l ∖ {[x]}) (list_to_set l : gset string)
                  ltac:(now apply subseteq_difference_l)).
    lia. }
  split; [exact Hap |]. split; [exact Hidem |].
  unfold snap, getState. fold ap'.
  cbn [fst snap_timeLeft viewersCount betsCount totalPlayers snap_roundCycle].
  fold betters.
  replace (if truthy caller && negb (bool_decide (caller = Some "anonymous"))
           then match caller with
                | Some u => {[u]} ∪ ap
                | None => ap
                end
           else ap) with ap' by reflexivity.
  split; [lia |]. split; [lia |].
  split; [lia |].
  split.
  { intros Hsub. rewrite size_difference by exact Hsub.
    pose proof (subseteq_size _ _ Hsub). lia. }
  split; [lia |]. split; [lia |]. split; [lia |]. split; [lia |].
  destruct (roundCycle s) as [c |]; [| discriminate].
  destruct (Z.eqb_spec c 0); [discriminate | assumption].
Qed.
